(** * Room distribution: a shallow embedding of [RoomBox] and [RoomAllocator]

    The TypeScript sources embedded here are [models/RoomBox.ts] and
    [services/RoomAllocator.ts].  JavaScript numbers are modelled twice.
    The main embedding uses [Z]: it is the program as long as every number
    the run computes is an integer of magnitude at most [2 ^ 53] and every
    array has at most [2 ^ 32 - 1] elements.  The first steps of
    [distribute], where larger inputs make the difference, are embedded a
    second time over binary64 floats ([isFeasible64],
    [pickSeniorOnlyRoomCount64], [prelude64]).  The mutable [RoomBox]
    objects held by the two arrays [seniorOnlyRooms] and [mixedRooms] are
    modelled by explicit state passing: a method returns its result together
    with the updated box, a loop over an array returns the updated array. *)

From Stdlib Require Import ZArith List Bool Lia Permutation Sorted.
From Stdlib Require Import PrimFloat.
From Equations Require Import Equations.
From Equations.Prop Require Import Logic.
Import ListNotations.

Local Open Scope Z_scope.

(** ** Data model *)

(** [interface Room] of [types/Room.ts]. *)
Module Room.
Record t : Type := mk { adults : Z; seniors : Z; children : Z }.
End Room.

(** The fields of [class RoomBox]; a fresh box has all three at 0. *)
Module RoomBox.
Record t : Type := mk { adults : Z; seniors : Z; children : Z }.
Definition fresh : t := mk 0 0 0.
End RoomBox.

Abbreviation Room := Room.t.
Abbreviation RoomBox := RoomBox.t.

(** Modelled from the spec: the value that [constants/limits.ts] gives to
    [ROOM_CAPACITY]; the file is not among the sources, the specification and
    the README give 4. *)
Definition defaultCapacity : Z := 4.

(** The run of the README and of the test suite. *)
Definition exampleRooms : list Room := [Room.mk 2 0 1; Room.mk 0 2 0].

(** *** The limits of exact arithmetic *)

(** Every integer of magnitude up to [2 ^ 53] is a binary64 number, and a
    sum, difference or product of such integers that stays within the bound
    is computed exactly. *)
Definition exactLimit : Z := 2 ^ 53.

(** [Array.from({ length: n }, ...)] throws [RangeError] above this length. *)
Definition maxArrayLength : Z := 2 ^ 32 - 1.

(** *** The first steps of [distribute] over binary64 numbers *)

Section Binary64.

Local Open Scope float_scope.

(** The binary64 number of an integer: the integer itself up to [2 ^ 53] in
    magnitude, its rounding above. *)
Fixpoint numberOfPositive (p : positive) : float :=
  match p with
  | xH => 1
  | xO p' => 2 * numberOfPositive p'
  | xI p' => 2 * numberOfPositive p' + 1
  end.

Definition number (z : Z) : float :=
  match z with
  | Z0 => 0
  | Zpos p => numberOfPositive p
  | Zneg p => - numberOfPositive p
  end.

(** [Math.min] and [Math.max] on two numbers (neither is [NaN] here). *)
Definition min64 (x y : float) : float := if x <? y then x else y.
Definition max64 (x y : float) : float := if x <? y then y else x.

(** [Math.floor]: a number of magnitude [2 ^ 52] or more is an integer;
    below, adding and removing [2 ^ 52] rounds to the nearest integer, which
    is the floor or one above it. *)
Definition floor64 (x : float) : float :=
  if abs x <? 0x1p52 then
    let nearest :=
      if 0 <=? x then (x + 0x1p52) - 0x1p52 else (x - 0x1p52) + 0x1p52 in
    if x <? nearest then nearest - 1 else nearest
  else x.

Definition isFeasible64 (ROOM_CAPACITY roomCount numAdults numSeniors numChildren : float)
  : bool :=
  let totalPeople := numAdults + numSeniors + numChildren in
  if roomCount <=? 0 then false
  else if totalPeople <? roomCount then false
  else if roomCount * ROOM_CAPACITY <? totalPeople then false
  else if (0 <? numChildren) && (numAdults + numSeniors =? 0) then false
  else true.

Definition ceilDiv64 (a b : float) : float := floor64 ((a + b - 1) / b).

(** The [while (seniorOnlyRooms > 0)] loop; [None] when it is still running
    after [fuel] iterations. *)
Fixpoint shrinkSeniorOnlyRooms64 (fuel : nat)
    (ROOM_CAPACITY roomCount numAdults numSeniors seniorOnlyRooms : float)
  : option float :=
  if 0 <? seniorOnlyRooms then
    match fuel with
    | O => None
    | S fuel' =>
        let seniorsInSeniorRooms :=
          min64 numSeniors (seniorOnlyRooms * ROOM_CAPACITY) in
        let seniorsLeft := numSeniors - seniorsInSeniorRooms in
        let roomsLeft := roomCount - seniorOnlyRooms in
        if roomsLeft <=? numAdults + seniorsLeft then Some seniorOnlyRooms
        else shrinkSeniorOnlyRooms64 fuel' ROOM_CAPACITY roomCount numAdults
               numSeniors (seniorOnlyRooms - 1)
    end
  else Some seniorOnlyRooms.

Definition pickSeniorOnlyRoomCount64 (fuel : nat)
    (ROOM_CAPACITY roomCount numAdults numSeniors numChildren : float)
  : option float :=
  let roomsNeededForNonSeniors := ceilDiv64 (numAdults + numChildren) ROOM_CAPACITY in
  let maxSpareRooms := max64 0 (roomCount - roomsNeededForNonSeniors) in
  let seniorOnlyRooms := min64 maxSpareRooms (ceilDiv64 numSeniors ROOM_CAPACITY) in
  shrinkSeniorOnlyRooms64 fuel ROOM_CAPACITY roomCount numAdults numSeniors
    seniorOnlyRooms.

(** How steps 1 to 3 of [distribute] (lines 24 to 53) can end. *)
Inductive Prelude : Type :=
| ReturnsEmpty                    (* [return []] after [isFeasible] *)
| ThrowsRangeError                (* [Array.from] refuses the length *)
| Builds (seniorOnlyCount mixedCount : float).  (* both arrays are created *)

(** Steps 1 to 3 of [distribute]; [None] when the loop of
    [pickSeniorOnlyRoomCount] is still running after [fuel] iterations. *)
Definition prelude64 (fuel : nat)
    (ROOM_CAPACITY roomCount totalAdults totalSeniors totalChildren : float)
  : option Prelude :=
  if negb (isFeasible64 ROOM_CAPACITY roomCount totalAdults totalSeniors totalChildren)
  then Some ReturnsEmpty
  else
    match pickSeniorOnlyRoomCount64 fuel ROOM_CAPACITY roomCount
            totalAdults totalSeniors totalChildren with
    | None => None
    | Some seniorOnlyCount =>
        if 4294967295 <? seniorOnlyCount then Some ThrowsRangeError
        else if 4294967295 <? roomCount - seniorOnlyCount then Some ThrowsRangeError
        else Some (Builds seniorOnlyCount (roomCount - seniorOnlyCount))
    end.

End Binary64.

Section Allocation.

(** [ROOM_CAPACITY] is imported from [constants/limits.ts]; the allocator is
    written against the constant, whatever positive value it is given. *)
Variable ROOM_CAPACITY : Z.
Hypothesis capacity_positive : 0 < ROOM_CAPACITY.

(** *** [RoomBox] getters and methods *)

Definition total (r : RoomBox) : Z :=
  RoomBox.adults r + RoomBox.seniors r + RoomBox.children r.

Definition remainingCapacity (r : RoomBox) : Z :=
  ROOM_CAPACITY - total r.

(** Each [add] method returns [canAdd] and the box after the update. *)
Definition addAdults (count : Z) (r : RoomBox) : Z * RoomBox :=
  let canAdd := Z.min count (remainingCapacity r) in
  (canAdd,
   RoomBox.mk (RoomBox.adults r + canAdd) (RoomBox.seniors r) (RoomBox.children r)).

Definition addSeniors (count : Z) (r : RoomBox) : Z * RoomBox :=
  let canAdd := Z.min count (remainingCapacity r) in
  (canAdd,
   RoomBox.mk (RoomBox.adults r) (RoomBox.seniors r + canAdd) (RoomBox.children r)).

Definition addChildren (count : Z) (r : RoomBox) : Z * RoomBox :=
  let canAdd := Z.min count (remainingCapacity r) in
  (canAdd,
   RoomBox.mk (RoomBox.adults r) (RoomBox.seniors r) (RoomBox.children r + canAdd)).

Definition toRoom (r : RoomBox) : Room :=
  Room.mk (RoomBox.adults r) (RoomBox.seniors r) (RoomBox.children r).

(** *** [RoomAllocator]: feasibility and the senior-only quota *)

Definition isFeasible (roomCount numAdults numSeniors numChildren : Z) : bool :=
  let totalPeople := numAdults + numSeniors + numChildren in
  if roomCount <=? 0 then false
  else if totalPeople <? roomCount then false
  else if totalPeople >? roomCount * ROOM_CAPACITY then false
  else if (numChildren >? 0) && (numAdults + numSeniors =? 0) then false
  else true.

(** [Math.floor((a + b - 1) / b)]: [Z.div] rounds towards minus infinity. *)
Definition ceilDiv (a b : Z) : Z := (a + b - 1) / b.

(** The [while (seniorOnlyRooms > 0)] loop of [pickSeniorOnlyRoomCount].  The
    counter only moves down and the loop stops at 0, which is the measure
    that makes the recursion well founded. *)
Equations? shrinkSeniorOnlyRooms (roomCount numAdults numSeniors : Z)
    (seniorOnlyRooms : Z) : Z by wf (Z.to_nat seniorOnlyRooms) lt :=
  shrinkSeniorOnlyRooms roomCount numAdults numSeniors seniorOnlyRooms
    with inspect (seniorOnlyRooms >? 0) := {
    | exist _ true positive =>
        let seniorsInSeniorRooms :=
          Z.min numSeniors (seniorOnlyRooms * ROOM_CAPACITY) in
        let seniorsLeft := numSeniors - seniorsInSeniorRooms in
        let roomsLeft := roomCount - seniorOnlyRooms in
        if numAdults + seniorsLeft >=? roomsLeft then seniorOnlyRooms
        else shrinkSeniorOnlyRooms roomCount numAdults numSeniors
               (seniorOnlyRooms - 1)
    | exist _ false _ => seniorOnlyRooms }.
Proof. apply Z.gtb_lt in positive. lia. Qed.

Definition pickSeniorOnlyRoomCount
    (roomCount numAdults numSeniors numChildren : Z) : Z :=
  let roomsNeededForNonSeniors := ceilDiv (numAdults + numChildren) ROOM_CAPACITY in
  let maxSpareRooms := Z.max 0 (roomCount - roomsNeededForNonSeniors) in
  let seniorOnlyRooms := Z.min maxSpareRooms (ceilDiv numSeniors ROOM_CAPACITY) in
  shrinkSeniorOnlyRooms roomCount numAdults numSeniors seniorOnlyRooms.

(** *** [RoomAllocator]: the loops over the two arrays of boxes *)

(** [Array.from({ length: n }, () => new RoomBox())]: [n] distinct fresh
    boxes, none when [n] is not positive. *)
Definition freshRooms (n : Z) : list RoomBox := repeat RoomBox.fresh (Z.to_nat n).

(** Step 4 of [distribute]: fill the senior-only rooms in order. *)
Fixpoint fillSeniorOnlyRooms (rooms : list RoomBox) (remainingSeniors : Z)
  : list RoomBox * Z :=
  match rooms with
  | [] => ([], remainingSeniors)
  | room :: rest =>
      if remainingSeniors <=? 0 then (rooms, remainingSeniors)
      else
        let (placed, room') :=
          addSeniors (Z.min ROOM_CAPACITY remainingSeniors) room in
        let (rest', remainingSeniors') :=
          fillSeniorOnlyRooms rest (remainingSeniors - placed) in
        (room' :: rest', remainingSeniors')
  end.

(** Step 5 of [distribute]: one anchor per mixed room.  [None] is the
    branch commented "Should not happen due to feasibility checks", on which
    [distribute] returns the empty array. *)
Fixpoint seedMixedRooms (rooms : list RoomBox) (remainingAdults remainingSeniors : Z)
  : option (list RoomBox * Z * Z) :=
  match rooms with
  | [] => Some ([], remainingAdults, remainingSeniors)
  | room :: rest =>
      if remainingAdults >? 0 then
        let room' := snd (addAdults 1 room) in
        match seedMixedRooms rest (remainingAdults - 1) remainingSeniors with
        | Some (rest', a, s) => Some (room' :: rest', a, s)
        | None => None
        end
      else if remainingSeniors >? 0 then
        let room' := snd (addSeniors 1 room) in
        match seedMixedRooms rest remainingAdults (remainingSeniors - 1) with
        | Some (rest', a, s) => Some (room' :: rest', a, s)
        | None => None
        end
      else None
  end.

(** The [for (const room of rooms)] loop shared by the five placement
    helpers: stop as soon as nobody remains, otherwise give one person to
    every room that passes the test [eligible], through the method [add].
    The value [add] returns is dropped, as in the source, and [remaining] goes
    down by one. *)
Fixpoint sweep (eligible : RoomBox -> bool) (add : Z -> RoomBox -> Z * RoomBox)
    (rooms : list RoomBox) (remaining : Z) (placedSomething : bool)
  : list RoomBox * Z * bool :=
  match rooms with
  | [] => ([], remaining, placedSomething)
  | room :: rest =>
      if remaining <=? 0 then (rooms, remaining, placedSomething)
      else if eligible room then
        let room' := snd (add 1 room) in
        let '(rest', remaining', placed') :=
          sweep eligible add rest (remaining - 1) true in
        (room' :: rest', remaining', placed')
      else
        let '(rest', remaining', placed') :=
          sweep eligible add rest remaining placedSomething in
        (room :: rest', remaining', placed')
  end.

(** The body of a [while (remaining > 0)] loop that sweeps two arrays, [first]
    then [second], starting from [placedSomething = false]. *)
Definition sweepBoth (eligible : RoomBox -> bool) (add : Z -> RoomBox -> Z * RoomBox)
    (remaining : Z) (groups : list RoomBox * list RoomBox)
  : (list RoomBox * list RoomBox) * Z * bool :=
  let '(first, second) := groups in
  let '(first', remaining1, placed1) := sweep eligible add first remaining false in
  let '(second', remaining2, placed2) := sweep eligible add second remaining1 placed1 in
  ((first', second'), remaining2, placed2).

(** The body of a [while (remaining > 0)] loop that sweeps one array. *)
Definition sweepOne (eligible : RoomBox -> bool) (add : Z -> RoomBox -> Z * RoomBox)
    (remaining : Z) (rooms : list RoomBox) : list RoomBox * Z * bool :=
  sweep eligible add rooms remaining false.

(** [while (remaining > 0) { body; if (!placedSomething) break; }].  [fuel]
    bounds the number of iterations; [None] means the bound was reached with
    the loop still running. *)
Fixpoint whileRemaining {St : Type} (fuel : nat) (body : Z -> St -> St * Z * bool)
    (remaining : Z) (st : St) : option (Z * St) :=
  if remaining >? 0 then
    match fuel with
    | O => None
    | S fuel' =>
        let '(st', remaining', placedSomething) := body remaining st in
        if negb placedSomething then Some (remaining', st')
        else whileRemaining fuel' body remaining' st'
    end
  else Some (remaining, st).

Definition hasSeniors (room : RoomBox) : bool := RoomBox.seniors room >? 0.
Definition hasAdults (room : RoomBox) : bool := RoomBox.adults room >? 0.
Definition hasSpace (room : RoomBox) : bool := remainingCapacity room >? 0.

(** Every placement helper returns [remaining] together with the two arrays
    after the mutation, always in the order (senior-only rooms, mixed rooms). *)
Definition Placement : Type := Z * list RoomBox * list RoomBox.

Definition placeSeniorsIntoRoomsThatAlreadyHaveSeniors (fuel : nat) (count : Z)
    (seniorOnlyRooms mixedRooms : list RoomBox) : option Placement :=
  if count <=? 0 then Some (0, seniorOnlyRooms, mixedRooms)
  else
    match whileRemaining fuel
            (sweepBoth (fun room => hasSeniors room && hasSpace room) addSeniors)
            count (seniorOnlyRooms, mixedRooms) with
    | Some (remaining, (seniorOnlyRooms', mixedRooms')) =>
        Some (remaining, seniorOnlyRooms', mixedRooms')
    | None => None
    end.

Definition placeSeniorsAnywhere (fuel : nat) (count : Z)
    (seniorOnlyRooms mixedRooms : list RoomBox) : option Placement :=
  if count <=? 0 then Some (0, seniorOnlyRooms, mixedRooms)
  else
    match whileRemaining fuel (sweepBoth hasSpace addSeniors)
            count (seniorOnlyRooms, mixedRooms) with
    | Some (remaining, (seniorOnlyRooms', mixedRooms')) =>
        Some (remaining, seniorOnlyRooms', mixedRooms')
    | None => None
    end.

Definition placeAdultsPreferMixedRooms (fuel : nat) (count : Z)
    (mixedRooms seniorOnlyRooms : list RoomBox) : option Placement :=
  if count <=? 0 then Some (0, seniorOnlyRooms, mixedRooms)
  else
    match whileRemaining fuel (sweepOne hasSpace addAdults) count mixedRooms with
    | Some (remaining, mixedRooms') =>
        match whileRemaining fuel (sweepOne hasSpace addAdults)
                remaining seniorOnlyRooms with
        | Some (remaining', seniorOnlyRooms') =>
            Some (remaining', seniorOnlyRooms', mixedRooms')
        | None => None
        end
    | None => None
    end.

Definition placeChildrenIntoRoomsWithAdults (fuel : nat) (count : Z)
    (mixedRooms seniorOnlyRooms : list RoomBox) : option Placement :=
  if count <=? 0 then Some (0, seniorOnlyRooms, mixedRooms)
  else
    match whileRemaining fuel
            (sweepBoth (fun room => hasAdults room && hasSpace room) addChildren)
            count (mixedRooms, seniorOnlyRooms) with
    | Some (remaining, (mixedRooms', seniorOnlyRooms')) =>
        Some (remaining, seniorOnlyRooms', mixedRooms')
    | None => None
    end.

Definition placeChildrenIntoRoomsWithSeniors (fuel : nat) (count : Z)
    (mixedRooms seniorOnlyRooms : list RoomBox) : option Placement :=
  if count <=? 0 then Some (0, seniorOnlyRooms, mixedRooms)
  else
    match whileRemaining fuel
            (sweepBoth (fun room => hasSeniors room && hasSpace room) addChildren)
            count (seniorOnlyRooms, mixedRooms) with
    | Some (remaining, (seniorOnlyRooms', mixedRooms')) =>
        Some (remaining, seniorOnlyRooms', mixedRooms')
    | None => None
    end.

(** *** [RoomAllocator]: the final sort *)

(** [x || y] on numbers: [x] unless it is 0. *)
Definition orElse (x y : Z) : Z := if x =? 0 then y else x.

(** The comparator handed to [Array.prototype.sort]. *)
Definition compareRooms (a b : Room) : Z :=
  orElse (Room.adults b - Room.adults a)
    (orElse (Room.seniors b - Room.seniors a)
            (Room.children b - Room.children a)).

(** [Array.prototype.sort] is a stable comparison sort; it is modelled by
    the stable insertion sort, [x] going in front of the first element it
    does not have to follow. *)
Fixpoint insertRoom (cmp : Room -> Room -> Z) (x : Room) (sorted : list Room)
  : list Room :=
  match sorted with
  | [] => [x]
  | y :: rest =>
      if cmp x y <=? 0 then x :: sorted else y :: insertRoom cmp x rest
  end.

Definition sortRooms (cmp : Room -> Room -> Z) (rooms : list Room) : list Room :=
  fold_right (insertRoom cmp) [] rooms.

(** *** [RoomAllocator.distribute] *)

Definition distribute (fuel : nat)
    (roomCount totalAdults totalSeniors totalChildren : Z) : option (list Room) :=
  if negb (isFeasible roomCount totalAdults totalSeniors totalChildren) then Some []
  else
    let remainingAdults := totalAdults in
    let remainingSeniors := totalSeniors in
    let remainingChildren := totalChildren in
    let seniorOnlyCount :=
      pickSeniorOnlyRoomCount roomCount remainingAdults remainingSeniors
        remainingChildren in
    let seniorOnlyRooms := freshRooms seniorOnlyCount in
    let mixedRooms := freshRooms (roomCount - seniorOnlyCount) in
    let (seniorOnlyRooms, remainingSeniors) :=
      fillSeniorOnlyRooms seniorOnlyRooms remainingSeniors in
    match seedMixedRooms mixedRooms remainingAdults remainingSeniors with
    | None => Some []
    | Some (mixedRooms, remainingAdults, remainingSeniors) =>
    match placeSeniorsIntoRoomsThatAlreadyHaveSeniors fuel remainingSeniors
            seniorOnlyRooms mixedRooms with
    | None => None
    | Some (remainingSeniors, seniorOnlyRooms, mixedRooms) =>
    match placeSeniorsAnywhere fuel remainingSeniors seniorOnlyRooms mixedRooms with
    | None => None
    | Some (remainingSeniors, seniorOnlyRooms, mixedRooms) =>
    match placeAdultsPreferMixedRooms fuel remainingAdults
            mixedRooms seniorOnlyRooms with
    | None => None
    | Some (remainingAdults, seniorOnlyRooms, mixedRooms) =>
    match placeChildrenIntoRoomsWithAdults fuel remainingChildren
            mixedRooms seniorOnlyRooms with
    | None => None
    | Some (remainingChildren, seniorOnlyRooms, mixedRooms) =>
    match (if remainingChildren >? 0
           then placeChildrenIntoRoomsWithSeniors fuel remainingChildren
                  mixedRooms seniorOnlyRooms
           else Some (remainingChildren, seniorOnlyRooms, mixedRooms)) with
    | None => None
    | Some (remainingChildren, seniorOnlyRooms, mixedRooms) =>
        if (remainingAdults >? 0) || (remainingSeniors >? 0)
           || (remainingChildren >? 0)
        then Some []
        else
          let allRooms := mixedRooms ++ seniorOnlyRooms in
          if existsb (fun r => total r <=? 0) allRooms then Some []
          else if existsb (fun r => (RoomBox.children r >? 0)
                                    && (RoomBox.adults r + RoomBox.seniors r =? 0))
                          allRooms
          then Some []
          else Some (sortRooms compareRooms (map toRoom allRooms))
    end end end end end end.

(** ** Vocabulary of the specification *)

(** The invariant the specification attaches to a box. *)
Definition box_ok (r : RoomBox) : Prop :=
  0 <= RoomBox.adults r /\ 0 <= RoomBox.seniors r /\ 0 <= RoomBox.children r /\
  total r <= ROOM_CAPACITY.

(** What one [add] call must do to the field [get] it owns and to the two
    fields [other1], [other2] it does not. *)
Definition add_spec (get other1 other2 : RoomBox -> Z)
           (n : Z) (r : RoomBox) (out : Z * RoomBox) : Prop :=
  fst out = Z.min n (remainingCapacity r) /\
  get (snd out) = get r + Z.min n (remainingCapacity r) /\
  other1 (snd out) = other1 r /\
  other2 (snd out) = other2 r /\
  box_ok (snd out).

(** The order of the specification: adults descending, then seniors
    descending, then children descending. *)
Definition lexGe (r1 r2 : Room) : Prop :=
  Room.adults r1 > Room.adults r2 \/
  (Room.adults r1 = Room.adults r2 /\ Room.seniors r1 > Room.seniors r2) \/
  (Room.adults r1 = Room.adults r2 /\ Room.seniors r1 = Room.seniors r2 /\
   Room.children r1 >= Room.children r2).

(** The three kinds of people, to state once what holds for each of the
    three [add] methods. *)
Inductive Category : Type := Adult | Senior | Child.

Definition field (k : Category) (r : RoomBox) : Z :=
  match k with
  | Adult => RoomBox.adults r
  | Senior => RoomBox.seniors r
  | Child => RoomBox.children r
  end.

Definition same (k k' : Category) : bool :=
  match k, k' with
  | Adult, Adult | Senior, Senior | Child, Child => true
  | _, _ => false
  end.

(** [n] people of kind [k], seen from the column of kind [k']. *)
Definition credit (k k' : Category) (n : Z) : Z := if same k k' then n else 0.

(** People of kind [k] over an array of boxes. *)
Fixpoint headcount (k : Category) (rooms : list RoomBox) : Z :=
  match rooms with
  | [] => 0
  | r :: rest => field k r + headcount k rest
  end.

(** [add] is the method that adds people of kind [k]. *)
Definition adds (k : Category) (add : Z -> RoomBox -> Z * RoomBox) : Prop :=
  forall n r,
    fst (add n r) = Z.min n (remainingCapacity r) /\
    forall k', field k' (snd (add n r)) = field k' r + credit k k' (fst (add n r)).

(** How a loop may change the number [n] of people still to place and the
    array [rooms] it walks over, when it places people of kind [k]: the boxes
    stay in place and stay within capacity, and whoever left [n] is now
    counted in the boxes. *)
Definition swept (k : Category) (n : Z) (rooms : list RoomBox)
                 (n' : Z) (rooms' : list RoomBox) : Prop :=
  length rooms' = length rooms /\
  (Forall box_ok rooms ->
   Forall box_ok rooms' /\
   (0 <= n ->
    0 <= n' <= n /\
    forall k', headcount k' rooms' = headcount k' rooms + credit k k' (n - n'))).

(** Total occupancy of an array of boxes. *)
Fixpoint occupancy (rooms : list RoomBox) : Z :=
  match rooms with
  | [] => 0
  | r :: rest => total r + occupancy rest
  end.

(** The quota of phase 1 as the specification words it, to be compared with
    [pickSeniorOnlyRoomCount].  [specCeil a b] is [ceil(a / b)], the least
    integer not below the quotient. *)
Definition specCeil (a b : Z) : Z := if a mod b =? 0 then a / b else a / b + 1.

(** [min(spareRooms, ceil(seniors / CAPACITY))]. *)
Definition specInitialQuota (roomCount adults seniors children : Z) : Z :=
  let roomsNeededForNonSeniors := specCeil (adults + children) ROOM_CAPACITY in
  let spareRooms := Z.max 0 (roomCount - roomsNeededForNonSeniors) in
  Z.min spareRooms (specCeil seniors ROOM_CAPACITY).

(** The condition under which the quota is decremented. *)
Definition specMustShrink (roomCount adults seniors quota : Z) : Prop :=
  0 < quota /\
  adults + (seniors - Z.min seniors (quota * ROOM_CAPACITY)) < roomCount - quota.

(** [specShrinksTo q r]: decrementing [q] for as long as [specMustShrink]
    holds ends on [r]. *)
Inductive specShrinksTo (roomCount adults seniors : Z) : Z -> Z -> Prop :=
| shrink_done q :
    ~ specMustShrink roomCount adults seniors q ->
    specShrinksTo roomCount adults seniors q q
| shrink_more q r :
    specMustShrink roomCount adults seniors q ->
    specShrinksTo roomCount adults seniors (q - 1) r ->
    specShrinksTo roomCount adults seniors q r.

(** [ledger A S C ra rs rc rooms]: the boxes respect the capacity and, when
    the totals [A], [S], [C] are non-negative, the three counters are
    non-negative and everybody is either in a box or still counted. *)
Definition ledger (A S C ra rs rc : Z) (rooms : list RoomBox) : Prop :=
  Forall box_ok rooms /\
  (0 <= A -> 0 <= S -> 0 <= C ->
   (0 <= ra /\ 0 <= rs /\ 0 <= rc) /\
   headcount Adult rooms + ra = A /\
   headcount Senior rooms + rs = S /\
   headcount Child rooms + rc = C).

(** The sum of the field [f] over the rooms returned. *)
Definition sumOver (f : Room -> Z) (rooms : list Room) : Z :=
  fold_right (fun r acc => f r + acc) 0 rooms.

(** A box with somebody who can look after children. *)
Definition anchored (r : RoomBox) : Prop :=
  1 <= RoomBox.adults r + RoomBox.seniors r.

(** A box with no place left. *)
Definition full (r : RoomBox) : Prop := remainingCapacity r <= 0.

(** What one pass may do to one box: nothing, or one call [add 1] on a box
    that passed the test. *)
Definition servedOnce (eligible : RoomBox -> bool)
    (add : Z -> RoomBox -> Z * RoomBox) (r r' : RoomBox) : Prop :=
  r' = r \/ (eligible r = true /\ r' = snd (add 1 r)).

(** What a run of passes that places people of kind [k] may do to one box
    that can only be served while the test [keep] holds: a box that fails
    the test is left as it is, the field of kind [k] does not go down and the
    two other fields do not change. *)
Definition servedWhile (k : Category) (keep : RoomBox -> bool)
    (r r' : RoomBox) : Prop :=
  (keep r = false -> r' = r) /\
  field k r <= field k r' /\
  (forall k', same k k' = false -> field k' r' = field k' r).

(** The last steps of [distribute], from the residual check to the sort, as
    a function of the counters and arrays the placement phases leave. *)
Definition finish (remainingAdults remainingSeniors remainingChildren : Z)
    (seniorOnlyRooms mixedRooms : list RoomBox) : list Room :=
  if (remainingAdults >? 0) || (remainingSeniors >? 0) || (remainingChildren >? 0)
  then []
  else
    let allRooms := mixedRooms ++ seniorOnlyRooms in
    if existsb (fun r => total r <=? 0) allRooms then []
    else if existsb (fun r => (RoomBox.children r >? 0)
                              && (RoomBox.adults r + RoomBox.seniors r =? 0))
                    allRooms
    then []
    else sortRooms compareRooms (map toRoom allRooms).

(** A run of [distribute] that got past the anchor loop, phase by phase:
    the counters and the two arrays after each step, and the array returned. *)
Inductive placements (fuel : nat) (roomCount a s c : Z) (rooms : list Room) : Prop :=
| placements_intro so1 rs1 mx1 ra1 rs2 rs3 so2 mx2 rs4 so3 mx3
                   ra2 so4 mx4 rc1 so5 mx5 rc2 so6 mx6 :
    fillSeniorOnlyRooms
      (freshRooms (pickSeniorOnlyRoomCount roomCount a s c)) s = (so1, rs1) ->
    seedMixedRooms
      (freshRooms (roomCount - pickSeniorOnlyRoomCount roomCount a s c)) a rs1
      = Some (mx1, ra1, rs2) ->
    placeSeniorsIntoRoomsThatAlreadyHaveSeniors fuel rs2 so1 mx1
      = Some (rs3, so2, mx2) ->
    placeSeniorsAnywhere fuel rs3 so2 mx2 = Some (rs4, so3, mx3) ->
    placeAdultsPreferMixedRooms fuel ra1 mx3 so3 = Some (ra2, so4, mx4) ->
    placeChildrenIntoRoomsWithAdults fuel c mx4 so4 = Some (rc1, so5, mx5) ->
    (if rc1 >? 0
     then placeChildrenIntoRoomsWithSeniors fuel rc1 mx5 so5
     else Some (rc1, so5, mx5)) = Some (rc2, so6, mx6) ->
    rooms = finish ra2 rs4 rc2 so6 mx6 ->
    placements fuel roomCount a s c rooms.

(** What a placement helper guarantees when it is asked to place [count]
    people of kind [k] and returns [n] with the arrays [so'], [mx']: it
    placed exactly [count - n] people, all of kind [k], kept every box within
    capacity, and served a box only while it passed the test [keep]. *)
Definition placed (k : Category) (keep : RoomBox -> bool) (count : Z)
    (so mx : list RoomBox) (n : Z) (so' mx' : list RoomBox) : Prop :=
  0 <= n <= count /\
  headcount k (so' ++ mx') = headcount k (so ++ mx) + (count - n) /\
  Forall box_ok (so' ++ mx') /\
  Forall2 (servedWhile k keep) so so' /\
  Forall2 (servedWhile k keep) mx mx'.

(** The box at position [i] (from 0) of the senior-only array once [s]
    seniors have been seated [ROOM_CAPACITY] to a room, in order. *)
Definition seated (s : Z) (i : nat) : RoomBox :=
  RoomBox.mk 0 (Z.min ROOM_CAPACITY (Z.max 0 (s - Z.of_nat i * ROOM_CAPACITY))) 0.

(** A mixed room right after it got its anchor. *)
Definition adultAnchor : RoomBox := RoomBox.mk 1 0 0.
Definition seniorAnchor : RoomBox := RoomBox.mk 0 1 0.

(** A room of the result that holds [ROOM_CAPACITY] seniors and nobody else. *)
Definition seniorsOnlyFull (r : Room) : bool :=
  (Room.adults r =? 0) && (Room.seniors r =? ROOM_CAPACITY) && (Room.children r =? 0).

(** Calling [add] twice is calling it once with the sum of the two counts. *)
Definition composes (add : Z -> RoomBox -> Z * RoomBox) : Prop :=
  forall n m r,
    0 <= n -> 0 <= m -> box_ok r ->
    snd (add m (snd (add n r))) = snd (add (n + m) r) /\
    fst (add n r) + fst (add m (snd (add n r))) = fst (add (n + m) r).

(** The two embeddings take the same first steps on an input: both return
    the empty array, or both go on with the same quota and the same number
    of mixed rooms. *)
Definition agrees64 (fuel : nat) (roomCount a s c : Z) : bool :=
  match prelude64 fuel (number ROOM_CAPACITY) (number roomCount)
          (number a) (number s) (number c) with
  | Some ReturnsEmpty => negb (isFeasible roomCount a s c)
  | Some (Builds seniorOnlyCount mixedCount) =>
      isFeasible roomCount a s c
      && PrimFloat.eqb seniorOnlyCount
           (number (pickSeniorOnlyRoomCount roomCount a s c))
      && PrimFloat.eqb mixedCount
           (number (roomCount - pickSeniorOnlyRoomCount roomCount a s c))
  | _ => false
  end.

(** All the inputs with every argument below [n]. *)
Definition inputsBelow (n : nat) : list (Z * Z * Z * Z) :=
  let range := map Z.of_nat (seq 0 n) in
  flat_map (fun roomCount =>
    flat_map (fun a =>
      flat_map (fun s =>
        map (fun c => (roomCount, a, s, c)) range) range) range) range.

(** ** [RoomBox] *)

Lemma addAdults_spec n r :
  box_ok r -> 0 <= n ->
  add_spec RoomBox.adults RoomBox.seniors RoomBox.children n r (addAdults n r).
Proof.
  unfold add_spec, addAdults, box_ok, remainingCapacity, total; cbn.
  intros (Ha & Hs & Hc & Ht) Hn. repeat match goal with |- _ /\ _ => split end; lia.
Qed.

Lemma addSeniors_spec n r :
  box_ok r -> 0 <= n ->
  add_spec RoomBox.seniors RoomBox.adults RoomBox.children n r (addSeniors n r).
Proof.
  unfold add_spec, addSeniors, box_ok, remainingCapacity, total; cbn.
  intros (Ha & Hs & Hc & Ht) Hn. repeat match goal with |- _ /\ _ => split end; lia.
Qed.

Lemma addChildren_spec n r :
  box_ok r -> 0 <= n ->
  add_spec RoomBox.children RoomBox.adults RoomBox.seniors n r (addChildren n r).
Proof.
  unfold add_spec, addChildren, box_ok, remainingCapacity, total; cbn.
  intros (Ha & Hs & Hc & Ht) Hn. repeat match goal with |- _ /\ _ => split end; lia.
Qed.

(** C8. On a box with non-negative fields and [total <= ROOM_CAPACITY], and
    for a non-negative [n], each of [addAdults n], [addSeniors n] and
    [addChildren n] returns [min n remainingCapacity], raises exactly its own
    field by that amount, leaves the two other fields alone, and hands back a
    box that still has non-negative fields and [0 <= total <= ROOM_CAPACITY].
    The three methods are total functions: there is no failing path. *)
Theorem add_methods_saturate (n : Z) (r : RoomBox) :
  box_ok r -> 0 <= n ->
  add_spec RoomBox.adults RoomBox.seniors RoomBox.children n r (addAdults n r) /\
  add_spec RoomBox.seniors RoomBox.adults RoomBox.children n r (addSeniors n r) /\
  add_spec RoomBox.children RoomBox.adults RoomBox.seniors n r (addChildren n r) /\
  0 <= total (snd (addAdults n r)) /\
  0 <= total (snd (addSeniors n r)) /\
  0 <= total (snd (addChildren n r)).
Proof.
  intros Hok Hn.
  pose proof (addAdults_spec n r Hok Hn) as HA.
  pose proof (addSeniors_spec n r Hok Hn) as HS.
  pose proof (addChildren_spec n r Hok Hn) as HC.
  repeat split; try apply HA; try apply HS; try apply HC.
  - destruct HA as (_ & _ & _ & _ & (? & ? & ? & _)). unfold total. lia.
  - destruct HS as (_ & _ & _ & _ & (? & ? & ? & _)). unfold total. lia.
  - destruct HC as (_ & _ & _ & _ & (? & ? & ? & _)). unfold total. lia.
Qed.

(** ** Feasibility (phase 0) *)

Lemma isFeasible_true_iff roomCount a s c :
  isFeasible roomCount a s c = true <->
  0 < roomCount /\ roomCount <= a + s + c /\
  a + s + c <= roomCount * ROOM_CAPACITY /\ ~ (0 < c /\ a + s = 0).
Proof.
  unfold isFeasible.
  destruct (roomCount <=? 0) eqn:E1; [split; [discriminate | lia] |].
  destruct (a + s + c <? roomCount) eqn:E2; [split; [discriminate | lia] |].
  destruct (a + s + c >? roomCount * ROOM_CAPACITY) eqn:E3;
    [split; [discriminate | lia] |].
  destruct (c >? 0) eqn:E4; destruct (a + s =? 0) eqn:E5; cbn;
    split; try discriminate; try lia; intros _; repeat split; lia.
Qed.

(** C4, within the exact range.  On non-negative inputs whose total
    [adults + seniors + children] is at most [2 ^ 53], so that [isFeasible]
    adds them without rounding, [distribute] returns the empty array when
    [roomCount <= 0], when there are fewer people than rooms, when there are
    more people than [roomCount * ROOM_CAPACITY], and when there are children
    but neither an adult nor a senior.  The answer does not depend on the
    iteration bound: no placement loop is entered. *)
Theorem distribute_rejects_infeasible (fuel : nat) (roomCount a s c : Z) :
  0 <= a -> 0 <= s -> 0 <= c -> a + s + c <= exactLimit ->
  roomCount <= 0 \/ a + s + c < roomCount \/
  a + s + c > roomCount * ROOM_CAPACITY \/ (c > 0 /\ a + s = 0) ->
  distribute fuel roomCount a s c = Some [].
Proof.
  intros _ _ _ _ H. unfold distribute.
  destruct (isFeasible roomCount a s c) eqn:F; [| reflexivity].
  apply isFeasible_true_iff in F. lia.
Qed.

(** ** The final sort (phase 10) *)

Lemma compareRooms_le r1 r2 : compareRooms r1 r2 <= 0 <-> lexGe r1 r2.
Proof.
  unfold compareRooms, orElse, lexGe.
  destruct (Room.adults r2 - Room.adults r1 =? 0) eqn:E1;
    destruct (Room.seniors r2 - Room.seniors r1 =? 0) eqn:E2; lia.
Qed.

Lemma compareRooms_gt r1 r2 : 0 < compareRooms r1 r2 -> lexGe r2 r1.
Proof.
  unfold compareRooms, orElse, lexGe.
  destruct (Room.adults r2 - Room.adults r1 =? 0) eqn:E1;
    destruct (Room.seniors r2 - Room.seniors r1 =? 0) eqn:E2; lia.
Qed.

Lemma insertRoom_perm x l : Permutation (x :: l) (insertRoom compareRooms x l).
Proof.
  induction l as [| y l IH]; cbn; [reflexivity |].
  destruct (compareRooms x y <=? 0); [reflexivity |].
  rewrite perm_swap. now constructor.
Qed.

Lemma sortRooms_perm l : Permutation l (sortRooms compareRooms l).
Proof.
  induction l as [| x l IH]; cbn; [constructor |].
  rewrite <- insertRoom_perm. now constructor.
Qed.

Lemma insertRoom_hd x y l :
  lexGe y x -> HdRel lexGe y l -> HdRel lexGe y (insertRoom compareRooms x l).
Proof.
  intros Hyx Hhd. destruct l as [| z l]; cbn.
  - now constructor.
  - destruct (compareRooms x z <=? 0); constructor; trivial.
    now inversion Hhd.
Qed.

Lemma insertRoom_sorted x l :
  Sorted lexGe l -> Sorted lexGe (insertRoom compareRooms x l).
Proof.
  induction 1 as [| y l Hs IH Hhd]; cbn.
  - repeat constructor.
  - destruct (compareRooms x y <=? 0) eqn:E.
    + apply Z.leb_le, compareRooms_le in E.
      constructor; [now constructor | now constructor].
    + apply Z.leb_gt, compareRooms_gt in E.
      constructor; [exact IH | now apply insertRoom_hd].
Qed.

Lemma sortRooms_sorted l : Sorted lexGe (sortRooms compareRooms l).
Proof.
  induction l as [| x l IH]; cbn; [constructor | now apply insertRoom_sorted].
Qed.

Lemma lexGe_trans r1 r2 r3 : lexGe r1 r2 -> lexGe r2 r3 -> lexGe r1 r3.
Proof. unfold lexGe. lia. Qed.

Lemma lexGe_antisym r1 r2 : lexGe r1 r2 -> lexGe r2 r1 -> r1 = r2.
Proof.
  unfold lexGe. destruct r1 as [a1 s1 c1], r2 as [a2 s2 c2]. cbn.
  intros H1 H2. f_equal; lia.
Qed.

(** The comparator orders rooms totally, up to equality of the three
    counts: the sorted array does not depend on the sorting algorithm. *)
Lemma sorted_rooms_unique l1 : forall l2,
  Sorted lexGe l1 -> Sorted lexGe l2 -> Permutation l1 l2 -> l1 = l2.
Proof.
  induction l1 as [| x l1 IH]; intros l2 S1 S2 P.
  - apply Permutation_nil in P. now subst.
  - destruct l2 as [| y l2]; [apply Permutation_sym, Permutation_nil in P; discriminate |].
    assert (T : Relations_1.Transitive lexGe) by (intros ? ? ?; apply lexGe_trans).
    apply Sorted_StronglySorted in S1; [| exact T].
    apply Sorted_StronglySorted in S2; [| exact T].
    inversion S1 as [| ? ? S1' F1]; subst. inversion S2 as [| ? ? S2' F2]; subst.
    rewrite Forall_forall in F1, F2.
    assert (x = y) as <-.
    { assert (Hy : In y (x :: l1))
        by (apply (Permutation_in _ (Permutation_sym P)); now left).
      assert (Hx : In x (y :: l2)) by (apply (Permutation_in _ P); now left).
      destruct Hy as [-> | Hy]; [reflexivity |].
      destruct Hx as [-> | Hx]; [reflexivity |].
      apply lexGe_antisym; auto. }
    f_equal. apply IH.
    + now apply StronglySorted_Sorted.
    + now apply StronglySorted_Sorted.
    + eapply Permutation_cons_inv; eassumption.
Qed.

Lemma Sorted_consecutive (R : Room -> Room -> Prop) l :
  Sorted R l ->
  forall i r1 r2,
    nth_error l i = Some r1 -> nth_error l (S i) = Some r2 -> R r1 r2.
Proof.
  induction 1 as [| x l Hs IH Hhd]; intros i r1 r2 H1 H2.
  - destruct i; discriminate.
  - destruct i as [| i]; cbn in H1, H2.
    + injection H1 as <-. destruct l as [| y l]; [discriminate |].
      injection H2 as <-. now inversion Hhd.
    + eapply IH; eassumption.
Qed.

(** Every way [distribute] can end. *)
Lemma distribute_sorted fuel roomCount a s c rooms :
  distribute fuel roomCount a s c = Some rooms -> Sorted lexGe rooms.
Proof.
  unfold distribute. intros H.
  repeat match type of H with
         | Some _ = Some _ => injection H as <-
         | None = Some _ => discriminate H
         | context [match ?e with _ => _ end] => destruct e
         end;
    try (now constructor); apply sortRooms_sorted.
Qed.

(** C5. Whatever the input, two consecutive rooms [r1], [r2] of the array
    returned by [distribute] are in non-increasing lexicographic order of
    (adults, seniors, children). *)
Theorem distribute_sorted_descending (fuel : nat) (roomCount a s c : Z)
    (rooms : list Room) (i : nat) (r1 r2 : Room) :
  distribute fuel roomCount a s c = Some rooms ->
  nth_error rooms i = Some r1 -> nth_error rooms (S i) = Some r2 ->
  Room.adults r1 > Room.adults r2 \/
  (Room.adults r1 = Room.adults r2 /\ Room.seniors r1 > Room.seniors r2) \/
  (Room.adults r1 = Room.adults r2 /\ Room.seniors r1 = Room.seniors r2 /\
   Room.children r1 >= Room.children r2).
Proof.
  intros H. apply distribute_sorted in H.
  exact (Sorted_consecutive lexGe rooms H i r1 r2).
Qed.

(** ** Bookkeeping for the placement phases *)

Lemma addAdults_adds : adds Adult addAdults.
Proof. intros n r. split; [reflexivity |]. intros []; cbn; lia. Qed.

Lemma addSeniors_adds : adds Senior addSeniors.
Proof. intros n r. split; [reflexivity |]. intros []; cbn; lia. Qed.

Lemma addChildren_adds : adds Child addChildren.
Proof. intros n r. split; [reflexivity |]. intros []; cbn; lia. Qed.

Lemma total_fields r : total r = field Adult r + field Senior r + field Child r.
Proof. reflexivity. Qed.

Lemma credit_total k n : credit k Adult n + credit k Senior n + credit k Child n = n.
Proof. destruct k; cbn; lia. Qed.

Lemma credit_bounds k k' n : 0 <= n -> 0 <= credit k k' n <= n.
Proof. unfold credit. destruct (same k k'); lia. Qed.

Lemma adds_total k add n r :
  adds k add -> total (snd (add n r)) = total r + Z.min n (remainingCapacity r).
Proof.
  intros H. destruct (H n r) as [Hfst Hf].
  rewrite !total_fields, !Hf, Hfst.
  pose proof (credit_total k (Z.min n (remainingCapacity r))). lia.
Qed.

Lemma adds_box_ok k add n r :
  adds k add -> 0 <= n -> box_ok r -> box_ok (snd (add n r)).
Proof.
  intros H Hn (Ha & Hs & Hc & Ht).
  pose proof (adds_total k add n r H) as Htot.
  destruct (H n r) as [Hfst Hf].
  assert (Hm : 0 <= Z.min n (remainingCapacity r)) by (unfold remainingCapacity; lia).
  pose proof (Hf Adult) as HA. pose proof (Hf Senior) as HS. pose proof (Hf Child) as HC.
  rewrite Hfst in HA, HS, HC. cbn [field] in HA, HS, HC.
  pose proof (credit_bounds k Adult _ Hm). pose proof (credit_bounds k Senior _ Hm).
  pose proof (credit_bounds k Child _ Hm).
  unfold box_ok. unfold remainingCapacity in *. repeat split; lia.
Qed.

Lemma headcount_app k l1 l2 : headcount k (l1 ++ l2) = headcount k l1 + headcount k l2.
Proof. induction l1 as [| r l1 IH]; cbn; lia. Qed.

Lemma credit_0 k k' : credit k k' 0 = 0.
Proof. unfold credit. now destruct (same k k'). Qed.

Lemma credit_plus k k' x y : credit k k' (x + y) = credit k k' x + credit k k' y.
Proof. unfold credit. destruct (same k k'); lia. Qed.

Lemma swept_refl k n rooms : swept k n rooms n rooms.
Proof.
  split; [reflexivity |]. intros Hok. split; [exact Hok |]. intros Hn.
  split; [lia |]. intros k'. rewrite Z.sub_diag, credit_0. lia.
Qed.

Lemma swept_trans k n1 l1 n2 l2 n3 l3 :
  swept k n1 l1 n2 l2 -> swept k n2 l2 n3 l3 -> swept k n1 l1 n3 l3.
Proof.
  intros (L1 & C1) (L2 & C2). split; [congruence |].
  intros Hok. destruct (C1 Hok) as [Hok2 D1]. destruct (C2 Hok2) as [Hok3 D2].
  split; [exact Hok3 |]. intros Hn.
  destruct (D1 Hn) as [B1 E1]. destruct D2 as [B2 E2]; [lia |].
  split; [lia |]. intros k'. rewrite E2, E1.
  replace (n1 - n3) with ((n1 - n2) + (n2 - n3)) by lia.
  rewrite credit_plus. lia.
Qed.

Lemma swept_app k n1 a a' n2 b b' n3 :
  swept k n1 a n2 a' -> swept k n2 b n3 b' -> swept k n1 (a ++ b) n3 (a' ++ b').
Proof.
  intros (L1 & C1) (L2 & C2). split; [rewrite !length_app; congruence |].
  rewrite !Forall_app. intros [Ha Hb].
  destruct (C1 Ha) as [Ha' D1]. destruct (C2 Hb) as [Hb' D2].
  split; [now split |]. intros Hn.
  destruct (D1 Hn) as [B1 E1]. destruct D2 as [B2 E2]; [lia |].
  split; [lia |]. intros k'. rewrite !headcount_app, E2, E1.
  replace (n1 - n3) with ((n1 - n2) + (n2 - n3)) by lia.
  rewrite credit_plus. lia.
Qed.

Lemma swept_swap k n a b n' a' b' :
  swept k n (a ++ b) n' (a' ++ b') -> swept k n (b ++ a) n' (b' ++ a').
Proof.
  intros (L & C). split; [rewrite !length_app in *; lia |].
  rewrite !Forall_app in *. intros [Hb Ha].
  destruct C as [[Ha' Hb'] D]; [now split |].
  split; [now split |]. intros Hn. destruct (D Hn) as [B E]. split; [lia |].
  intros k'. specialize (E k'). rewrite !headcount_app in *. lia.
Qed.

Lemma swept_cons k n r r' rooms n' rooms' d :
  (box_ok r ->
   box_ok r' /\
   (0 <= n -> 0 <= d <= n /\
              forall k', field k' r' = field k' r + credit k k' d)) ->
  swept k (n - d) rooms n' rooms' ->
  swept k n (r :: rooms) n' (r' :: rooms').
Proof.
  intros Hr (L & C). split; [cbn; congruence |].
  intros HF. inversion HF as [| ? ? Hok Hoks]; subst.
  destruct (Hr Hok) as [Hok' Hd]. destruct (C Hoks) as [Hoks' D].
  split; [now constructor |]. intros Hn.
  destruct (Hd Hn) as [Bd Ef]. destruct D as [B E]; [lia |]. split; [lia |].
  intros k'. cbn. rewrite E, Ef.
  replace (n - n') with (d + (n - d - n')) by lia. rewrite credit_plus. lia.
Qed.

(** *** One pass over an array *)

Section Sweep.

Variable k : Category.
Variable eligible : RoomBox -> bool.
Variable add : Z -> RoomBox -> Z * RoomBox.
Hypothesis add_adds : adds k add.
Hypothesis eligible_space : forall r, eligible r = true -> 0 < remainingCapacity r.

Lemma add_one r :
  eligible r = true ->
  (box_ok r -> box_ok (snd (add 1 r))) /\
  (forall k', field k' (snd (add 1 r)) = field k' r + credit k k' 1) /\
  total (snd (add 1 r)) = total r + 1.
Proof.
  intros He. apply eligible_space in He.
  destruct (add_adds 1 r) as [Hfst Hf].
  split; [intros Hok; eapply adds_box_ok; eauto; lia |].
  split.
  - intros k'. rewrite Hf, Hfst. f_equal. f_equal. lia.
  - rewrite (adds_total k add 1 r add_adds). lia.
Qed.

Lemma sweep_swept rooms : forall n p rooms' n' p',
  sweep eligible add rooms n p = (rooms', n', p') -> swept k n rooms n' rooms'.
Proof.
  induction rooms as [| r rooms IH]; intros n p rooms' n' p' H; cbn in H.
  - injection H as <- <- <-. apply swept_refl.
  - destruct (n <=? 0) eqn:En.
    { injection H as <- <- <-. apply swept_refl. }
    apply Z.leb_gt in En.
    destruct (eligible r) eqn:Ee.
    + destruct (sweep eligible add rooms (n - 1) true) as [[rest m] q] eqn:Es.
      injection H as <- <- <-.
      destruct (add_one r Ee) as (Hok & Hf & _).
      apply swept_cons with (d := 1); [| eapply IH; eassumption].
      intros Hr. split; [auto |]. intros _. split; [lia | exact Hf].
    + destruct (sweep eligible add rooms n p) as [[rest m] q] eqn:Es.
      injection H as <- <- <-.
      apply swept_cons with (d := 0).
      * intros Hr. split; [exact Hr |]. intros Hn. split; [lia |].
        intros k'. rewrite credit_0. lia.
      * rewrite Z.sub_0_r. eapply IH; eassumption.
Qed.

(** A pass hands out exactly as many places as it takes people from
    [remaining]; it reports progress exactly when it placed somebody (or when
    progress had been recorded before); without progress nothing changed. *)
Lemma sweep_progress rooms : forall n p rooms' n' p',
  sweep eligible add rooms n p = (rooms', n', p') ->
  n' <= n /\
  occupancy rooms' = occupancy rooms + (n - n') /\
  (p' = true <-> p = true \/ n' < n) /\
  (p' = false -> rooms' = rooms /\ n' = n).
Proof.
  induction rooms as [| r rooms IH]; intros n p rooms' n' p' H; cbn in H.
  - injection H as <- <- <-. intuition lia.
  - destruct (n <=? 0) eqn:En.
    { injection H as <- <- <-. intuition lia. }
    destruct (eligible r) eqn:Ee.
    + destruct (sweep eligible add rooms (n - 1) true) as [[rest m] q] eqn:Es.
      injection H as <- <- <-.
      destruct (IH _ _ _ _ _ Es) as (Hle & Hocc & Hp & Hnp).
      destruct (add_one r Ee) as (_ & _ & Ht).
      split; [lia |]. split; [cbn; lia |]. split.
      * split; [intros _; right; lia | intros _; apply Hp; now left].
      * intros ->. destruct Hp as [_ Hp]. discriminate Hp. now left.
    + destruct (sweep eligible add rooms n p) as [[rest m] q] eqn:Es.
      injection H as <- <- <-.
      destruct (IH _ _ _ _ _ Es) as (Hle & Hocc & Hp & Hnp).
      split; [lia |]. split; [cbn; lia |]. split; [exact Hp |].
      intros Hq. destruct (Hnp Hq) as [-> ->]. now split.
Qed.

Lemma sweepOne_swept rooms n rooms' n' p :
  sweepOne eligible add n rooms = (rooms', n', p) -> swept k n rooms n' rooms'.
Proof. apply sweep_swept. Qed.

Lemma sweepOne_progress rooms n rooms' n' :
  sweepOne eligible add n rooms = (rooms', n', true) -> n' < n.
Proof.
  intros H. apply sweep_progress in H. destruct H as (_ & _ & [Hp _] & _).
  destruct Hp as [Hp | Hp]; [reflexivity | discriminate | exact Hp].
Qed.

Lemma sweepBoth_swept a b n a' b' n' p :
  sweepBoth eligible add n (a, b) = ((a', b'), n', p) ->
  swept k n (a ++ b) n' (a' ++ b').
Proof.
  unfold sweepBoth.
  destruct (sweep eligible add a n false) as [[a1 n1] p1] eqn:E1.
  destruct (sweep eligible add b n1 p1) as [[b2 n2] p2] eqn:E2.
  intros H. injection H as <- <- <- <-.
  eapply swept_app; eapply sweep_swept; eassumption.
Qed.

Lemma sweepBoth_progress g n g' n' :
  sweepBoth eligible add n g = (g', n', true) -> n' < n.
Proof.
  unfold sweepBoth. destruct g as [a b].
  destruct (sweep eligible add a n false) as [[a1 n1] p1] eqn:E1.
  destruct (sweep eligible add b n1 p1) as [[b2 n2] p2] eqn:E2.
  intros H. injection H as <- <- ->.
  apply sweep_progress in E1. apply sweep_progress in E2.
  destruct E1 as (L1 & _ & [P1 _] & _). destruct E2 as (L2 & _ & [P2 _] & _).
  destruct P2 as [P2 | P2]; [reflexivity | | lia].
  destruct (P1 P2) as [P | P]; [discriminate | lia].
Qed.

End Sweep.

(** *** The [while (remaining > 0)] loops *)

Section While.

Context {St : Type}.
Variable body : Z -> St -> St * Z * bool.

Lemma whileRemaining_invariant (P : Z -> St -> Prop) :
  (forall n st st' n' p, P n st -> body n st = (st', n', p) -> P n' st') ->
  forall fuel n st n' st',
    P n st -> whileRemaining fuel body n st = Some (n', st') -> P n' st'.
Proof.
  intros Hbody. induction fuel as [| fuel IH]; intros n st n' st' HP H; cbn in H.
  - destruct (n >? 0); [discriminate |]. now injection H as <- <-.
  - destruct (n >? 0); [| now injection H as <- <-].
    destruct (body n st) as [[st1 n1] p] eqn:Eb.
    pose proof (Hbody _ _ _ _ _ HP Eb) as HP1.
    destruct p; cbn in H.
    + eapply IH; eassumption.
    + now injection H as <- <-.
Qed.

(** A larger iteration bound does not change the result of a loop that
    ended within the smaller one. *)
Lemma whileRemaining_more_fuel fuel : forall fuel' n st out,
  (fuel <= fuel')%nat ->
  whileRemaining fuel body n st = Some out ->
  whileRemaining fuel' body n st = Some out.
Proof.
  induction fuel as [| fuel IH]; intros fuel' n st out Hle H; cbn in H.
  - destruct (n >? 0) eqn:En; [discriminate |].
    destruct fuel'; cbn; now rewrite En.
  - destruct fuel' as [| fuel']; [lia |]. cbn.
    destruct (n >? 0); [| exact H].
    destruct (body n st) as [[st1 n1] p].
    destruct p; cbn in *; [| exact H]. apply IH; [lia | exact H].
Qed.

(** The loop ends: an iteration that does not end the loop has taken at
    least one person from [remaining], so [remaining] iterations are enough. *)
Lemma whileRemaining_terminates :
  (forall n st st' n', body n st = (st', n', true) -> n' < n) ->
  forall fuel n st,
    (Z.to_nat n <= fuel)%nat -> exists out, whileRemaining fuel body n st = Some out.
Proof.
  intros Hprog. induction fuel as [| fuel IH]; intros n st Hfuel; cbn.
  - destruct (n >? 0) eqn:En; [lia | eauto].
  - destruct (n >? 0) eqn:En; [| eauto].
    destruct (body n st) as [[st1 n1] p] eqn:Eb.
    destruct p; cbn; [| eauto].
    apply Hprog in Eb. apply IH. lia.
Qed.

End While.

(** *** The five placement helpers *)

Lemma hasSpace_space r : hasSpace r = true -> 0 < remainingCapacity r.
Proof. unfold hasSpace. lia. Qed.

Lemma and_hasSpace_space (f : RoomBox -> bool) r :
  f r && hasSpace r = true -> 0 < remainingCapacity r.
Proof. intros H. apply andb_prop in H. now apply hasSpace_space. Qed.

Lemma swept_skip k count rooms : count <= 0 -> swept k count rooms 0 rooms.
Proof.
  intros Hc. split; [reflexivity |]. intros Hok. split; [exact Hok |].
  intros Hn. assert (count = 0) as -> by lia. split; [lia |].
  intros k'. rewrite credit_0. lia.
Qed.

Section Loops.

Variable k : Category.
Variable eligible : RoomBox -> bool.
Variable add : Z -> RoomBox -> Z * RoomBox.
Hypothesis add_adds : adds k add.
Hypothesis eligible_space : forall r, eligible r = true -> 0 < remainingCapacity r.

Lemma loopBoth_swept fuel n a b n' a' b' :
  whileRemaining fuel (sweepBoth eligible add) n (a, b) = Some (n', (a', b')) ->
  swept k n (a ++ b) n' (a' ++ b').
Proof.
  intros H.
  apply (whileRemaining_invariant (sweepBoth eligible add)
           (fun m st => swept k n (a ++ b) m (fst st ++ snd st)))
    with (n' := n') (st' := (a', b')) in H; [exact H | | apply swept_refl].
  intros m [x y] [x' y'] m' p HP Hb. cbn [fst snd] in *.
  eapply swept_trans; [exact HP |].
  eapply sweepBoth_swept; eassumption.
Qed.

Lemma loopOne_swept fuel n a n' a' :
  whileRemaining fuel (sweepOne eligible add) n a = Some (n', a') ->
  swept k n a n' a'.
Proof.
  intros H.
  apply (whileRemaining_invariant (sweepOne eligible add)
           (fun m st => swept k n a m st))
    with (n' := n') (st' := a') in H; [exact H | | apply swept_refl].
  intros m x x' m' p HP Hb.
  eapply swept_trans; [exact HP |].
  eapply sweepOne_swept; eassumption.
Qed.

Lemma loopBoth_terminates fuel n g :
  (Z.to_nat n <= fuel)%nat ->
  exists out, whileRemaining fuel (sweepBoth eligible add) n g = Some out.
Proof.
  apply whileRemaining_terminates. intros m st st' m'.
  eapply sweepBoth_progress; eassumption.
Qed.

Lemma loopOne_terminates fuel n g :
  (Z.to_nat n <= fuel)%nat ->
  exists out, whileRemaining fuel (sweepOne eligible add) n g = Some out.
Proof.
  apply whileRemaining_terminates. intros m st st' m'.
  eapply sweepOne_progress; eassumption.
Qed.

Lemma loopOne_le fuel n a n' a' :
  whileRemaining fuel (sweepOne eligible add) n a = Some (n', a') -> n' <= n.
Proof.
  intros H.
  apply (whileRemaining_invariant (sweepOne eligible add) (fun m _ => m <= n))
    with (n' := n') (st' := a') in H; [exact H | | lia].
  intros m x x' m' p Hm Hb. unfold sweepOne in Hb.
  apply (sweep_progress k eligible add add_adds eligible_space) in Hb. lia.
Qed.

End Loops.

Lemma placeSeniorsIntoRoomsThatAlreadyHaveSeniors_swept fuel count so mx n so' mx' :
  placeSeniorsIntoRoomsThatAlreadyHaveSeniors fuel count so mx = Some (n, so', mx') ->
  swept Senior count (so ++ mx) n (so' ++ mx').
Proof.
  unfold placeSeniorsIntoRoomsThatAlreadyHaveSeniors.
  destruct (count <=? 0) eqn:Ec.
  { intros H. injection H as <- <- <-. apply swept_skip. lia. }
  destruct (whileRemaining _ _ _ _) as [[m [a b]] |] eqn:Ew; [| discriminate].
  intros H. injection H as <- <- <-.
  eapply loopBoth_swept; [exact addSeniors_adds | | exact Ew].
  intros r. apply and_hasSpace_space.
Qed.

Lemma placeSeniorsAnywhere_swept fuel count so mx n so' mx' :
  placeSeniorsAnywhere fuel count so mx = Some (n, so', mx') ->
  swept Senior count (so ++ mx) n (so' ++ mx').
Proof.
  unfold placeSeniorsAnywhere.
  destruct (count <=? 0) eqn:Ec.
  { intros H. injection H as <- <- <-. apply swept_skip. lia. }
  destruct (whileRemaining _ _ _ _) as [[m [a b]] |] eqn:Ew; [| discriminate].
  intros H. injection H as <- <- <-.
  eapply loopBoth_swept; [exact addSeniors_adds | exact hasSpace_space | exact Ew].
Qed.

Lemma placeAdultsPreferMixedRooms_swept fuel count mx so n so' mx' :
  placeAdultsPreferMixedRooms fuel count mx so = Some (n, so', mx') ->
  swept Adult count (so ++ mx) n (so' ++ mx').
Proof.
  unfold placeAdultsPreferMixedRooms.
  destruct (count <=? 0) eqn:Ec.
  { intros H. injection H as <- <- <-. apply swept_skip. lia. }
  destruct (whileRemaining fuel _ count mx) as [[m b] |] eqn:Ew1; [| discriminate].
  destruct (whileRemaining fuel _ m so) as [[m' a] |] eqn:Ew2; [| discriminate].
  intros H. injection H as <- <- <-.
  apply swept_swap. eapply swept_app.
  - eapply loopOne_swept; [exact addAdults_adds | exact hasSpace_space | exact Ew1].
  - eapply loopOne_swept; [exact addAdults_adds | exact hasSpace_space | exact Ew2].
Qed.

Lemma placeChildrenIntoRoomsWithAdults_swept fuel count mx so n so' mx' :
  placeChildrenIntoRoomsWithAdults fuel count mx so = Some (n, so', mx') ->
  swept Child count (so ++ mx) n (so' ++ mx').
Proof.
  unfold placeChildrenIntoRoomsWithAdults.
  destruct (count <=? 0) eqn:Ec.
  { intros H. injection H as <- <- <-. apply swept_skip. lia. }
  destruct (whileRemaining _ _ _ _) as [[m [b a]] |] eqn:Ew; [| discriminate].
  intros H. injection H as <- <- <-.
  apply swept_swap.
  eapply loopBoth_swept; [exact addChildren_adds | | exact Ew].
  intros r. apply and_hasSpace_space.
Qed.

Lemma placeChildrenIntoRoomsWithSeniors_swept fuel count mx so n so' mx' :
  placeChildrenIntoRoomsWithSeniors fuel count mx so = Some (n, so', mx') ->
  swept Child count (so ++ mx) n (so' ++ mx').
Proof.
  unfold placeChildrenIntoRoomsWithSeniors.
  destruct (count <=? 0) eqn:Ec.
  { intros H. injection H as <- <- <-. apply swept_skip. lia. }
  destruct (whileRemaining _ _ _ _) as [[m [a b]] |] eqn:Ew; [| discriminate].
  intros H. injection H as <- <- <-.
  eapply loopBoth_swept; [exact addChildren_adds | | exact Ew].
  intros r. apply and_hasSpace_space.
Qed.

(** ** The senior-only quota (phase 1) *)

Lemma shrinkSeniorOnlyRooms_step roomCount a s q :
  shrinkSeniorOnlyRooms roomCount a s q =
  if q >? 0 then
    if a + (s - Z.min s (q * ROOM_CAPACITY)) >=? roomCount - q then q
    else shrinkSeniorOnlyRooms roomCount a s (q - 1)
  else q.
Proof.
  funelim (shrinkSeniorOnlyRooms roomCount a s q);
    match goal with E : (_ >? 0) = _ |- _ => rewrite E end; reflexivity.
Qed.

Lemma specShrinksTo_deterministic roomCount a s q r1 r2 :
  specShrinksTo roomCount a s q r1 -> specShrinksTo roomCount a s q r2 -> r1 = r2.
Proof.
  intros H1. revert r2. induction H1 as [q Hn | q r Hm _ IH]; intros r2 H2.
  - destruct H2 as [q _ | q r2 Hm _]; [reflexivity | contradiction].
  - destruct H2 as [q Hn | q r2 _ H2]; [contradiction | now apply IH].
Qed.

Lemma ceilDiv_specCeil a b : 0 < b -> ceilDiv a b = specCeil a b.
Proof.
  intros Hb. unfold ceilDiv, specCeil.
  pose proof (Z.div_mod a b ltac:(lia)) as Hdm.
  pose proof (Z.mod_pos_bound a b Hb) as Hr.
  destruct (a mod b =? 0) eqn:E.
  - apply Z.eqb_eq in E. symmetry.
    apply Z.div_unique with (r := b - 1); lia.
  - apply Z.eqb_neq in E. symmetry.
    apply Z.div_unique with (r := a mod b - 1); lia.
Qed.

Lemma ceilDiv_nonneg a b : 0 < b -> 0 <= a -> 0 <= ceilDiv a b.
Proof. intros Hb Ha. unfold ceilDiv. apply Z.div_pos; lia. Qed.

Lemma shrinkSeniorOnlyRooms_specShrinksTo roomCount a s q :
  specShrinksTo roomCount a s q (shrinkSeniorOnlyRooms roomCount a s q).
Proof.
  funelim (shrinkSeniorOnlyRooms roomCount a s q).
  - destruct (_ >=? _) eqn:E.
    + apply shrink_done. unfold specMustShrink. lia.
    + apply shrink_more; [unfold specMustShrink; lia | assumption].
  - apply shrink_done. unfold specMustShrink. lia.
Qed.

Lemma shrinkSeniorOnlyRooms_range roomCount a s q :
  0 <= q -> 0 <= shrinkSeniorOnlyRooms roomCount a s q <= q.
Proof.
  funelim (shrinkSeniorOnlyRooms roomCount a s q); intros Hq.
  - destruct (_ >=? _) eqn:E; [lia |].
    match goal with IH : 0 <= _ - 1 -> _ |- _ => specialize (IH ltac:(lia)) end.
    lia.
  - lia.
Qed.

Lemma pickSeniorOnlyRoomCount_range roomCount a s c :
  0 <= roomCount -> 0 <= a -> 0 <= s -> 0 <= c ->
  0 <= pickSeniorOnlyRoomCount roomCount a s c <= roomCount.
Proof.
  intros Hr Ha Hs Hc. unfold pickSeniorOnlyRoomCount.
  pose proof (ceilDiv_nonneg (a + c) ROOM_CAPACITY capacity_positive ltac:(lia)).
  pose proof (ceilDiv_nonneg s ROOM_CAPACITY capacity_positive Hs).
  match goal with |- context [shrinkSeniorOnlyRooms _ _ _ ?q] =>
    pose proof (shrinkSeniorOnlyRooms_range roomCount a s q ltac:(lia)) end.
  lia.
Qed.

(** C7, within the exact range.  For non-negative inputs with
    [roomCount > 0] that keep the arithmetic of [pickSeniorOnlyRoomCount]
    exact ([roomCount] and [adults + seniors + children + ROOM_CAPACITY] at
    most [2 ^ 53]), the value returned by [pickSeniorOnlyRoomCount] is the
    one reached from
    [min (max 0 (roomCount - ceil ((adults + children) / CAPACITY)))
         (ceil (seniors / CAPACITY))]
    by decrementing the quota as long as it is positive and
    [adults + (seniors - min seniors (quota * CAPACITY)) < roomCount - quota];
    that value lies between 0 and [roomCount]. *)
Theorem pickSeniorOnlyRoomCount_refines (roomCount a s c : Z) :
  0 < roomCount -> 0 <= a -> 0 <= s -> 0 <= c ->
  roomCount <= exactLimit -> a + s + c + ROOM_CAPACITY <= exactLimit ->
  specShrinksTo roomCount a s (specInitialQuota roomCount a s c)
            (pickSeniorOnlyRoomCount roomCount a s c) /\
  0 <= pickSeniorOnlyRoomCount roomCount a s c <= roomCount.
Proof.
  intros Hr Ha Hs Hc _ _. split.
  - unfold pickSeniorOnlyRoomCount, specInitialQuota.
    rewrite !(ceilDiv_specCeil _ _ capacity_positive).
    apply shrinkSeniorOnlyRooms_specShrinksTo.
  - apply pickSeniorOnlyRoomCount_range; lia.
Qed.

(** ** Construction and seeding (phases 2 to 4) *)

Lemma box_ok_fresh : box_ok RoomBox.fresh.
Proof. unfold box_ok, total. cbn. lia. Qed.

Lemma freshRooms_fresh n : Forall (fun r => r = RoomBox.fresh) (freshRooms n).
Proof. unfold freshRooms. apply Forall_forall. intros r. apply repeat_spec. Qed.

Lemma freshRooms_length n : length (freshRooms n) = Z.to_nat n.
Proof. apply repeat_length. Qed.

Lemma fresh_box_ok rooms :
  Forall (fun r => r = RoomBox.fresh) rooms -> Forall box_ok rooms.
Proof. apply Forall_impl. intros r ->. apply box_ok_fresh. Qed.

Lemma fresh_headcount k rooms :
  Forall (fun r => r = RoomBox.fresh) rooms -> headcount k rooms = 0.
Proof.
  induction 1 as [| r rooms -> _ IH]; cbn; [reflexivity |].
  rewrite IH. now destruct k.
Qed.

Lemma fillSeniorOnlyRooms_swept rooms : forall n rooms' n',
  fillSeniorOnlyRooms rooms n = (rooms', n') -> swept Senior n rooms n' rooms'.
Proof.
  induction rooms as [| r rooms IH]; intros n rooms' n' H;
    cbn [fillSeniorOnlyRooms] in H.
  - injection H as <- <-. apply swept_refl.
  - destruct (n <=? 0) eqn:En.
    { injection H as <- <-. apply swept_refl. }
    apply Z.leb_gt in En.
    destruct (addSeniors (Z.min ROOM_CAPACITY n) r) as [placed r'] eqn:Ea.
    destruct (fillSeniorOnlyRooms rooms (n - placed)) as [rest m] eqn:Ef.
    injection H as <- <-.
    destruct (addSeniors_adds (Z.min ROOM_CAPACITY n) r) as [Hfst Hf].
    rewrite Ea in Hfst, Hf. cbn [fst snd] in Hfst, Hf.
    apply swept_cons with (d := placed); [| eapply IH; eassumption].
    intros Hok. split.
    + replace r' with (snd (addSeniors (Z.min ROOM_CAPACITY n) r))
        by now rewrite Ea.
      apply adds_box_ok with (k := Senior); [exact addSeniors_adds | lia | exact Hok].
    + intros _. split; [| exact Hf].
      destruct Hok as (_ & _ & _ & Ht). unfold remainingCapacity in Hfst. lia.
Qed.

(** What anchoring does to the two counters and to the boxes. *)
Lemma seedMixedRooms_spec rooms : forall a s rooms' a' s',
  seedMixedRooms rooms a s = Some (rooms', a', s') ->
  length rooms' = length rooms /\
  (Forall box_ok rooms -> Forall box_ok rooms') /\
  (Forall (fun r => r = RoomBox.fresh) rooms ->
   0 <= a -> 0 <= s ->
   0 <= a' <= a /\ 0 <= s' <= s /\
   forall k', headcount k' rooms' =
              credit Adult k' (a - a') + credit Senior k' (s - s')).
Proof.
  induction rooms as [| r rooms IH]; intros a s rooms' a' s' H;
    cbn [seedMixedRooms] in H.
  - injection H as <- <- <-. split; [reflexivity |]. split; [trivial |].
    intros _ Ha Hs. repeat split; try lia.
    intros k'. rewrite !Z.sub_diag, !credit_0. reflexivity.
  - destruct (a >? 0) eqn:Ea.
    + remember (snd (addAdults 1 r)) as r' eqn:Er'.
      destruct (seedMixedRooms rooms (a - 1) s) as [[[rest x] y] |] eqn:Es;
        [| discriminate].
      injection H as <- <- <-.
      destruct (IH _ _ _ _ _ Es) as (L & O & C).
      split; [cbn; congruence |]. split.
      * intros HF. inversion HF; subst. constructor; [| auto].
        apply adds_box_ok with (k := Adult); [exact addAdults_adds | lia | assumption].
      * intros HF Ha Hs. inversion HF as [| ? ? Hr Hrest]. subst.
        destruct (C Hrest) as (Ba & Bs & E); [lia | lia |].
        split; [lia |]. split; [lia |].
        intros k'. cbn [headcount]. rewrite E.
        destruct (addAdults_adds 1 RoomBox.fresh) as [Hfst Hf].
        rewrite Hf, Hfst. unfold remainingCapacity, total. cbn [RoomBox.fresh
          RoomBox.adults RoomBox.seniors RoomBox.children].
        replace (Z.min 1 (ROOM_CAPACITY - (0 + 0 + 0))) with 1 by lia.
        replace (a - x) with (1 + (a - 1 - x)) by lia.
        rewrite credit_plus.
        assert (field k' RoomBox.fresh = 0) by now destruct k'. lia.
    + destruct (s >? 0) eqn:Es0; [| discriminate].
      remember (snd (addSeniors 1 r)) as r' eqn:Er'.
      destruct (seedMixedRooms rooms a (s - 1)) as [[[rest x] y] |] eqn:Es;
        [| discriminate].
      injection H as <- <- <-.
      destruct (IH _ _ _ _ _ Es) as (L & O & C).
      split; [cbn; congruence |]. split.
      * intros HF. inversion HF; subst. constructor; [| auto].
        apply adds_box_ok with (k := Senior); [exact addSeniors_adds | lia | assumption].
      * intros HF Ha Hs. inversion HF as [| ? ? Hr Hrest]. subst.
        destruct (C Hrest) as (Ba & Bs & E); [lia | lia |].
        split; [lia |]. split; [lia |].
        intros k'. cbn [headcount]. rewrite E.
        destruct (addSeniors_adds 1 RoomBox.fresh) as [Hfst Hf].
        rewrite Hf, Hfst. unfold remainingCapacity, total. cbn [RoomBox.fresh
          RoomBox.adults RoomBox.seniors RoomBox.children].
        replace (Z.min 1 (ROOM_CAPACITY - (0 + 0 + 0))) with 1 by lia.
        replace (s - y) with (1 + (s - 1 - y)) by lia.
        rewrite credit_plus.
        assert (field k' RoomBox.fresh = 0) by now destruct k'. lia.
Qed.

(** ** The accounts of [distribute] *)

Lemma ledger_adults A S C ra rs rc rooms ra' rooms' :
  ledger A S C ra rs rc rooms -> swept Adult ra rooms ra' rooms' ->
  ledger A S C ra' rs rc rooms'.
Proof.
  intros [Hok Hb] (_ & Hs). destruct (Hs Hok) as [Hok' Hc].
  split; [exact Hok' |]. intros HA HS HC.
  destruct (Hb HA HS HC) as ((? & ? & ?) & EA & ES & EC).
  destruct Hc as [B E]; [lia |].
  pose proof (E Adult) as E1. pose proof (E Senior) as E2. pose proof (E Child) as E3.
  cbn in E1, E2, E3. repeat split; lia.
Qed.

Lemma ledger_seniors A S C ra rs rc rooms rs' rooms' :
  ledger A S C ra rs rc rooms -> swept Senior rs rooms rs' rooms' ->
  ledger A S C ra rs' rc rooms'.
Proof.
  intros [Hok Hb] (_ & Hs). destruct (Hs Hok) as [Hok' Hc].
  split; [exact Hok' |]. intros HA HS HC.
  destruct (Hb HA HS HC) as ((? & ? & ?) & EA & ES & EC).
  destruct Hc as [B E]; [lia |].
  pose proof (E Adult) as E1. pose proof (E Senior) as E2. pose proof (E Child) as E3.
  cbn in E1, E2, E3. repeat split; lia.
Qed.

Lemma ledger_children A S C ra rs rc rooms rc' rooms' :
  ledger A S C ra rs rc rooms -> swept Child rc rooms rc' rooms' ->
  ledger A S C ra rs rc' rooms'.
Proof.
  intros [Hok Hb] (_ & Hs). destruct (Hs Hok) as [Hok' Hc].
  split; [exact Hok' |]. intros HA HS HC.
  destruct (Hb HA HS HC) as ((? & ? & ?) & EA & ES & EC).
  destruct Hc as [B E]; [lia |].
  pose proof (E Adult) as E1. pose proof (E Senior) as E2. pose proof (E Child) as E3.
  cbn in E1, E2, E3. repeat split; lia.
Qed.

Lemma ledger_start A S C n : ledger A S C A S C (freshRooms n).
Proof.
  pose proof (freshRooms_fresh n) as HF.
  split; [now apply fresh_box_ok |]. intros HA HS HC.
  rewrite !(fresh_headcount _ _ HF). repeat split; lia.
Qed.

Lemma ledger_seed A S C ra rs rc so mx mx' ra' rs' :
  ledger A S C ra rs rc so ->
  Forall (fun r => r = RoomBox.fresh) mx ->
  seedMixedRooms mx ra rs = Some (mx', ra', rs') ->
  ledger A S C ra' rs' rc (so ++ mx').
Proof.
  intros [Hok Hb] HF Hseed.
  destruct (seedMixedRooms_spec _ _ _ _ _ _ Hseed) as (_ & O & Hc).
  split; [apply Forall_app; split; [exact Hok | now apply O, fresh_box_ok] |].
  intros HA HS HC.
  destruct (Hb HA HS HC) as ((? & ? & ?) & EA & ES & EC).
  destruct (Hc HF) as (Ba & Bs & E); [lia | lia |].
  pose proof (E Adult) as E1. pose proof (E Senior) as E2. pose proof (E Child) as E3.
  cbn in E1, E2, E3. rewrite !headcount_app. repeat split; lia.
Qed.

(** The shape of every successful run of [distribute]: the rooms returned
    are the sorted snapshot of the boxes [mixedRooms ++ seniorOnlyRooms], which
    passed the two final checks, and the accounts are closed. *)
Lemma distribute_inv fuel roomCount a s c rooms :
  distribute fuel roomCount a s c = Some rooms -> rooms <> [] ->
  exists so mx ra rs rc,
    isFeasible roomCount a s c = true /\
    rooms = sortRooms compareRooms (map toRoom (mx ++ so)) /\
    length (so ++ mx) =
      (Z.to_nat (pickSeniorOnlyRoomCount roomCount a s c) +
       Z.to_nat (roomCount - pickSeniorOnlyRoomCount roomCount a s c))%nat /\
    ledger a s c ra rs rc (so ++ mx) /\
    (ra <= 0 /\ rs <= 0 /\ rc <= 0) /\
    existsb (fun r => total r <=? 0) (mx ++ so) = false /\
    existsb (fun r => (RoomBox.children r >? 0)
                      && (RoomBox.adults r + RoomBox.seniors r =? 0))
            (mx ++ so) = false.
Proof.
  unfold distribute. intros H Hne.
  destruct (isFeasible roomCount a s c) eqn:F; cbn [negb] in H;
    [| injection H as <-; contradiction].
  set (q := pickSeniorOnlyRoomCount roomCount a s c) in *.
  destruct (fillSeniorOnlyRooms (freshRooms q) s) as [so1 rs1] eqn:Efill.
  destruct (seedMixedRooms (freshRooms (roomCount - q)) a rs1)
    as [[[mx1 ra1] rs2] |] eqn:Eseed; [| injection H as <-; contradiction].
  destruct (placeSeniorsIntoRoomsThatAlreadyHaveSeniors fuel rs2 so1 mx1)
    as [[[rs3 so2] mx2] |] eqn:E1; [| discriminate].
  destruct (placeSeniorsAnywhere fuel rs3 so2 mx2)
    as [[[rs4 so3] mx3] |] eqn:E2; [| discriminate].
  destruct (placeAdultsPreferMixedRooms fuel ra1 mx3 so3)
    as [[[ra2 so4] mx4] |] eqn:E3; [| discriminate].
  destruct (placeChildrenIntoRoomsWithAdults fuel c mx4 so4)
    as [[[rc1 so5] mx5] |] eqn:E4; [| discriminate].
  assert (Hchildren : exists rc2 so6 mx6,
             (if rc1 >? 0
              then placeChildrenIntoRoomsWithSeniors fuel rc1 mx5 so5
              else Some (rc1, so5, mx5)) = Some (rc2, so6, mx6) /\
             swept Child rc1 (so5 ++ mx5) rc2 (so6 ++ mx6)).
  { destruct (rc1 >? 0).
    - destruct (placeChildrenIntoRoomsWithSeniors fuel rc1 mx5 so5)
        as [[[rc2 so6] mx6] |] eqn:E5; [| discriminate].
      exists rc2, so6, mx6. split; [reflexivity |].
      now apply placeChildrenIntoRoomsWithSeniors_swept in E5.
    - exists rc1, so5, mx5. split; [reflexivity | apply swept_refl]. }
  destruct Hchildren as (rc2 & so6 & mx6 & E5 & S5). rewrite E5 in H.
  destruct ((ra2 >? 0) || (rs4 >? 0) || (rc2 >? 0)) eqn:Eleft;
    [injection H as <-; contradiction |].
  destruct (existsb (fun r => total r <=? 0) (mx6 ++ so6)) eqn:Eempty;
    [injection H as <-; contradiction |].
  destruct (existsb _ (mx6 ++ so6)) eqn:Ealone in H;
    [injection H as <-; contradiction |].
  injection H as <-.
  apply fillSeniorOnlyRooms_swept in Efill.
  apply placeSeniorsIntoRoomsThatAlreadyHaveSeniors_swept in E1.
  apply placeSeniorsAnywhere_swept in E2.
  apply placeAdultsPreferMixedRooms_swept in E3.
  apply placeChildrenIntoRoomsWithAdults_swept in E4.
  exists so6, mx6, ra2, rs4, rc2.
  split; [reflexivity |]. split; [reflexivity |]. split; [| split; [| split]].
  - destruct S5 as [-> _]. destruct E4 as [-> _]. destruct E3 as [-> _].
    destruct E2 as [-> _]. destruct E1 as [-> _].
    destruct (seedMixedRooms_spec _ _ _ _ _ _ Eseed) as (Lm & _).
    destruct Efill as [Lf _].
    rewrite length_app, Lm, Lf, !freshRooms_length. reflexivity.
  - eapply ledger_children; [| exact S5].
    eapply ledger_children; [| exact E4].
    eapply ledger_adults; [| exact E3].
    eapply ledger_seniors; [| exact E2].
    eapply ledger_seniors; [| exact E1].
    eapply ledger_seed; [| apply freshRooms_fresh | exact Eseed].
    eapply ledger_seniors; [apply ledger_start | exact Efill].
  - apply orb_false_elim in Eleft. destruct Eleft as [Eleft ?].
    apply orb_false_elim in Eleft. destruct Eleft as [? ?]. lia.
  - split; assumption.
Qed.

(** ** Properties of the rooms returned *)

Lemma sumOver_perm f l l' : Permutation l l' -> sumOver f l = sumOver f l'.
Proof. unfold sumOver. induction 1; cbn in *; lia. Qed.

Lemma sumOver_toRoom boxes :
  sumOver Room.adults (map toRoom boxes) = headcount Adult boxes /\
  sumOver Room.seniors (map toRoom boxes) = headcount Senior boxes /\
  sumOver Room.children (map toRoom boxes) = headcount Child boxes.
Proof.
  unfold sumOver.
  induction boxes as [| b boxes (IA & IS & IC)]; cbn; [auto |].
  rewrite IA, IS, IC. auto.
Qed.

Lemma existsb_false {A : Type} (f : A -> bool) l x :
  existsb f l = false -> In x l -> f x = false.
Proof.
  intros H Hin. destruct (f x) eqn:E; [| reflexivity].
  rewrite <- H. symmetry. apply existsb_exists. now exists x.
Qed.

(** A room returned by a successful run is the snapshot of a box that is
    within capacity and passed the two final checks. *)
Lemma distribute_room fuel roomCount a s c rooms r :
  distribute fuel roomCount a s c = Some rooms -> In r rooms ->
  exists b, r = toRoom b /\ box_ok b /\ 0 < total b /\
            ~ (0 < RoomBox.children b /\ RoomBox.adults b + RoomBox.seniors b = 0).
Proof.
  intros H Hin.
  destruct (distribute_inv _ _ _ _ _ _ H) as
    (so & mx & ra & rs & rc & _ & -> & _ & [Hok _] & _ & Hempty & Halone).
  { intros ->. contradiction. }
  apply (Permutation_in _ (Permutation_sym (sortRooms_perm _))) in Hin.
  apply in_map_iff in Hin. destruct Hin as (b & <- & Hb).
  exists b. split; [reflexivity |].
  assert (Hb' : In b (so ++ mx)) by (rewrite in_app_iff in *; tauto).
  rewrite Forall_forall in Hok. split; [now apply Hok |].
  apply existsb_false with (x := b) in Hempty; [| exact Hb].
  apply existsb_false with (x := b) in Halone; [| exact Hb].
  apply andb_false_iff in Halone. lia.
Qed.

(** C1. On non-negative inputs, when [distribute] returns a non-empty array,
    the [adults] fields of the rooms add up to the input number of adults,
    the [seniors] fields to the input number of seniors, and the [children]
    fields to the input number of children. *)
Theorem distribute_conserves_people (fuel : nat) (roomCount a s c : Z)
    (rooms : list Room) :
  0 <= roomCount -> 0 <= a -> 0 <= s -> 0 <= c ->
  distribute fuel roomCount a s c = Some rooms -> rooms <> [] ->
  sumOver Room.adults rooms = a /\
  sumOver Room.seniors rooms = s /\
  sumOver Room.children rooms = c.
Proof.
  intros _ Ha Hs Hc H Hne.
  destruct (distribute_inv _ _ _ _ _ _ H Hne) as
    (so & mx & ra & rs & rc & _ & -> & _ & [_ Hb] & Hleft & _).
  destruct (Hb Ha Hs Hc) as ((? & ? & ?) & EA & ES & EC).
  rewrite <- !(sumOver_perm _ _ _ (sortRooms_perm _)).
  destruct (sumOver_toRoom (mx ++ so)) as (-> & -> & ->).
  rewrite !headcount_app in *. lia.
Qed.

(** C2. In the array returned by [distribute], a room with children has at
    least one adult or senior. *)
Theorem distribute_children_chaperoned (fuel : nat) (roomCount a s c : Z)
    (rooms : list Room) (r : Room) :
  distribute fuel roomCount a s c = Some rooms -> In r rooms ->
  Room.children r > 0 -> Room.adults r + Room.seniors r >= 1.
Proof.
  intros H Hin Hc.
  destruct (distribute_room _ _ _ _ _ _ _ H Hin) as
    (b & -> & (Ha & Hs & _) & _ & Halone).
  cbn in *. lia.
Qed.

(** C3. Every room of the array returned by [distribute] holds at least one
    person and at most [ROOM_CAPACITY], and its three fields are
    non-negative. *)
Theorem distribute_rooms_within_capacity (fuel : nat) (roomCount a s c : Z)
    (rooms : list Room) (r : Room) :
  distribute fuel roomCount a s c = Some rooms -> In r rooms ->
  1 <= Room.adults r + Room.seniors r + Room.children r <= ROOM_CAPACITY /\
  0 <= Room.adults r /\ 0 <= Room.seniors r /\ 0 <= Room.children r.
Proof.
  intros H Hin.
  destruct (distribute_room _ _ _ _ _ _ _ H Hin) as
    (b & -> & (Ha & Hs & Hc & Ht) & Hpos & _).
  unfold total in *. cbn. lia.
Qed.

(** C10. On non-negative inputs, a non-empty array returned by [distribute]
    has exactly [roomCount] rooms. *)
Theorem distribute_returns_roomCount_rooms (fuel : nat) (roomCount a s c : Z)
    (rooms : list Room) :
  0 <= roomCount -> 0 <= a -> 0 <= s -> 0 <= c ->
  distribute fuel roomCount a s c = Some rooms -> rooms <> [] ->
  Z.of_nat (length rooms) = roomCount.
Proof.
  intros Hr Ha Hs Hc H Hne.
  destruct (distribute_inv _ _ _ _ _ _ H Hne) as
    (so & mx & ra & rs & rc & _ & -> & Hlen & _).
  rewrite <- (Permutation_length (sortRooms_perm _)), length_map.
  rewrite length_app, Nat.add_comm, <- length_app, Hlen.
  pose proof (pickSeniorOnlyRoomCount_range roomCount a s c Hr Ha Hs Hc). lia.
Qed.

(** ** Termination of the placement loops *)

Section PlacementFuel.

Variables (fuel : nat) (count : Z) (so mx : list RoomBox).
Hypothesis enough : (Z.to_nat count <= fuel)%nat.

Lemma placeSeniorsIntoRoomsThatAlreadyHaveSeniors_terminates :
  exists out, placeSeniorsIntoRoomsThatAlreadyHaveSeniors fuel count so mx = Some out.
Proof.
  unfold placeSeniorsIntoRoomsThatAlreadyHaveSeniors.
  destruct (count <=? 0); [eauto |].
  destruct (loopBoth_terminates Senior
              (fun room => hasSeniors room && hasSpace room) addSeniors
              addSeniors_adds (and_hasSpace_space hasSeniors)
              fuel count (so, mx) enough) as [[m [a b]] ->]. eauto.
Qed.

Lemma placeSeniorsAnywhere_terminates :
  exists out, placeSeniorsAnywhere fuel count so mx = Some out.
Proof.
  unfold placeSeniorsAnywhere.
  destruct (count <=? 0); [eauto |].
  destruct (loopBoth_terminates Senior hasSpace addSeniors
              addSeniors_adds hasSpace_space fuel count (so, mx) enough)
    as [[m [a b]] ->]. eauto.
Qed.

Lemma placeAdultsPreferMixedRooms_terminates :
  exists out, placeAdultsPreferMixedRooms fuel count mx so = Some out.
Proof.
  unfold placeAdultsPreferMixedRooms.
  destruct (count <=? 0); [eauto |].
  destruct (loopOne_terminates Adult hasSpace addAdults
              addAdults_adds hasSpace_space fuel count mx enough) as [[m b] E].
  rewrite E.
  apply (loopOne_le Adult hasSpace addAdults addAdults_adds hasSpace_space) in E.
  destruct (loopOne_terminates Adult hasSpace addAdults
              addAdults_adds hasSpace_space fuel m so ltac:(lia))
    as [[m' a] ->]. eauto.
Qed.

Lemma placeChildrenIntoRoomsWithAdults_terminates :
  exists out, placeChildrenIntoRoomsWithAdults fuel count mx so = Some out.
Proof.
  unfold placeChildrenIntoRoomsWithAdults.
  destruct (count <=? 0); [eauto |].
  destruct (loopBoth_terminates Child
              (fun room => hasAdults room && hasSpace room) addChildren
              addChildren_adds (and_hasSpace_space hasAdults)
              fuel count (mx, so) enough) as [[m [b a]] ->]. eauto.
Qed.

Lemma placeChildrenIntoRoomsWithSeniors_terminates :
  exists out, placeChildrenIntoRoomsWithSeniors fuel count mx so = Some out.
Proof.
  unfold placeChildrenIntoRoomsWithSeniors.
  destruct (count <=? 0); [eauto |].
  destruct (loopBoth_terminates Child
              (fun room => hasSeniors room && hasSpace room) addChildren
              addChildren_adds (and_hasSpace_space hasSeniors)
              fuel count (so, mx) enough) as [[m [a b]] ->]. eauto.
Qed.

End PlacementFuel.

Section MoreFuel.

Variables (fuel fuel' : nat).
Hypothesis more : (fuel <= fuel')%nat.

Ltac raise_fuel H :=
  repeat match type of H with
         | context [whileRemaining fuel ?body ?n ?g] =>
             let E := fresh "E" in
             destruct (whileRemaining fuel body n g) as [[? ?] |] eqn:E;
             [ rewrite (whileRemaining_more_fuel body fuel fuel' n g _ more E)
             | discriminate H ]
         end.

Lemma placeSeniorsIntoRoomsThatAlreadyHaveSeniors_more_fuel count so mx out :
  placeSeniorsIntoRoomsThatAlreadyHaveSeniors fuel count so mx = Some out ->
  placeSeniorsIntoRoomsThatAlreadyHaveSeniors fuel' count so mx = Some out.
Proof.
  unfold placeSeniorsIntoRoomsThatAlreadyHaveSeniors. intros H.
  destruct (count <=? 0); [exact H |]. raise_fuel H. exact H.
Qed.

Lemma placeSeniorsAnywhere_more_fuel count so mx out :
  placeSeniorsAnywhere fuel count so mx = Some out ->
  placeSeniorsAnywhere fuel' count so mx = Some out.
Proof.
  unfold placeSeniorsAnywhere. intros H.
  destruct (count <=? 0); [exact H |]. raise_fuel H. exact H.
Qed.

Lemma placeAdultsPreferMixedRooms_more_fuel count mx so out :
  placeAdultsPreferMixedRooms fuel count mx so = Some out ->
  placeAdultsPreferMixedRooms fuel' count mx so = Some out.
Proof.
  unfold placeAdultsPreferMixedRooms. intros H.
  destruct (count <=? 0); [exact H |]. raise_fuel H. exact H.
Qed.

Lemma placeChildrenIntoRoomsWithAdults_more_fuel count mx so out :
  placeChildrenIntoRoomsWithAdults fuel count mx so = Some out ->
  placeChildrenIntoRoomsWithAdults fuel' count mx so = Some out.
Proof.
  unfold placeChildrenIntoRoomsWithAdults. intros H.
  destruct (count <=? 0); [exact H |]. raise_fuel H. exact H.
Qed.

Lemma placeChildrenIntoRoomsWithSeniors_more_fuel count mx so out :
  placeChildrenIntoRoomsWithSeniors fuel count mx so = Some out ->
  placeChildrenIntoRoomsWithSeniors fuel' count mx so = Some out.
Proof.
  unfold placeChildrenIntoRoomsWithSeniors. intros H.
  destruct (count <=? 0); [exact H |]. raise_fuel H. exact H.
Qed.

(** The result of [distribute] does not depend on the iteration bound, once
    the bound is large enough for the run to end. *)
Lemma distribute_more_fuel roomCount a s c rooms :
  distribute fuel roomCount a s c = Some rooms ->
  distribute fuel' roomCount a s c = Some rooms.
Proof.
  unfold distribute. intros H.
  destruct (negb (isFeasible roomCount a s c)); [exact H |].
  destruct (fillSeniorOnlyRooms _ _) as [so1 rs1].
  destruct (seedMixedRooms _ _ _) as [[[mx1 ra1] rs2] |]; [| exact H].
  destruct (placeSeniorsIntoRoomsThatAlreadyHaveSeniors fuel rs2 so1 mx1)
    as [[[rs3 so2] mx2] |] eqn:E1; [| discriminate].
  rewrite (placeSeniorsIntoRoomsThatAlreadyHaveSeniors_more_fuel _ _ _ _ E1).
  destruct (placeSeniorsAnywhere fuel rs3 so2 mx2)
    as [[[rs4 so3] mx3] |] eqn:E2; [| discriminate].
  rewrite (placeSeniorsAnywhere_more_fuel _ _ _ _ E2).
  destruct (placeAdultsPreferMixedRooms fuel ra1 mx3 so3)
    as [[[ra2 so4] mx4] |] eqn:E3; [| discriminate].
  rewrite (placeAdultsPreferMixedRooms_more_fuel _ _ _ _ E3).
  destruct (placeChildrenIntoRoomsWithAdults fuel c mx4 so4)
    as [[[rc1 so5] mx5] |] eqn:E4; [| discriminate].
  rewrite (placeChildrenIntoRoomsWithAdults_more_fuel _ _ _ _ E4).
  destruct (rc1 >? 0); [| exact H].
  destruct (placeChildrenIntoRoomsWithSeniors fuel rc1 mx5 so5)
    as [[[rc2 so6] mx6] |] eqn:E5; [| discriminate].
  rewrite (placeChildrenIntoRoomsWithSeniors_more_fuel _ _ _ _ E5). exact H.
Qed.

End MoreFuel.

Lemma ledger_bounds A S C ra rs rc rooms :
  ledger A S C ra rs rc rooms -> 0 <= A -> 0 <= S -> 0 <= C ->
  0 <= ra <= A /\ 0 <= rs <= S /\ 0 <= rc <= C.
Proof.
  intros [Hok Hb] HA HS HC.
  destruct (Hb HA HS HC) as ((? & ? & ?) & EA & ES & EC).
  assert (Hpos : forall k, 0 <= headcount k rooms).
  { intros k. clear - Hok. induction Hok as [| r rooms (? & ? & ? & _) _ IH]; cbn;
      [lia | destruct k; cbn; lia]. }
  pose proof (Hpos Adult). pose proof (Hpos Senior). pose proof (Hpos Child). lia.
Qed.

(** With an iteration bound of [roomCount * ROOM_CAPACITY], no placement
    loop of [distribute] is cut short. *)
Lemma distribute_runs fuel roomCount a s c :
  0 <= a -> 0 <= s -> 0 <= c ->
  (Z.to_nat (roomCount * ROOM_CAPACITY) <= fuel)%nat ->
  exists rooms, distribute fuel roomCount a s c = Some rooms.
Proof.
  intros Ha Hs Hc Hfuel. unfold distribute.
  destruct (isFeasible roomCount a s c) eqn:F; cbn [negb]; [| eauto].
  apply isFeasible_true_iff in F. destruct F as (Hr & Hlo & Hhi & _).
  set (q := pickSeniorOnlyRoomCount roomCount a s c).
  destruct (fillSeniorOnlyRooms (freshRooms q) s) as [so1 rs1] eqn:Efill.
  destruct (seedMixedRooms (freshRooms (roomCount - q)) a rs1)
    as [[[mx1 ra1] rs2] |] eqn:Eseed; [| eauto].
  apply fillSeniorOnlyRooms_swept in Efill.
  assert (L0 : ledger a s c ra1 rs2 c (so1 ++ mx1)).
  { eapply ledger_seed; [| apply freshRooms_fresh | exact Eseed].
    eapply ledger_seniors; [apply ledger_start | exact Efill]. }
  pose proof (ledger_bounds _ _ _ _ _ _ _ L0 Ha Hs Hc) as B0.
  destruct (placeSeniorsIntoRoomsThatAlreadyHaveSeniors_terminates
              fuel rs2 so1 mx1 ltac:(lia)) as [[[rs3 so2] mx2] E1].
  rewrite E1. apply placeSeniorsIntoRoomsThatAlreadyHaveSeniors_swept in E1.
  pose proof (ledger_seniors _ _ _ _ _ _ _ _ _ L0 E1) as L1.
  pose proof (ledger_bounds _ _ _ _ _ _ _ L1 Ha Hs Hc) as B1.
  destruct (placeSeniorsAnywhere_terminates fuel rs3 so2 mx2 ltac:(lia))
    as [[[rs4 so3] mx3] E2].
  rewrite E2. apply placeSeniorsAnywhere_swept in E2.
  pose proof (ledger_seniors _ _ _ _ _ _ _ _ _ L1 E2) as L2.
  destruct (placeAdultsPreferMixedRooms_terminates fuel ra1 so3 mx3 ltac:(lia))
    as [[[ra2 so4] mx4] E3].
  rewrite E3. apply placeAdultsPreferMixedRooms_swept in E3.
  pose proof (ledger_adults _ _ _ _ _ _ _ _ _ L2 E3) as L3.
  destruct (placeChildrenIntoRoomsWithAdults_terminates fuel c so4 mx4 ltac:(lia))
    as [[[rc1 so5] mx5] E4].
  rewrite E4. apply placeChildrenIntoRoomsWithAdults_swept in E4.
  pose proof (ledger_children _ _ _ _ _ _ _ _ _ L3 E4) as L4.
  pose proof (ledger_bounds _ _ _ _ _ _ _ L4 Ha Hs Hc) as B4.
  assert (E5 : exists out,
             (if rc1 >? 0
              then placeChildrenIntoRoomsWithSeniors fuel rc1 mx5 so5
              else Some (rc1, so5, mx5)) = Some out).
  { destruct (rc1 >? 0); [| eauto].
    apply placeChildrenIntoRoomsWithSeniors_terminates. lia. }
  destruct E5 as [[[rc2 so6] mx6] ->].
  repeat match goal with |- context [if ?b then _ else _] => destruct b end; eauto.
Qed.

(** C9, within the exact range.  On non-negative inputs with at most
    [2 ^ 32 - 1] rooms and [adults + seniors + children + ROOM_CAPACITY] at
    most [2 ^ 53], where every array can be created and every counter moves
    by exactly one, [distribute] terminates: every "sweep until no progress"
    loop of the senior, adult and child placement phases ends within
    [roomCount * ROOM_CAPACITY] iterations, and the array returned is the
    same for every larger bound.  The reason is the second part: a full
    sweep, started with [placedSomething = false], either reports progress,
    and then the occupancy of the boxes it walked over has strictly grown, or
    reports none, and then it changed nothing and the loop exits. *)
Theorem distribute_terminates (roomCount a s c : Z) :
  0 <= roomCount -> 0 <= a -> 0 <= s -> 0 <= c ->
  roomCount <= maxArrayLength -> a + s + c + ROOM_CAPACITY <= exactLimit ->
  (exists rooms,
     forall fuel, (Z.to_nat (roomCount * ROOM_CAPACITY) <= fuel)%nat ->
                  distribute fuel roomCount a s c = Some rooms) /\
  (forall k eligible add,
     adds k add ->
     (forall r, eligible r = true -> hasSpace r = true) ->
     forall rooms n rooms' n' placedSomething,
       sweep eligible add rooms n false = (rooms', n', placedSomething) ->
       (placedSomething = true /\ occupancy rooms < occupancy rooms') \/
       (placedSomething = false /\ rooms' = rooms /\ n' = n)).
Proof.
  intros _ Ha Hs Hc _ _. split.
  - destruct (distribute_runs (Z.to_nat (roomCount * ROOM_CAPACITY))
                roomCount a s c Ha Hs Hc (Nat.le_refl _)) as [rooms H].
    exists rooms. intros fuel Hfuel.
    exact (distribute_more_fuel _ fuel Hfuel _ _ _ _ _ H).
  - intros k eligible add Hadd Hel rooms n rooms' n' p H.
    apply (sweep_progress k eligible add Hadd) in H;
      [| intros r Hr; now apply hasSpace_space, Hel].
    destruct H as (Hle & Hocc & [Hp _] & Hnp).
    destruct p; [left | right; auto].
    split; [reflexivity |].
    destruct (Hp eq_refl) as [? | ?]; [discriminate | lia].
Qed.

(** ** When the anchor loop runs out of adults and seniors (phase 4) *)

Lemma fillSeniorOnlyRooms_fresh n : forall s,
  0 <= s ->
  snd (fillSeniorOnlyRooms (repeat RoomBox.fresh n) s) =
  s - Z.min s (Z.of_nat n * ROOM_CAPACITY).
Proof.
  induction n as [| n IH]; intros s Hs.
  - cbn. lia.
  - cbn [repeat fillSeniorOnlyRooms].
    assert (Hn : 0 <= Z.of_nat n * ROOM_CAPACITY) by (apply Z.mul_nonneg_nonneg; lia).
    replace (Z.of_nat (S n) * ROOM_CAPACITY)
      with (Z.of_nat n * ROOM_CAPACITY + ROOM_CAPACITY) by lia.
    destruct (s <=? 0) eqn:Es; [cbn; lia |].
    apply Z.leb_gt in Es.
    destruct (addSeniors (Z.min ROOM_CAPACITY s) RoomBox.fresh) as [placed r'] eqn:Ea.
    assert (Hp : placed = Z.min ROOM_CAPACITY s).
    { unfold addSeniors in Ea. injection Ea as <- _.
      unfold remainingCapacity, total. cbn. lia. }
    specialize (IH (s - placed) ltac:(lia)).
    destruct (fillSeniorOnlyRooms (repeat RoomBox.fresh n) (s - placed)) as [rest m].
    cbn [snd] in *. lia.
Qed.

Lemma seedMixedRooms_fresh_None n : forall a s,
  0 <= a -> 0 <= s ->
  (seedMixedRooms (repeat RoomBox.fresh n) a s = None <-> a + s < Z.of_nat n).
Proof.
  induction n as [| n IH]; intros a s Ha Hs.
  - cbn. split; [discriminate | lia].
  - cbn [repeat seedMixedRooms].
    destruct (a >? 0) eqn:Ea.
    + specialize (IH (a - 1) s ltac:(lia) Hs).
      destruct (seedMixedRooms (repeat RoomBox.fresh n) (a - 1) s) as [[[rest x] y] |].
      * split; [discriminate |]. intros H.
        assert (N : a - 1 + s < Z.of_nat n) by lia. apply IH in N. discriminate.
      * split; [| reflexivity]. intros _.
        assert (N : a - 1 + s < Z.of_nat n) by now apply IH. lia.
    + destruct (s >? 0) eqn:Es; [| split; [lia | reflexivity]].
      specialize (IH a (s - 1) Ha ltac:(lia)).
      destruct (seedMixedRooms (repeat RoomBox.fresh n) a (s - 1)) as [[[rest x] y] |].
      * split; [discriminate |]. intros H.
        assert (N : a + (s - 1) < Z.of_nat n) by lia. apply IH in N. discriminate.
      * split; [| reflexivity]. intros _.
        assert (N : a + (s - 1) < Z.of_nat n) by now apply IH. lia.
Qed.

(** A positive quota left by the loop of [pickSeniorOnlyRoomCount] passed
    the anchoring test. *)
Lemma shrinkSeniorOnlyRooms_anchors roomCount a s q :
  0 < shrinkSeniorOnlyRooms roomCount a s q ->
  roomCount - shrinkSeniorOnlyRooms roomCount a s q <=
  a + (s - Z.min s (shrinkSeniorOnlyRooms roomCount a s q * ROOM_CAPACITY)).
Proof.
  funelim (shrinkSeniorOnlyRooms roomCount a s q).
  - destruct (_ >=? _) eqn:E; [lia | assumption].
  - lia.
Qed.

(** The anchor loop of a run that passed [isFeasible] reaches a room with
    neither an adult nor a senior left exactly when there are fewer adults
    and seniors than rooms. *)
Lemma anchor_dead_end_iff roomCount a s c :
  0 <= a -> 0 <= s -> 0 <= c ->
  isFeasible roomCount a s c = true ->
  let q := pickSeniorOnlyRoomCount roomCount a s c in
  seedMixedRooms (freshRooms (roomCount - q)) a
                 (snd (fillSeniorOnlyRooms (freshRooms q) s)) = None
  <-> a + s < roomCount.
Proof.
  intros Ha Hs Hc F q. apply isFeasible_true_iff in F.
  destruct F as (Hr & _).
  pose proof (pickSeniorOnlyRoomCount_range roomCount a s c ltac:(lia) Ha Hs Hc) as Hq.
  fold q in Hq. unfold freshRooms.
  rewrite fillSeniorOnlyRooms_fresh by exact Hs.
  rewrite Z2Nat.id by lia.
  rewrite seedMixedRooms_fresh_None by lia.
  rewrite Z2Nat.id by lia.
  destruct (Z.eq_dec q 0) as [-> | Hq0]; [lia |].
  assert (Hpos : 0 < q) by lia.
  pose proof (shrinkSeniorOnlyRooms_anchors roomCount a s _ Hpos) as Hanchor.
  fold (pickSeniorOnlyRoomCount roomCount a s c) in Hanchor. fold q in Hanchor.
  assert (Hmin : q <= Z.min s (q * ROOM_CAPACITY)).
  { assert (Hceil : q <= ceilDiv s ROOM_CAPACITY).
    { unfold q, pickSeniorOnlyRoomCount.
      match goal with |- shrinkSeniorOnlyRooms _ _ _ ?i <= _ =>
        pose proof (shrinkSeniorOnlyRooms_range roomCount a s i) as R;
        assert (0 <= i) by
          (pose proof (ceilDiv_nonneg s ROOM_CAPACITY capacity_positive Hs); lia)
      end. lia. }
    unfold ceilDiv in Hceil.
    pose proof (Z.mul_div_le (s + ROOM_CAPACITY - 1) ROOM_CAPACITY capacity_positive).
    apply Z.min_glb; nia. }
  lia.
Qed.

(** ** What a pass does to each box *)

Section Passes.

Variable eligible : RoomBox -> bool.
Variable add : Z -> RoomBox -> Z * RoomBox.

Lemma sweep_served rooms : forall n p rooms' n' p',
  sweep eligible add rooms n p = (rooms', n', p') ->
  Forall2 (servedOnce eligible add) rooms rooms'.
Proof.
  induction rooms as [| r rooms IH]; intros n p rooms' n' p' H; cbn [sweep] in H.
  - injection H as <- <- <-. constructor.
  - assert (Hrefl : forall l, Forall2 (servedOnce eligible add) l l).
    { induction l; constructor; [now left | assumption]. }
    destruct (n <=? 0); [injection H as <- <- <-; apply Hrefl |].
    destruct (eligible r) eqn:Ee.
    + destruct (sweep eligible add rooms (n - 1) true) as [[rest m] q] eqn:Es.
      injection H as <- <- <-. constructor; [right; now split | eauto].
    + destruct (sweep eligible add rooms n p) as [[rest m] q] eqn:Es.
      injection H as <- <- <-. constructor; [now left | eauto].
Qed.

Lemma sweep_sticky rooms : forall n rooms' n' p',
  sweep eligible add rooms n true = (rooms', n', p') -> p' = true.
Proof.
  induction rooms as [| r rooms IH]; intros n rooms' n' p' H; cbn [sweep] in H.
  - now injection H as <- <- <-.
  - destruct (n <=? 0); [now injection H as <- <- <- |].
    destruct (eligible r).
    + destruct (sweep eligible add rooms (n - 1) true) as [[rest m] q] eqn:Es.
      injection H as <- <- <-. eauto.
    + destruct (sweep eligible add rooms n true) as [[rest m] q] eqn:Es.
      injection H as <- <- <-. eauto.
Qed.

Lemma sweep_nonneg rooms : forall n p rooms' n' p',
  sweep eligible add rooms n p = (rooms', n', p') -> 0 <= n -> 0 <= n'.
Proof.
  induction rooms as [| r rooms IH]; intros n p rooms' n' p' H Hn; cbn [sweep] in H.
  - now injection H as <- <- <-.
  - destruct (n <=? 0) eqn:En; [now injection H as <- <- <- |].
    apply Z.leb_gt in En.
    destruct (eligible r).
    + destruct (sweep eligible add rooms (n - 1) true) as [[rest m] q] eqn:Es.
      injection H as <- <- <-. eapply IH; [eassumption | lia].
    + destruct (sweep eligible add rooms n p) as [[rest m] q] eqn:Es.
      injection H as <- <- <-. eapply IH; eassumption.
Qed.

(** A pass that reports no progress changed nothing and, if somebody was
    still to be placed, found no box that passes the test. *)
Lemma sweep_idle rooms : forall n p rooms' n',
  sweep eligible add rooms n p = (rooms', n', false) ->
  rooms' = rooms /\ n' = n /\
  (0 < n -> Forall (fun r => eligible r = false) rooms).
Proof.
  induction rooms as [| r rooms IH]; intros n p rooms' n' H; cbn [sweep] in H.
  - injection H as <- <- _. auto.
  - destruct (n <=? 0) eqn:En;
      [injection H as <- <- _; split; [| split]; trivial; lia |].
    destruct (eligible r) eqn:Ee.
    + destruct (sweep eligible add rooms (n - 1) true) as [[rest m] q] eqn:Es.
      injection H as <- <- ->. apply sweep_sticky in Es. discriminate.
    + destruct (sweep eligible add rooms n p) as [[rest m] q] eqn:Es.
      injection H as <- <- ->.
      destruct (IH _ _ _ _ Es) as (-> & -> & Hst).
      split; [reflexivity |]. split; [reflexivity |].
      intros Hn. constructor; auto.
Qed.

Lemma served_Forall (P : RoomBox -> Prop) rooms rooms' :
  (forall r, eligible r = true -> P r -> P (snd (add 1 r))) ->
  Forall2 (servedOnce eligible add) rooms rooms' ->
  Forall P rooms -> Forall P rooms'.
Proof.
  intros HP H. induction H as [| r r' l l' Hr _ IH]; intros HF; [constructor |].
  inversion HF; subst. constructor; [| auto].
  destruct Hr as [-> | [He ->]]; auto.
Qed.

Lemma sweep_Forall (P : RoomBox -> Prop) rooms n p rooms' n' p' :
  (forall r, eligible r = true -> P r -> P (snd (add 1 r))) ->
  sweep eligible add rooms n p = (rooms', n', p') ->
  Forall P rooms -> Forall P rooms'.
Proof. intros HP H. eapply served_Forall; [exact HP | eapply sweep_served, H]. Qed.

Lemma sweepBoth_idle n g g' n' :
  sweepBoth eligible add n g = (g', n', false) ->
  g' = g /\ n' = n /\
  (0 < n -> Forall (fun r => eligible r = false) (fst g) /\
            Forall (fun r => eligible r = false) (snd g)).
Proof.
  unfold sweepBoth. destruct g as [a b].
  destruct (sweep eligible add a n false) as [[a1 n1] p1] eqn:E1.
  destruct (sweep eligible add b n1 p1) as [[b2 n2] p2] eqn:E2.
  intros H. injection H as <- <- ->.
  destruct p1; [apply sweep_sticky in E2; discriminate |].
  destruct (sweep_idle _ _ _ _ _ E1) as (-> & -> & Ha).
  destruct (sweep_idle _ _ _ _ _ E2) as (-> & -> & Hb).
  cbn [fst snd]. auto.
Qed.

Lemma sweepBoth_nonneg n g g' n' p :
  sweepBoth eligible add n g = (g', n', p) -> 0 <= n -> 0 <= n'.
Proof.
  unfold sweepBoth. destruct g as [a b].
  destruct (sweep eligible add a n false) as [[a1 n1] p1] eqn:E1.
  destruct (sweep eligible add b n1 p1) as [[b2 n2] p2] eqn:E2.
  intros H Hn. injection H as <- <- <-.
  eapply sweep_nonneg; [exact E2 |]. eapply sweep_nonneg; eassumption.
Qed.

Lemma sweepBoth_served n a b a' b' n' p :
  sweepBoth eligible add n (a, b) = ((a', b'), n', p) ->
  Forall2 (servedOnce eligible add) a a' /\ Forall2 (servedOnce eligible add) b b'.
Proof.
  unfold sweepBoth.
  destruct (sweep eligible add a n false) as [[a1 n1] p1] eqn:E1.
  destruct (sweep eligible add b n1 p1) as [[b2 n2] p2] eqn:E2.
  intros H. injection H as <- <- <- <-.
  split; eapply sweep_served; eassumption.
Qed.

(** *** What a loop of passes does *)

(** The loop stops only when nobody is left or when a pass placed nobody. *)
Lemma whileRemaining_exit {St : Type} (body : Z -> St -> St * Z * bool) :
  (forall n st st' n', body n st = (st', n', false) -> st' = st /\ n' = n) ->
  forall fuel n st n' st',
    whileRemaining fuel body n st = Some (n', st') ->
    n' <= 0 \/ (0 < n' /\ body n' st' = (st', n', false)).
Proof.
  intros Hidle. induction fuel as [| fuel IH]; intros n st n' st' H; cbn in H.
  - destruct (n >? 0) eqn:En; [discriminate |]. injection H as <- <-. lia.
  - destruct (n >? 0) eqn:En; [| injection H as <- <-; lia].
    destruct (body n st) as [[st1 n1] p] eqn:Eb.
    destruct p; cbn in H; [eauto |].
    injection H as <- <-. destruct (Hidle _ _ _ _ Eb) as [-> ->].
    right. split; [lia | exact Eb].
Qed.

Section Related.

(** [R] relates a box before and after any number of calls [add 1] made on
    it while it passed the test. *)
Variable R : RoomBox -> RoomBox -> Prop.
Hypothesis R_refl : forall r, R r r.
Hypothesis R_trans : forall r1 r2 r3, R r1 r2 -> R r2 r3 -> R r1 r3.
Hypothesis R_step : forall r, eligible r = true -> R r (snd (add 1 r)).

Lemma related_same l : Forall2 R l l.
Proof. induction l; constructor; auto. Qed.

Lemma related_compose l1 : forall l2 l3,
  Forall2 R l1 l2 -> Forall2 R l2 l3 -> Forall2 R l1 l3.
Proof.
  induction l1 as [| x l1 IH]; intros l2 l3 H12 H23.
  - inversion H12; subst. inversion H23; subst. constructor.
  - inversion H12; subst. inversion H23; subst. constructor; eauto.
Qed.

Lemma served_related l l' :
  Forall2 (servedOnce eligible add) l l' -> Forall2 R l l'.
Proof.
  induction 1 as [| r r' l l' Hr _ IH]; constructor; [| exact IH].
  destruct Hr as [-> | [He ->]]; auto.
Qed.

Lemma loopBoth_related fuel n a b n' a' b' :
  whileRemaining fuel (sweepBoth eligible add) n (a, b) = Some (n', (a', b')) ->
  Forall2 R a a' /\ Forall2 R b b'.
Proof.
  intros H.
  apply (whileRemaining_invariant (sweepBoth eligible add)
           (fun _ st => Forall2 R a (fst st) /\ Forall2 R b (snd st)))
    with (n' := n') (st' := (a', b')) in H;
    [exact H | | split; apply related_same].
  intros m [x y] [x' y'] m' p [Hx Hy] Hb. cbn [fst snd] in *.
  apply sweepBoth_served in Hb. destruct Hb as [Sx Sy].
  split; eapply related_compose; eauto using served_related.
Qed.

Lemma loopOne_related fuel n a n' a' :
  whileRemaining fuel (sweepOne eligible add) n a = Some (n', a') ->
  Forall2 R a a'.
Proof.
  intros H.
  apply (whileRemaining_invariant (sweepOne eligible add)
           (fun _ st => Forall2 R a st))
    with (n' := n') (st' := a') in H; [exact H | | apply related_same].
  intros m x x' m' p Hx Hb. unfold sweepOne in Hb. apply sweep_served in Hb.
  eapply related_compose; eauto using served_related.
Qed.

End Related.

Lemma loopBoth_exit fuel n a b n' a' b' :
  whileRemaining fuel (sweepBoth eligible add) n (a, b) = Some (n', (a', b')) ->
  0 <= n ->
  n' = 0 \/ (Forall (fun r => eligible r = false) a' /\
             Forall (fun r => eligible r = false) b').
Proof.
  intros H Hn.
  assert (Hpos : 0 <= n').
  { apply (whileRemaining_invariant (sweepBoth eligible add) (fun m _ => 0 <= m))
      with (n' := n') (st' := (a', b')) in H; [exact H | | exact Hn].
    intros m st st' m' p Hm Hb. eapply sweepBoth_nonneg; eassumption. }
  apply whileRemaining_exit in H.
  - destruct H as [H | [Hpos' H]]; [left; lia | right].
    apply sweepBoth_idle in H. now apply H.
  - intros m st st' m' Hb. apply sweepBoth_idle in Hb. tauto.
Qed.

Lemma loopOne_exit fuel n a n' a' :
  whileRemaining fuel (sweepOne eligible add) n a = Some (n', a') ->
  0 <= n ->
  n' = 0 \/ Forall (fun r => eligible r = false) a'.
Proof.
  intros H Hn.
  assert (Hpos : 0 <= n').
  { apply (whileRemaining_invariant (sweepOne eligible add) (fun m _ => 0 <= m))
      with (n' := n') (st' := a') in H; [exact H | | exact Hn].
    intros m st st' m' p Hm Hb. eapply sweep_nonneg; eassumption. }
  apply whileRemaining_exit in H.
  - destruct H as [H | [Hpos' H]]; [left; lia | right].
    apply sweep_idle in H. now apply H.
  - intros m st st' m' Hb. apply sweep_idle in Hb. tauto.
Qed.

End Passes.

(** ** What each placement helper guarantees *)

Lemma servedWhile_refl k keep r : servedWhile k keep r r.
Proof. unfold servedWhile. repeat split; auto; lia. Qed.

Lemma servedWhile_trans k keep r1 r2 r3 :
  servedWhile k keep r1 r2 -> servedWhile k keep r2 r3 -> servedWhile k keep r1 r3.
Proof.
  intros (K1 & M1 & O1) (K2 & M2 & O2). split; [| split].
  - intros Hk. pose proof (K1 Hk) as E. subst r2. auto.
  - lia.
  - intros k' Hk'. rewrite (O2 k' Hk'). auto.
Qed.

Lemma servedWhile_step k keep eligible add r :
  adds k add ->
  (forall r, eligible r = true -> keep r = true /\ hasSpace r = true) ->
  eligible r = true -> servedWhile k keep r (snd (add 1 r)).
Proof.
  intros Hadd Hel He. destruct (Hel r He) as [Hk Hsp].
  apply hasSpace_space in Hsp. destruct (Hadd 1 r) as [Hfst Hf].
  split; [congruence |]. split.
  - rewrite Hf, Hfst. unfold credit. destruct (same k k); lia.
  - intros k' Hk'. rewrite Hf. unfold credit. rewrite Hk'. lia.
Qed.

Lemma whileRemaining_done {St : Type} fuel (body : Z -> St -> St * Z * bool) n st :
  n <= 0 -> whileRemaining fuel body n st = Some (n, st).
Proof.
  intros Hn. assert (E : (n >? 0) = false) by lia.
  destruct fuel; cbn; now rewrite E.
Qed.

Lemma hasSpace_false_full r : hasSpace r = false <-> full r.
Proof. unfold hasSpace, full. lia. Qed.

Lemma not_eligible_full (f : RoomBox -> bool) rooms :
  Forall (fun r => f r && hasSpace r = false) rooms ->
  Forall (fun r => f r = true -> full r) rooms.
Proof.
  apply Forall_impl. intros r H Hf. rewrite Hf in H. now apply hasSpace_false_full.
Qed.

Lemma no_space_full rooms :
  Forall (fun r => hasSpace r = false) rooms -> Forall full rooms.
Proof. apply Forall_impl. intros r. apply hasSpace_false_full. Qed.

Lemma hasSpace_keep r : hasSpace r = true -> hasSpace r = true /\ hasSpace r = true.
Proof. auto. Qed.

(** [placeSeniorsIntoRoomsThatAlreadyHaveSeniors] stops only when no
    senior is left to place or when every box that holds a senior is full;
    it changes nothing but the [seniors] field, and leaves as it was every
    box that held no senior or was full. *)
Lemma placeSeniorsIntoRoomsThatAlreadyHaveSeniors_loop
    (fuel : nat) (count : Z) (so mx : list RoomBox)
    (n : Z) (so' mx' : list RoomBox) :
  placeSeniorsIntoRoomsThatAlreadyHaveSeniors fuel count so mx = Some (n, so', mx') ->
  (n = 0 \/ Forall (fun r => hasSeniors r = true -> full r) (so' ++ mx')) /\
  Forall2 (servedWhile Senior (fun r => hasSeniors r && hasSpace r)) so so' /\
  Forall2 (servedWhile Senior (fun r => hasSeniors r && hasSpace r)) mx mx'.
Proof.
  unfold placeSeniorsIntoRoomsThatAlreadyHaveSeniors.
  destruct (count <=? 0) eqn:Ec.
  { intros H. injection H as <- <- <-. split; [now left |].
    split; apply related_same; apply servedWhile_refl. }
  destruct (whileRemaining _ _ _ _) as [[m [a b]] |] eqn:Ew; [| discriminate].
  intros H. injection H as <- <- <-. split.
  - apply loopBoth_exit in Ew; [| lia].
    destruct Ew as [-> | [Ha Hb]]; [now left | right].
    apply Forall_app. split; now apply not_eligible_full.
  - eapply loopBoth_related; [apply servedWhile_refl | apply servedWhile_trans | | exact Ew].
    intros r. apply servedWhile_step with (eligible := fun r => hasSeniors r && hasSpace r);
      [exact addSeniors_adds | intros r0 E; split; [exact E | now apply andb_prop in E] ].
Qed.

(** [placeSeniorsAnywhere] stops only when no senior is left to place
    or when every box is full; it changes nothing but the [seniors] field,
    and leaves every full box as it was. *)
Lemma placeSeniorsAnywhere_loop
    (fuel : nat) (count : Z) (so mx : list RoomBox)
    (n : Z) (so' mx' : list RoomBox) :
  placeSeniorsAnywhere fuel count so mx = Some (n, so', mx') ->
  (n = 0 \/ Forall full (so' ++ mx')) /\
  Forall2 (servedWhile Senior hasSpace) so so' /\
  Forall2 (servedWhile Senior hasSpace) mx mx'.
Proof.
  unfold placeSeniorsAnywhere.
  destruct (count <=? 0) eqn:Ec.
  { intros H. injection H as <- <- <-. split; [now left |].
    split; apply related_same; apply servedWhile_refl. }
  destruct (whileRemaining _ _ _ _) as [[m [a b]] |] eqn:Ew; [| discriminate].
  intros H. injection H as <- <- <-. split.
  - apply loopBoth_exit in Ew; [| lia].
    destruct Ew as [-> | [Ha Hb]]; [now left | right].
    apply Forall_app. split; now apply no_space_full.
  - eapply loopBoth_related; [apply servedWhile_refl | apply servedWhile_trans | | exact Ew].
    intros r. apply servedWhile_step with (eligible := hasSpace);
      [exact addSeniors_adds | exact hasSpace_keep].
Qed.

(** [placeAdultsPreferMixedRooms] stops only when no adult is left to
    place or when every box is full; it gives an adult to a senior-only room
    only once every mixed room is full; it changes nothing but the [adults]
    field, and leaves every full box as it was. *)
Lemma placeAdultsPreferMixedRooms_loop
    (fuel : nat) (count : Z) (mx so : list RoomBox)
    (n : Z) (so' mx' : list RoomBox) :
  placeAdultsPreferMixedRooms fuel count mx so = Some (n, so', mx') ->
  (n = 0 \/ Forall full (so' ++ mx')) /\
  (so' = so \/ Forall full mx') /\
  Forall2 (servedWhile Adult hasSpace) so so' /\
  Forall2 (servedWhile Adult hasSpace) mx mx'.
Proof.
  unfold placeAdultsPreferMixedRooms.
  destruct (count <=? 0) eqn:Ec.
  { intros H. injection H as <- <- <-. split; [now left |]. split; [now left |].
    split; apply related_same; apply servedWhile_refl. }
  destruct (whileRemaining fuel _ count mx) as [[m b] |] eqn:Ew1; [| discriminate].
  destruct (whileRemaining fuel _ m so) as [[m' a] |] eqn:Ew2; [| discriminate].
  intros H. injection H as <- <- <-.
  assert (Hstep : forall r, hasSpace r = true ->
                            servedWhile Adult hasSpace r (snd (addAdults 1 r))).
  { intros r. apply servedWhile_step with (eligible := hasSpace);
      [exact addAdults_adds | exact hasSpace_keep]. }
  pose proof (loopOne_related hasSpace addAdults _ (servedWhile_refl Adult hasSpace)
                (servedWhile_trans Adult hasSpace) Hstep _ _ _ _ _ Ew1) as R1.
  pose proof (loopOne_related hasSpace addAdults _ (servedWhile_refl Adult hasSpace)
                (servedWhile_trans Adult hasSpace) Hstep _ _ _ _ _ Ew2) as R2.
  pose proof Ew1 as X1. apply loopOne_exit in X1; [| lia].
  destruct X1 as [-> | Hb].
  - rewrite whileRemaining_done in Ew2 by lia. injection Ew2 as <- <-.
    split; [now left |]. split; [now left |]. now split.
  - apply no_space_full in Hb.
    assert (Hm : 0 <= m).
    { apply (whileRemaining_invariant (sweepOne hasSpace addAdults) (fun x _ => 0 <= x))
        with (n' := m) (st' := b) in Ew1; [exact Ew1 | | lia].
      intros x st st' x' p Hx Hs. eapply sweep_nonneg; eassumption. }
    apply loopOne_exit in Ew2; [| exact Hm].
    split; [| split; [now right | now split]].
    destruct Ew2 as [-> | Ha]; [now left | right].
    apply Forall_app. split; [now apply no_space_full | exact Hb].
Qed.

(** [placeChildrenIntoRoomsWithAdults] stops only when no child is left
    to place or when every box that holds an adult is full; it changes
    nothing but the [children] field, and leaves as it was every box that
    held no adult or was full. *)
Lemma placeChildrenIntoRoomsWithAdults_loop
    (fuel : nat) (count : Z) (mx so : list RoomBox)
    (n : Z) (so' mx' : list RoomBox) :
  placeChildrenIntoRoomsWithAdults fuel count mx so = Some (n, so', mx') ->
  (n = 0 \/ Forall (fun r => hasAdults r = true -> full r) (so' ++ mx')) /\
  Forall2 (servedWhile Child (fun r => hasAdults r && hasSpace r)) so so' /\
  Forall2 (servedWhile Child (fun r => hasAdults r && hasSpace r)) mx mx'.
Proof.
  unfold placeChildrenIntoRoomsWithAdults.
  destruct (count <=? 0) eqn:Ec.
  { intros H. injection H as <- <- <-. split; [now left |].
    split; apply related_same; apply servedWhile_refl. }
  destruct (whileRemaining _ _ _ _) as [[m [b a]] |] eqn:Ew; [| discriminate].
  intros H. injection H as <- <- <-. split.
  - apply loopBoth_exit in Ew; [| lia].
    destruct Ew as [-> | [Hb Ha]]; [now left | right].
    apply Forall_app. split; now apply not_eligible_full.
  - apply and_comm.
    eapply loopBoth_related; [apply servedWhile_refl | apply servedWhile_trans | | exact Ew].
    intros r. apply servedWhile_step with (eligible := fun r => hasAdults r && hasSpace r);
      [exact addChildren_adds | intros r0 E; split; [exact E | now apply andb_prop in E] ].
Qed.

(** [placeChildrenIntoRoomsWithSeniors] stops only when no child is
    left to place or when every box that holds a senior is full; it changes
    nothing but the [children] field, and leaves as it was every box that
    held no senior or was full. *)
Lemma placeChildrenIntoRoomsWithSeniors_loop
    (fuel : nat) (count : Z) (mx so : list RoomBox)
    (n : Z) (so' mx' : list RoomBox) :
  placeChildrenIntoRoomsWithSeniors fuel count mx so = Some (n, so', mx') ->
  (n = 0 \/ Forall (fun r => hasSeniors r = true -> full r) (so' ++ mx')) /\
  Forall2 (servedWhile Child (fun r => hasSeniors r && hasSpace r)) so so' /\
  Forall2 (servedWhile Child (fun r => hasSeniors r && hasSpace r)) mx mx'.
Proof.
  unfold placeChildrenIntoRoomsWithSeniors.
  destruct (count <=? 0) eqn:Ec.
  { intros H. injection H as <- <- <-. split; [now left |].
    split; apply related_same; apply servedWhile_refl. }
  destruct (whileRemaining _ _ _ _) as [[m [a b]] |] eqn:Ew; [| discriminate].
  intros H. injection H as <- <- <-. split.
  - apply loopBoth_exit in Ew; [| lia].
    destruct Ew as [-> | [Ha Hb]]; [now left | right].
    apply Forall_app. split; now apply not_eligible_full.
  - eapply loopBoth_related; [apply servedWhile_refl | apply servedWhile_trans | | exact Ew].
    intros r. apply servedWhile_step with (eligible := fun r => hasSeniors r && hasSpace r);
      [exact addChildren_adds | intros r0 E; split; [exact E | now apply andb_prop in E] ].
Qed.

(** ** The runs of [distribute] *)

(** A run that passes [isFeasible] either stops in the anchor loop, with the
    empty array, or goes through every placement phase. *)
Lemma distribute_trace fuel roomCount a s c rooms :
  distribute fuel roomCount a s c = Some rooms ->
  isFeasible roomCount a s c = true ->
  (rooms = [] /\
   seedMixedRooms
     (freshRooms (roomCount - pickSeniorOnlyRoomCount roomCount a s c)) a
     (snd (fillSeniorOnlyRooms
             (freshRooms (pickSeniorOnlyRoomCount roomCount a s c)) s)) = None)
  \/ placements fuel roomCount a s c rooms.
Proof.
  unfold distribute. intros H F. rewrite F in H. cbn [negb] in H.
  set (q := pickSeniorOnlyRoomCount roomCount a s c) in *.
  destruct (fillSeniorOnlyRooms (freshRooms q) s) as [so1 rs1] eqn:Efill.
  cbn [snd].
  destruct (seedMixedRooms (freshRooms (roomCount - q)) a rs1)
    as [[[mx1 ra1] rs2] |] eqn:Eseed; [| injection H as <-; now left].
  right.
  destruct (placeSeniorsIntoRoomsThatAlreadyHaveSeniors fuel rs2 so1 mx1)
    as [[[rs3 so2] mx2] |] eqn:E1; [| discriminate].
  destruct (placeSeniorsAnywhere fuel rs3 so2 mx2)
    as [[[rs4 so3] mx3] |] eqn:E2; [| discriminate].
  destruct (placeAdultsPreferMixedRooms fuel ra1 mx3 so3)
    as [[[ra2 so4] mx4] |] eqn:E3; [| discriminate].
  destruct (placeChildrenIntoRoomsWithAdults fuel c mx4 so4)
    as [[[rc1 so5] mx5] |] eqn:E4; [| discriminate].
  destruct (if rc1 >? 0
            then placeChildrenIntoRoomsWithSeniors fuel rc1 mx5 so5
            else Some (rc1, so5, mx5)) as [[[rc2 so6] mx6] |] eqn:E5;
    [| discriminate].
  eapply placements_intro; try eassumption.
  unfold finish.
  destruct ((ra2 >? 0) || (rs4 >? 0) || (rc2 >? 0)); [now injection H as <- |].
  destruct (existsb (fun r => total r <=? 0) (mx6 ++ so6)); [now injection H as <- |].
  destruct (existsb _ (mx6 ++ so6)); now injection H as <-.
Qed.

(** ** [distribute] succeeds whenever an assignment exists *)

Lemma fillSeniorOnlyRooms_anchored n : forall s,
  Z.of_nat n * ROOM_CAPACITY < s + ROOM_CAPACITY ->
  Forall anchored (fst (fillSeniorOnlyRooms (repeat RoomBox.fresh n) s)).
Proof.
  induction n as [| n IH]; intros s Hs; [constructor |].
  cbn [repeat fillSeniorOnlyRooms].
  assert (Hn : 0 <= Z.of_nat n * ROOM_CAPACITY) by (apply Z.mul_nonneg_nonneg; lia).
  replace (Z.of_nat (S n) * ROOM_CAPACITY)
    with (Z.of_nat n * ROOM_CAPACITY + ROOM_CAPACITY) in Hs by lia.
  destruct (s <=? 0) eqn:Es; [lia |]. apply Z.leb_gt in Es.
  destruct (addSeniors (Z.min ROOM_CAPACITY s) RoomBox.fresh) as [placed r'] eqn:Ea.
  unfold addSeniors, remainingCapacity, total in Ea. cbn in Ea.
  injection Ea as <- <-.
  specialize (IH (s - Z.min (Z.min ROOM_CAPACITY s) (ROOM_CAPACITY - 0))).
  destruct (fillSeniorOnlyRooms (repeat RoomBox.fresh n) _) as [rest m].
  cbn [fst] in *. constructor.
  - unfold anchored. cbn. lia.
  - apply IH. destruct n as [| n]; [lia |].
    assert (ROOM_CAPACITY <= Z.of_nat (S n) * ROOM_CAPACITY) by nia. lia.
Qed.

Lemma seedMixedRooms_anchored rooms : forall a s rooms' a' s',
  seedMixedRooms rooms a s = Some (rooms', a', s') ->
  Forall (fun r => r = RoomBox.fresh) rooms -> Forall anchored rooms'.
Proof.
  induction rooms as [| r rooms IH]; intros a s rooms' a' s' H HF;
    cbn [seedMixedRooms] in H.
  - injection H as <- <- <-. constructor.
  - inversion HF as [| ? ? Hr Hrest]. subst.
    destruct (a >? 0).
    + destruct (seedMixedRooms rooms (a - 1) s) as [[[rest x] y] |] eqn:Es;
        [| discriminate].
      injection H as <- <- <-. constructor; [| eauto].
      unfold anchored, addAdults, remainingCapacity, total. cbn. lia.
    + destruct (s >? 0); [| discriminate].
      destruct (seedMixedRooms rooms a (s - 1)) as [[[rest x] y] |] eqn:Es;
        [| discriminate].
      injection H as <- <- <-. constructor; [| eauto].
      unfold anchored, addSeniors, remainingCapacity, total. cbn. lia.
Qed.

Lemma servedWhile_anchored k keep r r' :
  servedWhile k keep r r' -> anchored r -> anchored r'.
Proof.
  unfold anchored. intros (_ & Hm & Ho) Ha.
  destruct k; cbn in Hm.
  - pose proof (Ho Senior eq_refl) as E. cbn in E. lia.
  - pose proof (Ho Adult eq_refl) as E. cbn in E. lia.
  - pose proof (Ho Adult eq_refl) as E1. pose proof (Ho Senior eq_refl) as E2.
    cbn in E1, E2. lia.
Qed.

Lemma Forall2_Forall (P : RoomBox -> Prop) (R : RoomBox -> RoomBox -> Prop) l l' :
  (forall r r', R r r' -> P r -> P r') ->
  Forall2 R l l' -> Forall P l -> Forall P l'.
Proof.
  intros HR H. induction H as [| r r' l l' Hr _ IH]; intros HF; [constructor |].
  inversion HF; subst. constructor; eauto.
Qed.

Lemma phase_Forall (P : RoomBox -> Prop) k keep so so' mx mx' :
  (forall r r', servedWhile k keep r r' -> P r -> P r') ->
  Forall2 (servedWhile k keep) so so' -> Forall2 (servedWhile k keep) mx mx' ->
  Forall P (so ++ mx) -> Forall P (so' ++ mx').
Proof.
  intros HP Hso Hmx. rewrite !Forall_app. intros [H1 H2].
  split; eapply Forall2_Forall; eauto.
Qed.

Lemma full_house rooms :
  Forall box_ok rooms -> Forall full rooms ->
  headcount Adult rooms + headcount Senior rooms + headcount Child rooms =
  Z.of_nat (length rooms) * ROOM_CAPACITY.
Proof.
  induction rooms as [| r rooms IH]; intros Hok Hfull; [cbn; lia |].
  inversion Hok as [| ? ? (_ & _ & _ & Ht) Hoks]. inversion Hfull as [| ? ? Hf Hfs]. subst.
  specialize (IH Hoks Hfs). unfold full, remainingCapacity, total in Hf, Ht.
  cbn [headcount field length]. lia.
Qed.

(** When every box is full and the run passed the capacity check, nobody is
    left to place. *)
Lemma ledger_full_house A S C ra rs rc rooms :
  ledger A S C ra rs rc rooms -> 0 <= A -> 0 <= S -> 0 <= C ->
  Forall full rooms ->
  A + S + C <= Z.of_nat (length rooms) * ROOM_CAPACITY ->
  ra = 0 /\ rs = 0 /\ rc = 0.
Proof.
  intros [Hok Hb] HA HS HC Hfull Hcap.
  destruct (Hb HA HS HC) as ((? & ? & ?) & EA & ES & EC).
  pose proof (full_house rooms Hok Hfull). lia.
Qed.

Lemma anchored_count rooms :
  Forall anchored rooms ->
  Z.of_nat (length rooms) <= headcount Adult rooms + headcount Senior rooms.
Proof.
  induction 1 as [| r rooms Hr _ IH]; [cbn; lia |].
  unfold anchored in Hr. cbn [headcount field length]. lia.
Qed.

Lemma pickSeniorOnlyRoomCount_le_ceilDiv roomCount a s c :
  0 <= s -> pickSeniorOnlyRoomCount roomCount a s c <= ceilDiv s ROOM_CAPACITY.
Proof.
  intros Hs. unfold pickSeniorOnlyRoomCount.
  pose proof (ceilDiv_nonneg s ROOM_CAPACITY capacity_positive Hs).
  match goal with |- shrinkSeniorOnlyRooms _ _ _ ?i <= _ =>
    pose proof (shrinkSeniorOnlyRooms_range roomCount a s i ltac:(lia)) end.
  lia.
Qed.

(** A run that went through every placement phase on an input with enough
    adults and seniors to anchor every room placed everybody, and passes the
    residual check and the two safety checks. *)
Lemma placements_succeed fuel roomCount a s c rooms :
  0 <= a -> 0 <= s -> 0 <= c ->
  0 < roomCount -> a + s + c <= roomCount * ROOM_CAPACITY ->
  placements fuel roomCount a s c rooms ->
  exists so mx,
    rooms = sortRooms compareRooms (map toRoom (mx ++ so)) /\
    Z.of_nat (length (mx ++ so)) = roomCount /\
    Forall anchored (mx ++ so).
Proof.
  intros Ha Hs Hc Hr Hcap
    [so1 rs1 mx1 ra1 rs2 rs3 so2 mx2 rs4 so3 mx3 ra2 so4 mx4 rc1 so5 mx5
       rc2 so6 mx6 Efill Eseed E1 E2 E3 E4 E5 ->].
  set (q := pickSeniorOnlyRoomCount roomCount a s c) in *.
  pose proof (pickSeniorOnlyRoomCount_range roomCount a s c ltac:(lia) Ha Hs Hc) as Hq.
  fold q in Hq.
  (* the boxes after seeding *)
  assert (A0 : Forall anchored (so1 ++ mx1)).
  { apply Forall_app. split.
    - replace so1 with (fst (fillSeniorOnlyRooms (freshRooms q) s))
        by now rewrite Efill.
      apply fillSeniorOnlyRooms_anchored. rewrite Z2Nat.id by lia.
      pose proof (pickSeniorOnlyRoomCount_le_ceilDiv roomCount a s c Hs) as Hle.
      fold q in Hle. unfold ceilDiv in Hle.
      pose proof (Z.mul_div_le (s + ROOM_CAPACITY - 1) ROOM_CAPACITY capacity_positive).
      nia.
    - eapply seedMixedRooms_anchored; [exact Eseed | apply freshRooms_fresh]. }
  pose proof (fillSeniorOnlyRooms_swept _ _ _ _ Efill) as Sfill.
  assert (L0 : ledger a s c ra1 rs2 c (so1 ++ mx1)).
  { eapply ledger_seed; [| apply freshRooms_fresh | exact Eseed].
    eapply ledger_seniors; [apply ledger_start | exact Sfill]. }
  assert (N0 : Z.of_nat (length (so1 ++ mx1)) = roomCount).
  { destruct (seedMixedRooms_spec _ _ _ _ _ _ Eseed) as (Lm & _).
    destruct Sfill as [Lf _].
    rewrite length_app, Lm, Lf, !freshRooms_length. lia. }
  (* seniors *)
  pose proof (placeSeniorsIntoRoomsThatAlreadyHaveSeniors_swept _ _ _ _ _ _ _ E1) as S1.
  destruct (placeSeniorsIntoRoomsThatAlreadyHaveSeniors_loop _ _ _ _ _ _ _ E1)
    as (_ & R1so & R1mx).
  pose proof (ledger_seniors _ _ _ _ _ _ _ _ _ L0 S1) as L1.
  pose proof (phase_Forall anchored _ _ _ _ _ _
                (servedWhile_anchored _ _) R1so R1mx A0) as A1.
  assert (N1 : Z.of_nat (length (so2 ++ mx2)) = roomCount)
    by (destruct S1 as [-> _]; exact N0).
  pose proof (placeSeniorsAnywhere_swept _ _ _ _ _ _ _ E2) as S2.
  destruct (placeSeniorsAnywhere_loop _ _ _ _ _ _ _ E2) as (X2 & R2so & R2mx).
  pose proof (ledger_seniors _ _ _ _ _ _ _ _ _ L1 S2) as L2.
  pose proof (phase_Forall anchored _ _ _ _ _ _
                (servedWhile_anchored _ _) R2so R2mx A1) as A2.
  assert (N2 : Z.of_nat (length (so3 ++ mx3)) = roomCount)
    by (destruct S2 as [-> _]; exact N1).
  assert (Z4 : rs4 = 0).
  { destruct X2 as [-> | Hfull]; [reflexivity |].
    apply (ledger_full_house _ _ _ _ _ _ _ L2 Ha Hs Hc Hfull). lia. }
  (* adults *)
  pose proof (placeAdultsPreferMixedRooms_swept _ _ _ _ _ _ _ E3) as S3.
  destruct (placeAdultsPreferMixedRooms_loop _ _ _ _ _ _ _ E3)
    as (X3 & _ & R3so & R3mx).
  pose proof (ledger_adults _ _ _ _ _ _ _ _ _ L2 S3) as L3.
  pose proof (phase_Forall anchored _ _ _ _ _ _
                (servedWhile_anchored _ _) R3so R3mx A2) as A3.
  assert (N3 : Z.of_nat (length (so4 ++ mx4)) = roomCount)
    by (destruct S3 as [-> _]; exact N2).
  assert (Z2 : ra2 = 0).
  { destruct X3 as [-> | Hfull]; [reflexivity |].
    apply (ledger_full_house _ _ _ _ _ _ _ L3 Ha Hs Hc Hfull). lia. }
  (* children *)
  pose proof (placeChildrenIntoRoomsWithAdults_swept _ _ _ _ _ _ _ E4) as S4.
  destruct (placeChildrenIntoRoomsWithAdults_loop _ _ _ _ _ _ _ E4)
    as (X4 & R4so & R4mx).
  pose proof (ledger_children _ _ _ _ _ _ _ _ _ L3 S4) as L4.
  pose proof (phase_Forall anchored _ _ _ _ _ _
                (servedWhile_anchored _ _) R4so R4mx A3) as A4.
  assert (N4 : Z.of_nat (length (so5 ++ mx5)) = roomCount)
    by (destruct S4 as [-> _]; exact N3).
  assert (Last : ledger a s c ra2 rs4 rc2 (so6 ++ mx6) /\
                 Forall anchored (so6 ++ mx6) /\
                 Z.of_nat (length (so6 ++ mx6)) = roomCount /\ rc2 = 0).
  { destruct (rc1 >? 0) eqn:Epos.
    - pose proof (placeChildrenIntoRoomsWithSeniors_swept _ _ _ _ _ _ _ E5) as S5.
      destruct (placeChildrenIntoRoomsWithSeniors_loop _ _ _ _ _ _ _ E5)
        as (X5 & R5so & R5mx).
      pose proof (ledger_children _ _ _ _ _ _ _ _ _ L4 S5) as L5.
      pose proof (phase_Forall anchored _ _ _ _ _ _
                    (servedWhile_anchored _ _) R5so R5mx A4) as A5.
      assert (N5 : Z.of_nat (length (so6 ++ mx6)) = roomCount)
        by (destruct S5 as [-> _]; exact N4).
      split; [exact L5 |]. split; [exact A5 |]. split; [exact N5 |].
      destruct X5 as [-> | HS5]; [reflexivity |].
      destruct X4 as [-> | HA4]; [discriminate |].
      assert (HA5 : Forall (fun r => hasAdults r = true -> full r) (so6 ++ mx6)).
      { eapply phase_Forall; [| exact R5so | exact R5mx | exact HA4].
        intros r r' (K & _ & O) P.
        destruct (hasSeniors r && hasSpace r) eqn:El; [| now rewrite (K eq_refl)].
        apply andb_prop in El. destruct El as [_ Hsp].
        intros Had. unfold hasAdults in *. pose proof (O Adult eq_refl) as EA.
        cbn in EA. rewrite EA in Had. apply P in Had.
        apply hasSpace_false_full in Had. congruence. }
      assert (Hfull : Forall full (so6 ++ mx6)).
      { rewrite Forall_forall in *. intros r Hin.
        specialize (A5 r Hin). unfold anchored in A5.
        destruct (hasAdults r) eqn:Had; [now apply HA5 |].
        apply HS5; [exact Hin |]. unfold hasAdults, hasSeniors in *. lia. }
      apply (ledger_full_house _ _ _ _ _ _ _ L5 Ha Hs Hc Hfull). lia.
    - injection E5 as <- <- <-.
      split; [exact L4 |]. split; [exact A4 |]. split; [exact N4 |].
      destruct L4 as [_ Hb]. destruct (Hb Ha Hs Hc) as ((_ & _ & ?) & _). lia. }
  destruct Last as (L5 & A5 & N5 & Z5).
  exists so6, mx6.
  assert (A5' : Forall anchored (mx6 ++ so6))
    by (rewrite Forall_app in *; tauto).
  split; [| split; [rewrite length_app, Nat.add_comm, <- length_app; exact N5
                    | exact A5']].
  unfold finish. subst ra2 rs4 rc2. cbn [orb Z.gtb Z.compare].
  assert (Hok : Forall box_ok (mx6 ++ so6))
    by (destruct L5 as [Hok _]; rewrite Forall_app in *; tauto).
  assert (E1' : existsb (fun r => total r <=? 0) (mx6 ++ so6) = false).
  { match goal with |- ?x = false => destruct x eqn:E; [| reflexivity] end.
    apply existsb_exists in E. destruct E as (r & Hin & Hbad).
    rewrite Forall_forall in A5', Hok.
    specialize (A5' r Hin). destruct (Hok r Hin) as (_ & _ & ? & _).
    unfold anchored, total in *. lia. }
  assert (E2' : existsb (fun r => (RoomBox.children r >? 0)
                                  && (RoomBox.adults r + RoomBox.seniors r =? 0))
                        (mx6 ++ so6) = false).
  { match goal with |- ?x = false => destruct x eqn:E; [| reflexivity] end.
    apply existsb_exists in E. destruct E as (r & Hin & Hbad).
    rewrite Forall_forall in A5'. specialize (A5' r Hin).
    apply andb_prop in Hbad. unfold anchored in A5'. lia. }
  rewrite E1', E2'. reflexivity.
Qed.

(** ** The contract of each placement helper *)

Lemma swept_placed k keep count so mx n so' mx' :
  swept k count (so ++ mx) n (so' ++ mx') ->
  Forall2 (servedWhile k keep) so so' -> Forall2 (servedWhile k keep) mx mx' ->
  0 <= count -> Forall box_ok (so ++ mx) ->
  placed k keep count so mx n so' mx'.
Proof.
  intros (_ & Hs) Rso Rmx Hc Hok. destruct (Hs Hok) as [Hok' Hn].
  destruct (Hn Hc) as [B E]. unfold placed. repeat split; try lia; trivial.
  rewrite (E k). unfold credit. destruct k; cbn; lia.
Qed.

(** X1. When [placeSeniorsIntoRoomsThatAlreadyHaveSeniors] is given a
    non-negative count and boxes within capacity, it places exactly
    [count - n] seniors, only into boxes that hold a senior and have a free
    place at that moment, changes no other field, and stops only when no
    senior is left or when every box that holds a senior is full. *)
Theorem placeSeniorsIntoRoomsThatAlreadyHaveSeniors_groups
    (fuel : nat) (count : Z) (so mx : list RoomBox)
    (n : Z) (so' mx' : list RoomBox) :
  0 <= count -> Forall box_ok (so ++ mx) ->
  placeSeniorsIntoRoomsThatAlreadyHaveSeniors fuel count so mx = Some (n, so', mx') ->
  placed Senior (fun r => hasSeniors r && hasSpace r) count so mx n so' mx' /\
  (n = 0 \/ Forall (fun r => 0 < RoomBox.seniors r -> full r) (so' ++ mx')).
Proof.
  intros Hc Hok H.
  destruct (placeSeniorsIntoRoomsThatAlreadyHaveSeniors_loop _ _ _ _ _ _ _ H)
    as (X & Rso & Rmx).
  apply placeSeniorsIntoRoomsThatAlreadyHaveSeniors_swept in H.
  split; [now apply swept_placed |].
  destruct X as [-> | X]; [now left | right].
  revert X. apply Forall_impl. intros r Hr Hpos. apply Hr. unfold hasSeniors. lia.
Qed.

(** X2. When [placeSeniorsAnywhere] is given a non-negative count and boxes
    within capacity, it places exactly [count - n] seniors, only into boxes
    with a free place, changes no other field, and stops only when no senior
    is left or when every box is full. *)
Theorem placeSeniorsAnywhere_fills
    (fuel : nat) (count : Z) (so mx : list RoomBox)
    (n : Z) (so' mx' : list RoomBox) :
  0 <= count -> Forall box_ok (so ++ mx) ->
  placeSeniorsAnywhere fuel count so mx = Some (n, so', mx') ->
  placed Senior hasSpace count so mx n so' mx' /\
  (n = 0 \/ Forall full (so' ++ mx')).
Proof.
  intros Hc Hok H.
  destruct (placeSeniorsAnywhere_loop _ _ _ _ _ _ _ H) as (X & Rso & Rmx).
  apply placeSeniorsAnywhere_swept in H.
  split; [now apply swept_placed | exact X].
Qed.

(** X3. When [placeAdultsPreferMixedRooms] is given a non-negative count
    and boxes within capacity, it places exactly [count - n] adults, only
    into boxes with a free place, changes no other field, stops only when no
    adult is left or when every box is full, and touches the senior-only
    rooms only once every mixed room is full. *)
Theorem placeAdultsPreferMixedRooms_prefers_mixed
    (fuel : nat) (count : Z) (mx so : list RoomBox)
    (n : Z) (so' mx' : list RoomBox) :
  0 <= count -> Forall box_ok (so ++ mx) ->
  placeAdultsPreferMixedRooms fuel count mx so = Some (n, so', mx') ->
  placed Adult hasSpace count so mx n so' mx' /\
  (n = 0 \/ Forall full (so' ++ mx')) /\
  (so' = so \/ Forall full mx').
Proof.
  intros Hc Hok H.
  destruct (placeAdultsPreferMixedRooms_loop _ _ _ _ _ _ _ H) as (X & Y & Rso & Rmx).
  apply placeAdultsPreferMixedRooms_swept in H.
  split; [now apply swept_placed | now split].
Qed.

(** X4. When [placeChildrenIntoRoomsWithAdults] is given a non-negative
    count and boxes within capacity, it places exactly [count - n] children,
    only into boxes that hold an adult and have a free place, changes no
    other field, and stops only when no child is left or when every box that
    holds an adult is full. *)
Theorem placeChildrenIntoRoomsWithAdults_chaperoned
    (fuel : nat) (count : Z) (mx so : list RoomBox)
    (n : Z) (so' mx' : list RoomBox) :
  0 <= count -> Forall box_ok (so ++ mx) ->
  placeChildrenIntoRoomsWithAdults fuel count mx so = Some (n, so', mx') ->
  placed Child (fun r => hasAdults r && hasSpace r) count so mx n so' mx' /\
  (n = 0 \/ Forall (fun r => 0 < RoomBox.adults r -> full r) (so' ++ mx')).
Proof.
  intros Hc Hok H.
  destruct (placeChildrenIntoRoomsWithAdults_loop _ _ _ _ _ _ _ H) as (X & Rso & Rmx).
  apply placeChildrenIntoRoomsWithAdults_swept in H.
  split; [now apply swept_placed |].
  destruct X as [-> | X]; [now left | right].
  revert X. apply Forall_impl. intros r Hr Hpos. apply Hr. unfold hasAdults. lia.
Qed.

(** X5. When [placeChildrenIntoRoomsWithSeniors] is given a non-negative
    count and boxes within capacity, it places exactly [count - n] children,
    only into boxes that hold a senior and have a free place, changes no
    other field, and stops only when no child is left or when every box that
    holds a senior is full. *)
Theorem placeChildrenIntoRoomsWithSeniors_chaperoned
    (fuel : nat) (count : Z) (mx so : list RoomBox)
    (n : Z) (so' mx' : list RoomBox) :
  0 <= count -> Forall box_ok (so ++ mx) ->
  placeChildrenIntoRoomsWithSeniors fuel count mx so = Some (n, so', mx') ->
  placed Child (fun r => hasSeniors r && hasSpace r) count so mx n so' mx' /\
  (n = 0 \/ Forall (fun r => 0 < RoomBox.seniors r -> full r) (so' ++ mx')).
Proof.
  intros Hc Hok H.
  destruct (placeChildrenIntoRoomsWithSeniors_loop _ _ _ _ _ _ _ H) as (X & Rso & Rmx).
  apply placeChildrenIntoRoomsWithSeniors_swept in H.
  split; [now apply swept_placed |].
  destruct X as [-> | X]; [now left | right].
  revert X. apply Forall_impl. intros r Hr Hpos. apply Hr. unfold hasSeniors. lia.
Qed.

(** ** When [distribute] succeeds *)

(** When a run on non-negative inputs ends, the array is non-empty exactly
    when there is at least one room, there are at least as many adults and
    seniors together as rooms, and the people fit in
    [roomCount * ROOM_CAPACITY] places. *)
Lemma distribute_result_nonempty_iff (fuel : nat) (roomCount a s c : Z)
    (rooms : list Room) :
  0 <= roomCount -> 0 <= a -> 0 <= s -> 0 <= c ->
  distribute fuel roomCount a s c = Some rooms ->
  (rooms <> [] <->
   0 < roomCount /\ roomCount <= a + s /\ a + s + c <= roomCount * ROOM_CAPACITY).
Proof.
  intros _ Ha Hs Hc H. split.
  - intros Hne.
    destruct (distribute_inv _ _ _ _ _ _ H Hne) as (_ & _ & _ & _ & _ & F & _).
    pose proof (anchor_dead_end_iff roomCount a s c Ha Hs Hc F) as Hdead.
    cbv zeta in Hdead.
    apply isFeasible_true_iff in F as F'. destruct F' as (Hr & _ & Hcap & _).
    destruct (distribute_trace _ _ _ _ _ _ H F) as [[-> _] | P]; [contradiction |].
    destruct P as [so1 rs1 mx1 ra1 rs2 ? ? ? ? ? ? ? ? ? ? ? ? ? ? ? Efill Eseed].
    rewrite Efill in Hdead. cbn [snd] in Hdead. rewrite Eseed in Hdead.
    split; [exact Hr |]. split; [| exact Hcap].
    destruct (Z_lt_le_dec (a + s) roomCount) as [Hlt | Hle]; [| exact Hle].
    apply Hdead in Hlt. discriminate.
  - intros (Hr & Hanchor & Hcap).
    assert (F : isFeasible roomCount a s c = true)
      by (apply isFeasible_true_iff; lia).
    destruct (distribute_trace _ _ _ _ _ _ H F) as [[_ Hnone] | P].
    + apply (anchor_dead_end_iff roomCount a s c Ha Hs Hc F) in Hnone. lia.
    + destruct (placements_succeed _ _ _ _ _ _ Ha Hs Hc Hr Hcap P)
        as (so & mx & -> & Hlen & _).
      intros E. apply (f_equal (@length Room)) in E.
      rewrite <- (Permutation_length (sortRooms_perm _)), length_map in E.
      cbn in E. lia.
Qed.

(** X6. On non-negative inputs with at most [2 ^ 32 - 1] rooms and
    [adults + seniors + children + ROOM_CAPACITY] at most [2 ^ 53],
    [distribute] returns an array, the same for every iteration bound from
    [roomCount * ROOM_CAPACITY] on, and this array is non-empty exactly when
    there is at least one room, there are at least as many adults and seniors
    together as rooms, and the people fit in [roomCount * ROOM_CAPACITY]
    places: the residual check and the two final safety checks never turn
    such an input down. *)
Theorem distribute_succeeds_iff (roomCount a s c : Z) :
  0 <= roomCount -> 0 <= a -> 0 <= s -> 0 <= c ->
  roomCount <= maxArrayLength -> a + s + c + ROOM_CAPACITY <= exactLimit ->
  exists rooms,
    (forall fuel, (Z.to_nat (roomCount * ROOM_CAPACITY) <= fuel)%nat ->
                  distribute fuel roomCount a s c = Some rooms) /\
    (rooms <> [] <->
     0 < roomCount /\ roomCount <= a + s /\
     a + s + c <= roomCount * ROOM_CAPACITY).
Proof.
  intros Hr Ha Hs Hc _ _.
  destruct (distribute_runs (Z.to_nat (roomCount * ROOM_CAPACITY))
              roomCount a s c Ha Hs Hc (Nat.le_refl _)) as [rooms H].
  exists rooms. split.
  - intros fuel Hfuel. exact (distribute_more_fuel _ fuel Hfuel _ _ _ _ _ H).
  - exact (distribute_result_nonempty_iff _ _ _ _ _ _ Hr Ha Hs Hc H).
Qed.

(** X7. Whatever the input, every room of the array returned by
    [distribute] holds at least one adult or senior. *)
Theorem distribute_rooms_anchored (fuel : nat) (roomCount a s c : Z)
    (rooms : list Room) (r : Room) :
  distribute fuel roomCount a s c = Some rooms -> In r rooms ->
  1 <= Room.adults r + Room.seniors r.
Proof.
  intros H Hin.
  destruct (distribute_room _ _ _ _ _ _ _ H Hin) as
    (b & -> & (Ha & Hs & Hc & _) & Hpos & Halone).
  unfold total in Hpos. cbn. lia.
Qed.

(** ** Seeding in closed form (phases 3 and 4) *)

Lemma seated_idle s n :
  s <= 0 -> map (seated s) (seq 0 n) = repeat RoomBox.fresh n.
Proof.
  intros Hs. generalize 0%nat as i.
  induction n as [| n IH]; intros i; cbn; [reflexivity |].
  rewrite IH. f_equal. unfold seated, RoomBox.fresh. f_equal.
  assert (0 <= Z.of_nat i * ROOM_CAPACITY) by (apply Z.mul_nonneg_nonneg; lia).
  lia.
Qed.

(** X8. [fillSeniorOnlyRooms], run on [n] fresh boxes with [s >= 0]
    seniors, seats the seniors [ROOM_CAPACITY] to a room in the order of the
    array: box [i] ends with [min ROOM_CAPACITY (max 0 (s - i * ROOM_CAPACITY))]
    seniors and nobody else, and [s - min s (n * ROOM_CAPACITY)] seniors
    remain. *)
Theorem fillSeniorOnlyRooms_in_order (n : nat) (s : Z) :
  0 <= s ->
  fillSeniorOnlyRooms (repeat RoomBox.fresh n) s =
  (map (seated s) (seq 0 n), s - Z.min s (Z.of_nat n * ROOM_CAPACITY)).
Proof.
  intros Hs.
  rewrite (surjective_pairing (fillSeniorOnlyRooms _ _)).
  rewrite fillSeniorOnlyRooms_fresh by exact Hs. f_equal.
  revert s Hs. induction n as [| n IH]; intros s Hs; [reflexivity |].
  cbn [repeat fillSeniorOnlyRooms].
  destruct (s <=? 0) eqn:Es.
  { cbn [fst]. symmetry. apply (seated_idle s (S n)). lia. }
  apply Z.leb_gt in Es.
  destruct (addSeniors (Z.min ROOM_CAPACITY s) RoomBox.fresh) as [placed r'] eqn:Ea.
  unfold addSeniors, remainingCapacity, total in Ea. cbn in Ea.
  injection Ea as <- <-.
  specialize (IH (s - Z.min (Z.min ROOM_CAPACITY s) (ROOM_CAPACITY - 0)) ltac:(lia)).
  destruct (fillSeniorOnlyRooms (repeat RoomBox.fresh n) _) as [rest m].
  cbn [fst] in *. subst rest. cbn [seq map]. f_equal.
  - unfold seated. f_equal. lia.
  - rewrite <- seq_shift, map_map. apply map_ext. intros i.
    unfold seated. f_equal.
    assert (0 <= Z.of_nat i * ROOM_CAPACITY) by (apply Z.mul_nonneg_nonneg; lia).
    replace (Z.of_nat (S i) * ROOM_CAPACITY)
      with (Z.of_nat i * ROOM_CAPACITY + ROOM_CAPACITY) by lia.
    lia.
Qed.

(** X9. [seedMixedRooms], run on [n] fresh boxes with [a >= 0] adults and
    [s >= 0] seniors, fails exactly when [a + s < n]; otherwise it gives one
    adult to each of the first [min a n] boxes, one senior to each of the
    others, nothing else to any box, and takes the anchors from the two
    counters. *)
Theorem seedMixedRooms_prefers_adults (n : nat) (a s : Z) :
  0 <= a -> 0 <= s ->
  (a + s < Z.of_nat n -> seedMixedRooms (repeat RoomBox.fresh n) a s = None) /\
  (Z.of_nat n <= a + s ->
   seedMixedRooms (repeat RoomBox.fresh n) a s =
   Some (repeat adultAnchor (Z.to_nat (Z.min a (Z.of_nat n))) ++
         repeat seniorAnchor (n - Z.to_nat (Z.min a (Z.of_nat n))),
         a - Z.min a (Z.of_nat n),
         s - (Z.of_nat n - Z.min a (Z.of_nat n)))).
Proof.
  intros Ha Hs. split; [now apply seedMixedRooms_fresh_None |].
  revert a s Ha Hs. induction n as [| n IH]; intros a s Ha Hs Hn.
  - replace (Z.min a (Z.of_nat 0)) with 0 by lia. cbn. repeat f_equal; lia.
  - cbn [repeat seedMixedRooms].
    assert (EA : snd (addAdults 1 RoomBox.fresh) = adultAnchor).
    { unfold addAdults, remainingCapacity, total, adultAnchor. cbn. f_equal. lia. }
    assert (ES : snd (addSeniors 1 RoomBox.fresh) = seniorAnchor).
    { unfold addSeniors, remainingCapacity, total, seniorAnchor. cbn. f_equal. lia. }
    destruct (a >? 0) eqn:Ea.
    + rewrite (IH (a - 1) s) by lia. rewrite EA.
      replace (a - Z.min a (Z.of_nat (S n)))
        with (a - 1 - Z.min (a - 1) (Z.of_nat n)) by lia.
      replace (s - (Z.of_nat (S n) - Z.min a (Z.of_nat (S n))))
        with (s - (Z.of_nat n - Z.min (a - 1) (Z.of_nat n))) by lia.
      replace (Z.to_nat (Z.min a (Z.of_nat (S n))))
        with (S (Z.to_nat (Z.min (a - 1) (Z.of_nat n)))) by lia.
      reflexivity.
    + destruct (s >? 0) eqn:Es; [| lia].
      rewrite (IH a (s - 1)) by lia. rewrite ES.
      assert (a = 0) as -> by lia.
      replace (Z.min 0 (Z.of_nat (S n))) with 0 by lia.
      replace (Z.min 0 (Z.of_nat n)) with 0 by lia.
      replace (s - (Z.of_nat (S n) - 0)) with (s - 1 - (Z.of_nat n - 0)) by lia.
      cbn [Z.to_nat]. rewrite !Nat.sub_0_r. reflexivity.
Qed.

(** ** Seniors stay grouped *)

Lemma finish_nonempty ra rs rc so mx :
  finish ra rs rc so mx <> [] ->
  finish ra rs rc so mx = sortRooms compareRooms (map toRoom (mx ++ so)).
Proof.
  unfold finish.
  destruct ((ra >? 0) || (rs >? 0) || (rc >? 0)); [contradiction |].
  destruct (existsb (fun r => total r <=? 0) (mx ++ so)); [contradiction |].
  destruct (existsb _ (mx ++ so)); [contradiction | reflexivity].
Qed.

Lemma servedWhile_full k keep r r' :
  (forall r, keep r = true -> hasSpace r = true) ->
  servedWhile k keep r r' -> full r -> r' = r.
Proof.
  intros Hk (K & _) Hf. apply K. destruct (keep r) eqn:E; [| reflexivity].
  apply Hk, hasSpace_space in E. unfold full in Hf. lia.
Qed.

Lemma full_stays_trans (r1 r2 r3 : RoomBox) :
  (full r1 -> r2 = r1) -> (full r2 -> r3 = r2) -> full r1 -> r3 = r1.
Proof. intros H1 H2 Hf. pose proof (H1 Hf) as E. subst r2. auto. Qed.

Lemma phase_full_stays k keep l l' :
  (forall r, keep r = true -> hasSpace r = true) ->
  Forall2 (servedWhile k keep) l l' ->
  Forall2 (fun r r' => full r -> r' = r) l l'.
Proof.
  intros Hk. induction 1; constructor; [| assumption].
  intros Hf. eapply servedWhile_full; eassumption.
Qed.

Lemma count_full_seniors_filled n : forall s,
  0 <= s ->
  Z.min (Z.of_nat n) (s / ROOM_CAPACITY) <=
  Z.of_nat (length (filter (fun b => seniorsOnlyFull (toRoom b))
                           (fst (fillSeniorOnlyRooms (repeat RoomBox.fresh n) s)))).
Proof.
  induction n as [| n IH]; intros s Hs.
  - cbn. pose proof (Z.div_pos s ROOM_CAPACITY Hs capacity_positive). lia.
  - destruct (Z_lt_le_dec s ROOM_CAPACITY) as [Hlt | Hge].
    { rewrite Z.div_small by lia. lia. }
    cbn [repeat fillSeniorOnlyRooms].
    destruct (s <=? 0) eqn:Es; [lia |].
    destruct (addSeniors (Z.min ROOM_CAPACITY s) RoomBox.fresh) as [placed r'] eqn:Ea.
    unfold addSeniors, remainingCapacity, total in Ea. cbn in Ea.
    injection Ea as <- <-.
    replace (Z.min (Z.min ROOM_CAPACITY s) (ROOM_CAPACITY - 0))
      with ROOM_CAPACITY by lia.
    specialize (IH (s - ROOM_CAPACITY) ltac:(lia)).
    destruct (fillSeniorOnlyRooms (repeat RoomBox.fresh n) (s - ROOM_CAPACITY))
      as [rest m].
    cbn [fst filter] in *.
    replace (seniorsOnlyFull (toRoom _)) with true
      by (unfold seniorsOnlyFull, toRoom; cbn; rewrite Z.eqb_refl; reflexivity).
    cbn [length].
    replace (s / ROOM_CAPACITY) with ((s - ROOM_CAPACITY) / ROOM_CAPACITY + 1).
    + lia.
    + replace s with (s - ROOM_CAPACITY + 1 * ROOM_CAPACITY) at 2 by lia.
      rewrite Z.div_add by lia. reflexivity.
Qed.

Lemma count_full_seniors_stay l l' :
  Forall2 (fun r r' => full r -> r' = r) l l' ->
  (length (filter (fun b => seniorsOnlyFull (toRoom b)) l) <=
   length (filter (fun b => seniorsOnlyFull (toRoom b)) l'))%nat.
Proof.
  induction 1 as [| r r' l l' Hr _ IH]; [reflexivity |].
  cbn [filter]. destruct (seniorsOnlyFull (toRoom r)) eqn:E.
  - assert (Hf : full r).
    { unfold seniorsOnlyFull, toRoom in E. cbn in E.
      unfold full, remainingCapacity, total. lia. }
    rewrite (Hr Hf), E. cbn. lia.
  - destruct (seniorsOnlyFull (toRoom r')); cbn; lia.
Qed.

Lemma count_perm (f : Room -> bool) l l' :
  Permutation l l' -> length (filter f l) = length (filter f l').
Proof.
  induction 1 as [| x l l' _ IH | x y l | l1 l2 l3 _ IH1 _ IH2]; cbn.
  - reflexivity.
  - destruct (f x); cbn; lia.
  - destruct (f x), (f y); reflexivity.
  - lia.
Qed.

Lemma count_snapshots (f : Room -> bool) l :
  length (filter f (map toRoom l)) = length (filter (fun b => f (toRoom b)) l).
Proof.
  induction l as [| b l IH]; [reflexivity |].
  cbn. destruct (f (toRoom b)); cbn; lia.
Qed.

(** X10. In a non-empty array returned by [distribute], at least
    [min seniorOnlyCount (floor (seniors / ROOM_CAPACITY))] rooms hold
    [ROOM_CAPACITY] seniors and nobody else, where [seniorOnlyCount] is the
    quota of [pickSeniorOnlyRoomCount]: a senior-only room filled to capacity
    in step 4 is never touched again. *)
Theorem distribute_groups_seniors (fuel : nat) (roomCount a s c : Z)
    (rooms : list Room) :
  distribute fuel roomCount a s c = Some rooms -> rooms <> [] ->
  Z.min (pickSeniorOnlyRoomCount roomCount a s c) (s / ROOM_CAPACITY) <=
  Z.of_nat (length (filter seniorsOnlyFull rooms)).
Proof.
  intros H Hne.
  destruct (Z_lt_le_dec s 0) as [Hneg | Hs].
  { assert (s / ROOM_CAPACITY < 0) by (apply Z.div_lt_upper_bound; lia). lia. }
  destruct (distribute_inv _ _ _ _ _ _ H Hne) as (_ & _ & _ & _ & _ & F & _).
  destruct (distribute_trace _ _ _ _ _ _ H F) as [[-> _] | P]; [contradiction |].
  destruct P as [so1 rs1 mx1 ra1 rs2 rs3 so2 mx2 rs4 so3 mx3 ra2 so4 mx4
                   rc1 so5 mx5 rc2 so6 mx6 Efill Eseed E1 E2 E3 E4 E5 Erooms].
  rewrite Erooms in Hne. rewrite (finish_nonempty _ _ _ _ _ Hne) in Erooms.
  subst rooms.
  rewrite <- (count_perm _ _ _ (sortRooms_perm _)), count_snapshots.
  rewrite filter_app, length_app.
  set (q := pickSeniorOnlyRoomCount roomCount a s c) in *.
  assert (Hstay : Forall2 (fun r r' => full r -> r' = r) so1 so6).
  { destruct (placeSeniorsIntoRoomsThatAlreadyHaveSeniors_loop _ _ _ _ _ _ _ E1)
      as (_ & R1 & _).
    destruct (placeSeniorsAnywhere_loop _ _ _ _ _ _ _ E2) as (_ & R2 & _).
    destruct (placeAdultsPreferMixedRooms_loop _ _ _ _ _ _ _ E3) as (_ & _ & R3 & _).
    destruct (placeChildrenIntoRoomsWithAdults_loop _ _ _ _ _ _ _ E4) as (_ & R4 & _).
    assert (R5 : Forall2 (fun r r' => full r -> r' = r) so5 so6).
    { destruct (rc1 >? 0).
      - destruct (placeChildrenIntoRoomsWithSeniors_loop _ _ _ _ _ _ _ E5)
          as (_ & R5 & _).
        eapply phase_full_stays; [| exact R5].
        intros r Hr. now apply andb_prop in Hr.
      - injection E5 as _ <- _. apply related_same. auto. }
    apply phase_full_stays in R1; [| intros r Hr; now apply andb_prop in Hr].
    apply phase_full_stays in R2; [| auto].
    apply phase_full_stays in R3; [| auto].
    apply phase_full_stays in R4; [| intros r Hr; now apply andb_prop in Hr].
    pose proof full_stays_trans as T.
    eapply related_compose; [exact T | exact R1 |].
    eapply related_compose; [exact T | exact R2 |].
    eapply related_compose; [exact T | exact R3 |].
    eapply related_compose; [exact T | exact R4 | exact R5]. }
  apply count_full_seniors_stay in Hstay.
  pose proof (count_full_seniors_filled (Z.to_nat q) s Hs) as Hfill.
  unfold freshRooms in Efill. rewrite Efill in Hfill. cbn [fst] in Hfill.
  lia.
Qed.

(** ** More on the quota, the comparator and the boxes *)

Lemma shrinkSeniorOnlyRooms_skipped roomCount a s q : forall q',
  shrinkSeniorOnlyRooms roomCount a s q < q' <= q ->
  a + (s - Z.min s (q' * ROOM_CAPACITY)) < roomCount - q'.
Proof.
  funelim (shrinkSeniorOnlyRooms roomCount a s q); intros q' Hq'.
  - destruct (_ >=? _) eqn:E; [lia |].
    destruct (Z.eq_dec q' seniorOnlyRooms) as [-> | Hd]; [lia |].
    match goal with IH : forall q', _ < q' <= _ - 1 -> _ |- _ => apply IH end. lia.
  - lia.
Qed.

(** X11. On non-negative inputs that keep the arithmetic of
    [pickSeniorOnlyRoomCount] exact ([roomCount] and
    [adults + seniors + children + ROOM_CAPACITY] at most [2 ^ 53]), the quota
    it returns is the largest
    number of senior-only rooms, not above the initial quota, for which the
    adults and the seniors left over can anchor every other room, and 0 when
    there is none: a positive result passes the test of the loop, and every
    larger candidate up to the initial quota fails it. *)
Theorem pickSeniorOnlyRoomCount_largest (roomCount a s c : Z) :
  0 <= roomCount -> 0 <= a -> 0 <= s -> 0 <= c ->
  roomCount <= exactLimit -> a + s + c + ROOM_CAPACITY <= exactLimit ->
  let initial :=
    Z.min (Z.max 0 (roomCount - ceilDiv (a + c) ROOM_CAPACITY))
          (ceilDiv s ROOM_CAPACITY) in
  let q := pickSeniorOnlyRoomCount roomCount a s c in
  q <= initial /\
  (0 <= initial -> 0 <= q) /\
  (0 < q -> roomCount - q <= a + (s - Z.min s (q * ROOM_CAPACITY))) /\
  (forall q', q < q' <= initial ->
              a + (s - Z.min s (q' * ROOM_CAPACITY)) < roomCount - q').
Proof.
  intros _ _ _ _ _ _ initial q. unfold q, pickSeniorOnlyRoomCount. fold initial.
  split; [| split; [| split]].
  - destruct (Z_lt_le_dec initial 0) as [Hn | Hp].
    + rewrite shrinkSeniorOnlyRooms_step.
      replace (initial >? 0) with false by lia. lia.
    + apply shrinkSeniorOnlyRooms_range. exact Hp.
  - intros Hp. now apply shrinkSeniorOnlyRooms_range.
  - apply shrinkSeniorOnlyRooms_anchors.
  - apply shrinkSeniorOnlyRooms_skipped.
Qed.

(** X12. For a positive integer divisor [b] and an integer [a >= 0] with
    [a + b] at most [2 ^ 53], so that [a + b - 1] and the quotient are
    computed without a rounding that changes the floor, [ceilDiv a b] is the
    least integer [k] with [a <= k * b]. *)
Theorem ceilDiv_least (a b : Z) :
  0 < b -> 0 <= a -> a + b <= exactLimit ->
  a <= ceilDiv a b * b /\ forall k, a <= k * b -> ceilDiv a b <= k.
Proof.
  intros Hb _ _. unfold ceilDiv.
  pose proof (Z.mul_div_le (a + b - 1) b Hb) as Hlo.
  pose proof (Z.mul_succ_div_gt (a + b - 1) b Hb) as Hhi.
  split; [nia |]. intros k Hk. nia.
Qed.

(** X13. The comparator given to [sort] is consistent: swapping its
    arguments negates the result, it returns 0 only on rooms with the same
    three counts, and "not after" is transitive. *)
Theorem compareRooms_consistent (r1 r2 r3 : Room) :
  compareRooms r2 r1 = - compareRooms r1 r2 /\
  (compareRooms r1 r2 = 0 <-> r1 = r2) /\
  (compareRooms r1 r2 <= 0 -> compareRooms r2 r3 <= 0 -> compareRooms r1 r3 <= 0).
Proof.
  split; [| split].
  - unfold compareRooms, orElse.
    destruct (Room.adults r2 - Room.adults r1 =? 0) eqn:E1;
      destruct (Room.adults r1 - Room.adults r2 =? 0) eqn:E2; try lia;
      destruct (Room.seniors r2 - Room.seniors r1 =? 0) eqn:E3;
      destruct (Room.seniors r1 - Room.seniors r2 =? 0) eqn:E4; lia.
  - split.
    + intros H. apply lexGe_antisym; apply compareRooms_le.
      * lia.
      * assert (E : compareRooms r2 r1 = - compareRooms r1 r2).
        { unfold compareRooms, orElse.
          destruct (Room.adults r2 - Room.adults r1 =? 0) eqn:E1;
            destruct (Room.adults r1 - Room.adults r2 =? 0) eqn:E2; try lia;
            destruct (Room.seniors r2 - Room.seniors r1 =? 0) eqn:E3;
            destruct (Room.seniors r1 - Room.seniors r2 =? 0) eqn:E4; lia. }
        lia.
    + intros ->. unfold compareRooms, orElse. rewrite !Z.sub_diag. reflexivity.
  - rewrite !compareRooms_le. apply lexGe_trans.
Qed.

(** X14. On a box within capacity, two calls of the same [add] method with
    non-negative counts [n] then [m] leave the box that one call with
    [n + m] leaves, and return in total what that call returns. *)
Theorem add_methods_compose :
  composes addAdults /\ composes addSeniors /\ composes addChildren.
Proof.
  unfold composes. repeat match goal with |- _ /\ _ => split end;
    intros n m r Hn Hm (Ha & Hs & Hc & Ht);
    unfold addAdults, addSeniors, addChildren, remainingCapacity, total in *;
    cbn in *; (split; [f_equal; lia | lia]).
Qed.

Lemma sweep_all_served (eligible : RoomBox -> bool) k add rooms :
  adds k add ->
  (forall r, eligible r = true -> hasSpace r = true) ->
  forall n p rooms' n' p',
    sweep eligible add rooms n p = (rooms', n', p') -> 0 < n' ->
    Forall2 (fun r r' => eligible r = true -> total r' = total r + 1) rooms rooms'.
Proof.
  intros Hadd Hel.
  induction rooms as [| r rooms IH]; intros n p rooms' n' p' H Hn';
    cbn [sweep] in H.
  - injection H as <- <- <-. constructor.
  - destruct (n <=? 0) eqn:En; [injection H as <- <- <-; lia |].
    destruct (eligible r) eqn:Ee.
    + destruct (sweep eligible add rooms (n - 1) true) as [[rest m] q] eqn:Es.
      injection H as <- <- <-. constructor; [| eauto].
      intros _. rewrite (adds_total k add 1 r Hadd).
      apply Hel, hasSpace_space in Ee. lia.
    + destruct (sweep eligible add rooms n p) as [[rest m] q] eqn:Es.
      injection H as <- <- <-. constructor; [congruence | eauto].
Qed.

(** X15. One [for] pass over an array, started with [n >= 0] people to
    place, gives at most one person to each box, and only to boxes that pass
    the test; it places exactly [n - n'] people; and if somebody is still left
    after the pass, every box that passed the test got one. *)
Theorem sweep_fair (k : Category) (eligible : RoomBox -> bool)
    (add : Z -> RoomBox -> Z * RoomBox) (rooms : list RoomBox) (n : Z) (p : bool)
    (rooms' : list RoomBox) (n' : Z) (p' : bool) :
  adds k add ->
  (forall r, eligible r = true -> hasSpace r = true) ->
  0 <= n ->
  sweep eligible add rooms n p = (rooms', n', p') ->
  0 <= n' <= n /\
  occupancy rooms' = occupancy rooms + (n - n') /\
  Forall2 (fun r r' => r' = r \/
                       (eligible r = true /\ field k r' = field k r + 1 /\
                        total r' = total r + 1)) rooms rooms' /\
  (0 < n' ->
   Forall2 (fun r r' => eligible r = true -> total r' = total r + 1) rooms rooms').
Proof.
  intros Hadd Hel Hn H.
  assert (Hsp : forall r, eligible r = true -> 0 < remainingCapacity r)
    by (intros r Hr; now apply hasSpace_space, Hel).
  destruct (sweep_progress k eligible add Hadd Hsp _ _ _ _ _ _ H) as (Hle & Hocc & _).
  pose proof (sweep_nonneg _ _ _ _ _ _ _ _ H Hn) as Hpos.
  split; [lia |]. split; [exact Hocc |]. split.
  - pose proof (sweep_served _ _ _ _ _ _ _ _ H) as Hs.
    clear - Hs Hadd Hsp. induction Hs as [| r r' l l' Hr _ IH]; constructor; [| exact IH].
    destruct Hr as [-> | [He ->]]; [now left | right].
    destruct (add_one k eligible add Hadd Hsp r He) as (_ & Hf & Ht).
    split; [exact He |]. split; [| exact Ht].
    rewrite Hf. unfold credit. destruct k; reflexivity.
  - eapply sweep_all_served; eassumption.
Qed.

(** ** Children go to the rooms with adults first *)

Lemma fillSeniorOnlyRooms_no_children rooms : forall s,
  Forall (fun r => RoomBox.children r = 0) rooms ->
  Forall (fun r => RoomBox.children r = 0) (fst (fillSeniorOnlyRooms rooms s)).
Proof.
  induction rooms as [| r rooms IH]; intros s HF; [constructor |].
  cbn [fillSeniorOnlyRooms]. destruct (s <=? 0); [exact HF |].
  inversion HF as [| ? ? Hr Hrest]. subst.
  destruct (addSeniors (Z.min ROOM_CAPACITY s) r) as [placed r'] eqn:Ea.
  specialize (IH (s - placed) Hrest).
  destruct (fillSeniorOnlyRooms rooms (s - placed)) as [rest m].
  cbn [fst] in *. constructor; [| exact IH].
  unfold addSeniors in Ea. injection Ea as _ <-. exact Hr.
Qed.

Lemma seedMixedRooms_no_children rooms : forall a s rooms' a' s',
  seedMixedRooms rooms a s = Some (rooms', a', s') ->
  Forall (fun r => RoomBox.children r = 0) rooms ->
  Forall (fun r => RoomBox.children r = 0) rooms'.
Proof.
  induction rooms as [| r rooms IH]; intros a s rooms' a' s' H HF;
    cbn [seedMixedRooms] in H.
  - injection H as <- <- <-. constructor.
  - inversion HF as [| ? ? Hr Hrest]. subst.
    destruct (a >? 0).
    + destruct (seedMixedRooms rooms (a - 1) s) as [[[rest x] y] |] eqn:Es;
        [| discriminate].
      injection H as <- <- <-. constructor; [exact Hr | eauto].
    + destruct (s >? 0); [| discriminate].
      destruct (seedMixedRooms rooms a (s - 1)) as [[[rest x] y] |] eqn:Es;
        [| discriminate].
      injection H as <- <- <-. constructor; [exact Hr | eauto].
Qed.

Lemma servedWhile_no_children k keep r r' :
  same k Child = false ->
  servedWhile k keep r r' -> RoomBox.children r = 0 -> RoomBox.children r' = 0.
Proof. intros Hk (_ & _ & O) H. specialize (O Child Hk). cbn in O. lia. Qed.

Lemma adult_rooms_stay_full r r' :
  servedWhile Child (fun r => hasSeniors r && hasSpace r) r r' ->
  (hasAdults r = true -> full r) -> hasAdults r' = true -> full r'.
Proof.
  intros (K & _ & O) P.
  destruct (hasSeniors r && hasSpace r) eqn:El; [| now rewrite (K eq_refl)].
  apply andb_prop in El. destruct El as [_ Hsp].
  intros Had. unfold hasAdults in *. pose proof (O Adult eq_refl) as EA.
  cbn in EA. rewrite EA in Had. apply P in Had.
  apply hasSpace_false_full in Had. congruence.
Qed.

Lemma child_with_adult r r' :
  servedWhile Child (fun r => hasAdults r && hasSpace r) r r' ->
  (0 < RoomBox.children r -> 0 < RoomBox.adults r) ->
  0 < RoomBox.children r' -> 0 < RoomBox.adults r'.
Proof.
  intros (K & _ & O) P Hc.
  destruct (hasAdults r && hasSpace r) eqn:El.
  - apply andb_prop in El. destruct El as [Had _].
    pose proof (O Adult eq_refl) as EA. cbn in EA. unfold hasAdults in Had. lia.
  - rewrite (K eq_refl) in *. auto.
Qed.

(** X16. In the array returned by [distribute], either every room that
    holds an adult is full, or every room that holds a child holds an adult:
    children are placed with seniors alone only once the rooms with adults
    have no place left. *)
Theorem distribute_children_with_adults_first (fuel : nat) (roomCount a s c : Z)
    (rooms : list Room) :
  distribute fuel roomCount a s c = Some rooms ->
  Forall (fun r => 0 < Room.adults r ->
                   Room.adults r + Room.seniors r + Room.children r = ROOM_CAPACITY)
         rooms \/
  Forall (fun r => 0 < Room.children r -> 0 < Room.adults r) rooms.
Proof.
  intros H.
  destruct rooms as [| r0 rooms0] eqn:Erooms; [left; constructor |].
  rewrite <- Erooms in *. assert (Hne : rooms <> []) by (rewrite Erooms; discriminate).
  clear Erooms r0 rooms0.
  destruct (distribute_inv _ _ _ _ _ _ H Hne) as (_ & _ & _ & _ & _ & F & _).
  destruct (distribute_trace _ _ _ _ _ _ H F) as [[-> _] | P]; [contradiction |].
  destruct P as [so1 rs1 mx1 ra1 rs2 rs3 so2 mx2 rs4 so3 mx3 ra2 so4 mx4
                   rc1 so5 mx5 rc2 so6 mx6 Efill Eseed E1 E2 E3 E4 E5 Erooms].
  pose proof Hne as Hne'. rewrite Erooms in Hne'.
  rewrite (finish_nonempty _ _ _ _ _ Hne') in Erooms.
  (* no child is seated before the children phases *)
  assert (C0 : Forall (fun r => RoomBox.children r = 0) (so1 ++ mx1)).
  { apply Forall_app. split.
    - replace so1 with (fst (fillSeniorOnlyRooms
                               (freshRooms (pickSeniorOnlyRoomCount roomCount a s c)) s))
        by now rewrite Efill.
      apply fillSeniorOnlyRooms_no_children.
      eapply Forall_impl; [| apply freshRooms_fresh]. now intros r ->.
    - eapply seedMixedRooms_no_children; [exact Eseed |].
      eapply Forall_impl; [| apply freshRooms_fresh]. now intros r ->. }
  destruct (placeSeniorsIntoRoomsThatAlreadyHaveSeniors_loop _ _ _ _ _ _ _ E1)
    as (_ & R1so & R1mx).
  destruct (placeSeniorsAnywhere_loop _ _ _ _ _ _ _ E2) as (_ & R2so & R2mx).
  destruct (placeAdultsPreferMixedRooms_loop _ _ _ _ _ _ _ E3) as (_ & _ & R3so & R3mx).
  destruct (placeChildrenIntoRoomsWithAdults_loop _ _ _ _ _ _ _ E4) as (X4 & R4so & R4mx).
  pose proof (phase_Forall _ _ _ _ _ _ _
                (fun r r' => servedWhile_no_children Senior _ r r' eq_refl) R1so R1mx C0) as C1.
  pose proof (phase_Forall _ _ _ _ _ _ _
                (fun r r' => servedWhile_no_children Senior _ r r' eq_refl) R2so R2mx C1) as C2.
  pose proof (phase_Forall _ _ _ _ _ _ _
                (fun r r' => servedWhile_no_children Adult _ r r' eq_refl) R3so R3mx C2) as C3.
  assert (Q4 : Forall (fun r => 0 < RoomBox.children r -> 0 < RoomBox.adults r)
                      (so5 ++ mx5)).
  { eapply (phase_Forall _ _ _ _ _ _ _ child_with_adult R4so R4mx).
    eapply Forall_impl; [| exact C3]. intros r Hr Hpos. cbn beta in Hr. lia. }
  assert (Hboxes :
    Forall (fun r => hasAdults r = true -> full r) (so6 ++ mx6) \/
    Forall (fun r => 0 < RoomBox.children r -> 0 < RoomBox.adults r) (so6 ++ mx6)).
  { destruct (rc1 >? 0) eqn:Epos.
    - left. destruct X4 as [-> | HA4]; [discriminate |].
      destruct (placeChildrenIntoRoomsWithSeniors_loop _ _ _ _ _ _ _ E5)
        as (_ & R5so & R5mx).
      exact (phase_Forall _ _ _ _ _ _ _ adult_rooms_stay_full R5so R5mx HA4).
    - right. injection E5 as _ <- <-. exact Q4. }
  assert (Hcap : forall r, In r rooms ->
            Room.adults r + Room.seniors r + Room.children r <= ROOM_CAPACITY).
  { intros r Hin.
    destruct (distribute_room _ _ _ _ _ _ _ H Hin) as (b & -> & (_ & _ & _ & Ht) & _).
    exact Ht. }
  assert (Hin : forall r, In r rooms -> exists b, In b (so6 ++ mx6) /\ r = toRoom b).
  { intros r Hr. rewrite Erooms in Hr.
    apply (Permutation_in _ (Permutation_sym (sortRooms_perm _))) in Hr.
    apply in_map_iff in Hr. destruct Hr as (b & <- & Hb).
    exists b. split; [| reflexivity]. rewrite in_app_iff in *. tauto. }
  destruct Hboxes as [HA | HQ]; [left | right]; apply Forall_forall; intros r Hr.
  - intros Had. destruct (Hin r Hr) as (b & Hb & ->).
    rewrite Forall_forall in HA. specialize (HA b Hb).
    specialize (Hcap _ Hr). cbn in *.
    assert (Hf : full b) by (apply HA; unfold hasAdults; lia).
    unfold full, remainingCapacity, total in Hf. lia.
  - destruct (Hin r Hr) as (b & Hb & ->).
    rewrite Forall_forall in HQ. exact (HQ b Hb).
Qed.

End Allocation.

(** ** The allocator at the default capacity *)

Example distribute_example :
  distribute defaultCapacity 8 2 2 2 1 = Some exampleRooms.
Proof. reflexivity. Qed.

(** On the same run the binary64 embedding takes the steps of the integer
    one: the input is feasible, the quota is 1, and one senior-only and one
    mixed room are created. *)
Example prelude64_example :
  isFeasible defaultCapacity 2 2 2 1 = true /\
  pickSeniorOnlyRoomCount defaultCapacity 2 2 2 1 = 1 /\
  prelude64 8 4 2 2 2 1 = Some (Builds 1 1).
Proof. repeat split. Qed.

(** The two embeddings agree on the 1296 inputs with every argument below 6,
    and at the edge of the exact range: on the largest number of rooms with
    [2 ^ 53 - 4] seniors or adults, and for [ceilDiv a b] with
    [a + b = 2 ^ 53] and a divisor up to 64. *)
Example embeddings_agree :
  forallb (fun '(roomCount, a, s, c) => agrees64 defaultCapacity 8 roomCount a s c)
          (inputsBelow 6) = true /\
  agrees64 defaultCapacity 8 maxArrayLength 0 (exactLimit - 4) 0 = true /\
  agrees64 defaultCapacity 8 maxArrayLength (exactLimit - 4) 0 0 = true /\
  forallb (fun b => PrimFloat.eqb (ceilDiv64 (number (exactLimit - b)) (number b))
                                  (number (ceilDiv (exactLimit - b) b)))
          (map Z.of_nat (seq 1 64)) = true.
Proof. split; [| split; [| split]]; vm_compute; reflexivity. Qed.

Example floor64_example :
  floor64 2.5 = 2%float /\ floor64 (-2.5) = (-3)%float /\
  floor64 0.75 = 0%float /\ floor64 3 = 3%float /\
  ceilDiv64 9 4 = 3%float /\ ceilDiv64 8 4 = 2%float /\ ceilDiv64 0 4 = 0%float.
Proof. repeat split. Qed.

(** C6. The anchor loop does reach a mixed room with no adult and no senior
    left on an input that passes [isFeasible]: with 2 rooms, 1 adult, no
    senior and 1 child the quota is 0, both rooms are mixed, the first takes
    the adult and the second finds both counters at 0; [distribute] returns
    the empty array through the branch that the source comments as
    unreachable. *)
Theorem anchor_dead_end_reached :
  isFeasible defaultCapacity 2 1 0 1 = true /\
  pickSeniorOnlyRoomCount defaultCapacity 2 1 0 1 = 0 /\
  fillSeniorOnlyRooms defaultCapacity (freshRooms 0) 0 = ([], 0) /\
  seedMixedRooms defaultCapacity (freshRooms (2 - 0)) 1 0 = None /\
  forall fuel, distribute defaultCapacity fuel 2 1 0 1 = Some [].
Proof.
  split; [reflexivity |]. split; [reflexivity |]. split; [reflexivity |].
  split; [reflexivity |]. intros fuel. reflexivity.
Qed.

Lemma add_methods_saturate_witness :
  let r := RoomBox.mk 1 1 1 in
  (box_ok defaultCapacity r /\ 0 <= 3) /\
  addAdults defaultCapacity 3 r = (1, RoomBox.mk 2 1 1) /\
  addSeniors defaultCapacity 3 r = (1, RoomBox.mk 1 2 1) /\
  addChildren defaultCapacity 3 r = (1, RoomBox.mk 1 1 2) /\
  add_spec defaultCapacity RoomBox.adults RoomBox.seniors RoomBox.children
           3 r (addAdults defaultCapacity 3 r).
Proof.
  intros r.
  assert (Hok : box_ok defaultCapacity r) by (vm_compute; repeat split; discriminate).
  assert (Hn : 0 <= 3) by discriminate.
  split; [split; assumption |].
  repeat split; try reflexivity;
    apply (add_methods_saturate defaultCapacity 3 r Hok Hn).
Defined.

Lemma distribute_rejects_infeasible_witness :
  (0 <= 3 /\ 0 <= 1 /\ 0 <= 1 /\ 3 + 1 + 1 <= exactLimit /\
   (1 <= 0 \/ 3 + 1 + 1 < 1 \/ 3 + 1 + 1 > 1 * defaultCapacity \/
    (1 > 0 /\ 3 + 1 = 0))) /\
  distribute defaultCapacity 0 1 3 1 1 = Some [].
Proof.
  assert (Ha : 0 <= 3) by discriminate.
  assert (Hs : 0 <= 1) by discriminate.
  assert (Hsum : 3 + 1 + 1 <= exactLimit) by (vm_compute; discriminate).
  assert (H : 1 <= 0 \/ 3 + 1 + 1 < 1 \/ 3 + 1 + 1 > 1 * defaultCapacity \/
              (1 > 0 /\ 3 + 1 = 0)) by (right; right; left; reflexivity).
  split; [repeat (split; [assumption |]); exact H |].
  exact (distribute_rejects_infeasible defaultCapacity 0 1 3 1 1 Ha Hs Hs Hsum H).
Defined.

(** C4 fails above the exact range.  For [distribute(2^51, 2^53, 1, 0)] with
    [ROOM_CAPACITY = 4] there are [2^53 + 1] people for [2^53] places, yet in
    binary64 the sum rounds to [2^53], [isFeasible] answers [true], and
    [distribute] does not return the empty array: it throws a RangeError when
    it creates the [2^51] mixed rooms. *)
Lemma distribute_accepts_rounded_total :
  2 ^ 53 + 1 + 0 > 2 ^ 51 * defaultCapacity /\
  isFeasible defaultCapacity (2 ^ 51) (2 ^ 53) 1 0 = false /\
  isFeasible64 4 0x1p51 0x1p53 1 0 = true /\
  forall fuel, prelude64 fuel 4 0x1p51 0x1p53 1 0 = Some ThrowsRangeError.
Proof.
  split; [reflexivity |]. split; [reflexivity |]. split; [reflexivity |].
  intros [| fuel]; reflexivity.
Qed.

Lemma distribute_sorted_descending_witness :
  (distribute defaultCapacity 8 2 2 2 1 = Some exampleRooms /\
   nth_error exampleRooms 0 = Some (Room.mk 2 0 1) /\
   nth_error exampleRooms 1 = Some (Room.mk 0 2 0)) /\
  (2 > 0 \/ (2 = 0 /\ 0 > 2) \/ (2 = 0 /\ 0 = 2 /\ 1 >= 0)).
Proof.
  split; [repeat split |].
  exact (distribute_sorted_descending defaultCapacity 8 2 2 2 1 exampleRooms 0
           (Room.mk 2 0 1) (Room.mk 0 2 0) eq_refl eq_refl eq_refl).
Defined.

Lemma pickSeniorOnlyRoomCount_refines_witness :
  (0 < defaultCapacity /\ 0 < 3 /\ 0 <= 1 /\ 0 <= 1 /\ 0 <= 1 /\
   3 <= exactLimit /\ 1 + 1 + 1 + defaultCapacity <= exactLimit) /\
  specInitialQuota defaultCapacity 3 1 1 1 = 1 /\
  pickSeniorOnlyRoomCount defaultCapacity 3 1 1 1 = 0 /\
  specShrinksTo defaultCapacity 3 1 1 1 0 /\
  0 <= 0 <= 3.
Proof.
  split; [repeat split; vm_compute; discriminate |].
  split; [reflexivity |]. split; [reflexivity |].
  exact (pickSeniorOnlyRoomCount_refines defaultCapacity eq_refl 3 1 1 1
           eq_refl ltac:(discriminate) ltac:(discriminate) ltac:(discriminate)
           ltac:(vm_compute; discriminate) ltac:(vm_compute; discriminate)).
Defined.

(** C7 fails above the exact range.  For
    [pickSeniorOnlyRoomCount(2^51 + 1, 0, 2^53, 0)] with [ROOM_CAPACITY = 4]
    the procedure of the specification starts from a quota of [2^51] and
    decrements it once, to [2^51 - 1]; in binary64 [2^53 + 4 - 1] rounds up,
    [ceilDiv] gives [2^51 + 1], the loop stops at once and the function
    returns [2^51 + 1]. *)
Lemma pickSeniorOnlyRoomCount_exceeds_spec :
  specInitialQuota defaultCapacity (2 ^ 51 + 1) 0 (2 ^ 53) 0 = 2 ^ 51 /\
  specShrinksTo defaultCapacity (2 ^ 51 + 1) 0 (2 ^ 53) (2 ^ 51) (2 ^ 51 - 1) /\
  ceilDiv64 0x1p53 4 = (0x1p51 + 1)%float /\
  (forall fuel,
     pickSeniorOnlyRoomCount64 (S fuel) 4 (0x1p51 + 1) 0 0x1p53 0
     = Some (0x1p51 + 1)%float) /\
  (0x1p51 + 1 =? 0x1p51 - 1)%float = false.
Proof.
  split; [reflexivity |].
  split.
  { apply shrink_more.
    - unfold specMustShrink. vm_compute. split; reflexivity.
    - apply shrink_done. unfold specMustShrink. vm_compute.
      intros [_ H]. discriminate H. }
  split; [reflexivity |]. split; [| reflexivity].
  intros fuel. reflexivity.
Qed.

Lemma distribute_conserves_people_witness :
  (0 < defaultCapacity /\ 0 <= 2 /\ 0 <= 2 /\ 0 <= 2 /\ 0 <= 1 /\
   distribute defaultCapacity 8 2 2 2 1 = Some exampleRooms /\
   exampleRooms <> []) /\
  sumOver Room.adults exampleRooms = 2 /\
  sumOver Room.seniors exampleRooms = 2 /\
  sumOver Room.children exampleRooms = 1.
Proof.
  split; [repeat split; discriminate |].
  exact (distribute_conserves_people defaultCapacity eq_refl 8 2 2 2 1 exampleRooms
           ltac:(discriminate) ltac:(discriminate) ltac:(discriminate)
           ltac:(discriminate) eq_refl ltac:(discriminate)).
Defined.

Lemma distribute_children_chaperoned_witness :
  (0 < defaultCapacity /\
   distribute defaultCapacity 8 2 2 2 1 = Some exampleRooms /\
   In (Room.mk 2 0 1) exampleRooms /\ 1 > 0) /\
  2 + 0 >= 1.
Proof.
  split; [repeat split; now left |].
  exact (distribute_children_chaperoned defaultCapacity eq_refl 8 2 2 2 1
           exampleRooms (Room.mk 2 0 1) eq_refl (or_introl eq_refl) eq_refl).
Defined.

Lemma distribute_rooms_within_capacity_witness :
  (0 < defaultCapacity /\
   distribute defaultCapacity 8 2 2 2 1 = Some exampleRooms /\
   In (Room.mk 0 2 0) exampleRooms) /\
  1 <= 0 + 2 + 0 <= defaultCapacity /\ 0 <= 0 /\ 0 <= 2 /\ 0 <= 0.
Proof.
  split; [repeat split; right; now left |].
  exact (distribute_rooms_within_capacity defaultCapacity eq_refl 8 2 2 2 1
           exampleRooms (Room.mk 0 2 0) eq_refl (or_intror (or_introl eq_refl))).
Defined.

Lemma distribute_returns_roomCount_rooms_witness :
  (0 < defaultCapacity /\ 0 <= 2 /\ 0 <= 2 /\ 0 <= 2 /\ 0 <= 1 /\
   distribute defaultCapacity 8 2 2 2 1 = Some exampleRooms /\
   exampleRooms <> []) /\
  Z.of_nat (length exampleRooms) = 2.
Proof.
  split; [repeat split; discriminate |].
  exact (distribute_returns_roomCount_rooms defaultCapacity eq_refl 8 2 2 2 1
           exampleRooms ltac:(discriminate) ltac:(discriminate) ltac:(discriminate)
           ltac:(discriminate) eq_refl ltac:(discriminate)).
Defined.

Lemma distribute_terminates_witness :
  (0 < defaultCapacity /\ 0 <= 2 /\ 0 <= 2 /\ 0 <= 2 /\ 0 <= 1 /\
   2 <= maxArrayLength /\ 2 + 2 + 1 + defaultCapacity <= exactLimit) /\
  exists rooms,
    forall fuel, (Z.to_nat (2 * defaultCapacity) <= fuel)%nat ->
                 distribute defaultCapacity fuel 2 2 2 1 = Some rooms.
Proof.
  split; [repeat split; vm_compute; discriminate |].
  exact (proj1 (distribute_terminates defaultCapacity eq_refl 2 2 2 1
                  ltac:(discriminate) ltac:(discriminate) ltac:(discriminate)
                  ltac:(discriminate)
                  ltac:(vm_compute; discriminate) ltac:(vm_compute; discriminate))).
Defined.

(** At a quota of [2^55] the decrement [seniorOnlyRooms--] changes nothing in
    binary64, so the loop of [pickSeniorOnlyRoomCount] makes no progress on
    [(2^57, 0, 2^57, 0)], whatever the number of iterations allowed. *)
Lemma shrinkSeniorOnlyRooms64_stuck (fuel : nat) :
  shrinkSeniorOnlyRooms64 fuel 4 0x1p57 0 0x1p57 0x1p55 = None.
Proof.
  induction fuel as [| fuel IH]; [reflexivity |].
  change (shrinkSeniorOnlyRooms64 (S fuel) 4 0x1p57 0 0x1p57 0x1p55)
    with (shrinkSeniorOnlyRooms64 fuel 4 0x1p57 0 0x1p57 (0x1p55 - 1)%float).
  change (0x1p55 - 1)%float with 0x1p55%float.
  exact IH.
Qed.

(** C9 fails above the exact range.  [distribute(2^57, 0, 2^57, 0)] with
    [ROOM_CAPACITY = 4] passes [isFeasible], the initial quota is [2^55], and
    the loop of [pickSeniorOnlyRoomCount] never exits: no number of
    iterations yields a quota, so [distribute] does not terminate.  With
    more than [2^32 - 1] rooms a run that leaves this loop does not reach the
    placement phases either: [distribute(2^32, 2^32, 0, 0)] is stopped by the
    RangeError of [Array.from]. *)
Lemma distribute_spins_in_quota_loop :
  isFeasible64 4 0x1p57 0 0x1p57 0 = true /\
  (forall fuel, pickSeniorOnlyRoomCount64 fuel 4 0x1p57 0 0x1p57 0 = None) /\
  (forall fuel, prelude64 fuel 4 0x1p57 0 0x1p57 0 = None) /\
  (forall fuel, prelude64 fuel 4 0x1p32 0x1p32 0 0 = Some ThrowsRangeError).
Proof.
  assert (Hpick : forall fuel,
            pickSeniorOnlyRoomCount64 fuel 4 0x1p57 0 0x1p57 0 = None).
  { intros fuel.
    change (pickSeniorOnlyRoomCount64 fuel 4 0x1p57 0 0x1p57 0)
      with (shrinkSeniorOnlyRooms64 fuel 4 0x1p57 0 0x1p57 0x1p55).
    apply shrinkSeniorOnlyRooms64_stuck. }
  split; [reflexivity |]. split; [exact Hpick |]. split.
  - intros fuel. unfold prelude64.
    change (isFeasible64 4 0x1p57 0 0x1p57 0) with true.
    cbn [negb]. rewrite Hpick. reflexivity.
  - intros [| fuel]; reflexivity.
Qed.

(** ** The placement helpers at the default capacity *)

Ltac boxes_ok :=
  repeat (apply Forall_cons || apply Forall_nil);
  unfold box_ok, total; cbn; repeat split; discriminate.

Lemma placeSeniorsIntoRoomsThatAlreadyHaveSeniors_groups_witness :
  let so := [RoomBox.mk 0 2 0] in
  let mx := [RoomBox.mk 1 0 0; RoomBox.mk 0 1 0] in
  let so' := [RoomBox.mk 0 4 0] in
  let mx' := [RoomBox.mk 1 0 0; RoomBox.mk 0 2 0] in
  (0 <= 3 /\ Forall (box_ok defaultCapacity) (so ++ mx) /\
   placeSeniorsIntoRoomsThatAlreadyHaveSeniors defaultCapacity 8 3 so mx
   = Some (0, so', mx')) /\
  placed defaultCapacity Senior
         (fun r => hasSeniors r && hasSpace defaultCapacity r) 3 so mx 0 so' mx' /\
  (0 = 0 \/
   Forall (fun r => 0 < RoomBox.seniors r -> full defaultCapacity r) (so' ++ mx')).
Proof.
  intros so mx so' mx'.
  assert (Hc : 0 <= 3) by discriminate.
  assert (Hok : Forall (box_ok defaultCapacity) (so ++ mx)) by boxes_ok.
  split; [repeat split; assumption |].
  exact (placeSeniorsIntoRoomsThatAlreadyHaveSeniors_groups defaultCapacity 8 3
           so mx 0 so' mx' Hc Hok eq_refl).
Defined.

Lemma placeSeniorsAnywhere_fills_witness :
  let so := [RoomBox.mk 0 4 0] in
  let mx := [RoomBox.mk 1 0 0; RoomBox.mk 0 1 0] in
  let so' := [RoomBox.mk 0 4 0] in
  let mx' := [RoomBox.mk 1 3 0; RoomBox.mk 0 4 0] in
  (0 <= 9 /\ Forall (box_ok defaultCapacity) (so ++ mx) /\
   placeSeniorsAnywhere defaultCapacity 8 9 so mx = Some (3, so', mx')) /\
  placed defaultCapacity Senior (hasSpace defaultCapacity) 9 so mx 3 so' mx' /\
  (3 = 0 \/ Forall (full defaultCapacity) (so' ++ mx')).
Proof.
  intros so mx so' mx'.
  assert (Hc : 0 <= 9) by discriminate.
  assert (Hok : Forall (box_ok defaultCapacity) (so ++ mx)) by boxes_ok.
  split; [repeat split; assumption |].
  exact (placeSeniorsAnywhere_fills defaultCapacity 8 9 so mx 3 so' mx'
           Hc Hok eq_refl).
Defined.

Lemma placeAdultsPreferMixedRooms_prefers_mixed_witness :
  let mx := [RoomBox.mk 1 1 0] in
  let so := [RoomBox.mk 0 2 0] in
  let so' := [RoomBox.mk 2 2 0] in
  let mx' := [RoomBox.mk 3 1 0] in
  (0 <= 4 /\ Forall (box_ok defaultCapacity) (so ++ mx) /\
   placeAdultsPreferMixedRooms defaultCapacity 8 4 mx so = Some (0, so', mx')) /\
  placed defaultCapacity Adult (hasSpace defaultCapacity) 4 so mx 0 so' mx' /\
  (0 = 0 \/ Forall (full defaultCapacity) (so' ++ mx')) /\
  (so' = so \/ Forall (full defaultCapacity) mx').
Proof.
  intros mx so so' mx'.
  assert (Hc : 0 <= 4) by discriminate.
  assert (Hok : Forall (box_ok defaultCapacity) (so ++ mx)) by boxes_ok.
  split; [repeat split; assumption |].
  exact (placeAdultsPreferMixedRooms_prefers_mixed defaultCapacity 8 4 mx so
           0 so' mx' Hc Hok eq_refl).
Defined.

Lemma placeChildrenIntoRoomsWithAdults_chaperoned_witness :
  let mx := [RoomBox.mk 3 0 0; RoomBox.mk 0 1 0] in
  let so := [RoomBox.mk 0 4 0] in
  let so' := [RoomBox.mk 0 4 0] in
  let mx' := [RoomBox.mk 3 0 1; RoomBox.mk 0 1 0] in
  (0 <= 3 /\ Forall (box_ok defaultCapacity) (so ++ mx) /\
   placeChildrenIntoRoomsWithAdults defaultCapacity 8 3 mx so
   = Some (2, so', mx')) /\
  placed defaultCapacity Child
         (fun r => hasAdults r && hasSpace defaultCapacity r) 3 so mx 2 so' mx' /\
  (2 = 0 \/
   Forall (fun r => 0 < RoomBox.adults r -> full defaultCapacity r) (so' ++ mx')).
Proof.
  intros mx so so' mx'.
  assert (Hc : 0 <= 3) by discriminate.
  assert (Hok : Forall (box_ok defaultCapacity) (so ++ mx)) by boxes_ok.
  split; [repeat split; assumption |].
  exact (placeChildrenIntoRoomsWithAdults_chaperoned defaultCapacity 8 3 mx so
           2 so' mx' Hc Hok eq_refl).
Defined.

Lemma placeChildrenIntoRoomsWithSeniors_chaperoned_witness :
  let mx := [RoomBox.mk 4 0 0; RoomBox.mk 0 1 0] in
  let so := [RoomBox.mk 0 4 0] in
  let so' := [RoomBox.mk 0 4 0] in
  let mx' := [RoomBox.mk 4 0 0; RoomBox.mk 0 1 2] in
  (0 <= 2 /\ Forall (box_ok defaultCapacity) (so ++ mx) /\
   placeChildrenIntoRoomsWithSeniors defaultCapacity 8 2 mx so
   = Some (0, so', mx')) /\
  placed defaultCapacity Child
         (fun r => hasSeniors r && hasSpace defaultCapacity r) 2 so mx 0 so' mx' /\
  (0 = 0 \/
   Forall (fun r => 0 < RoomBox.seniors r -> full defaultCapacity r) (so' ++ mx')).
Proof.
  intros mx so so' mx'.
  assert (Hc : 0 <= 2) by discriminate.
  assert (Hok : Forall (box_ok defaultCapacity) (so ++ mx)) by boxes_ok.
  split; [repeat split; assumption |].
  exact (placeChildrenIntoRoomsWithSeniors_chaperoned defaultCapacity 8 2 mx so
           0 so' mx' Hc Hok eq_refl).
Defined.

Lemma distribute_succeeds_iff_witness :
  (0 < defaultCapacity /\ 0 <= 3 /\ 0 <= 1 /\ 0 <= 9 /\ 0 <= 2 /\
   3 <= maxArrayLength /\ 1 + 9 + 2 + defaultCapacity <= exactLimit) /\
  exists rooms,
    (forall fuel, (Z.to_nat (3 * defaultCapacity) <= fuel)%nat ->
                  distribute defaultCapacity fuel 3 1 9 2 = Some rooms) /\
    (rooms <> [] <-> 0 < 3 /\ 3 <= 1 + 9 /\ 1 + 9 + 2 <= 3 * defaultCapacity).
Proof.
  split; [repeat split; vm_compute; discriminate |].
  exact (distribute_succeeds_iff defaultCapacity eq_refl 3 1 9 2
           ltac:(discriminate) ltac:(discriminate) ltac:(discriminate)
           ltac:(discriminate)
           ltac:(vm_compute; discriminate) ltac:(vm_compute; discriminate)).
Defined.

Lemma distribute_rooms_anchored_witness :
  let rooms := [Room.mk 1 1 2; Room.mk 0 4 0; Room.mk 0 4 0] in
  (0 < defaultCapacity /\
   distribute defaultCapacity 20 3 1 9 2 = Some rooms /\
   In (Room.mk 0 4 0) rooms) /\
  1 <= 0 + 4.
Proof.
  intros rooms. split; [repeat split; right; now left |].
  exact (distribute_rooms_anchored defaultCapacity eq_refl 20 3 1 9 2 rooms
           (Room.mk 0 4 0) eq_refl (or_intror (or_introl eq_refl))).
Defined.

Lemma fillSeniorOnlyRooms_in_order_witness :
  (0 < defaultCapacity /\ 0 <= 9) /\
  fillSeniorOnlyRooms defaultCapacity (repeat RoomBox.fresh 3) 9 =
  ([RoomBox.mk 0 4 0; RoomBox.mk 0 4 0; RoomBox.mk 0 1 0], 0) /\
  fillSeniorOnlyRooms defaultCapacity (repeat RoomBox.fresh 3) 9 =
  (map (seated defaultCapacity 9) (seq 0 3),
   9 - Z.min 9 (Z.of_nat 3 * defaultCapacity)).
Proof.
  split; [split; [reflexivity | discriminate] |]. split; [reflexivity |].
  exact (fillSeniorOnlyRooms_in_order defaultCapacity eq_refl 3 9
           ltac:(discriminate)).
Defined.

Lemma seedMixedRooms_prefers_adults_witness :
  (0 < defaultCapacity /\ 0 <= 1 /\ 0 <= 5 /\ Z.of_nat 3 <= 1 + 5) /\
  seedMixedRooms defaultCapacity (repeat RoomBox.fresh 3) 1 5 =
  Some ([adultAnchor; seniorAnchor; seniorAnchor], 0, 3).
Proof.
  split; [repeat split; discriminate |].
  exact (proj2 (seedMixedRooms_prefers_adults defaultCapacity eq_refl 3 1 5
                  ltac:(discriminate) ltac:(discriminate))
           ltac:(discriminate)).
Defined.

Lemma distribute_groups_seniors_witness :
  let rooms := [Room.mk 1 1 2; Room.mk 0 4 0; Room.mk 0 4 0] in
  (0 < defaultCapacity /\
   distribute defaultCapacity 20 3 1 9 2 = Some rooms /\ rooms <> []) /\
  Z.min (pickSeniorOnlyRoomCount defaultCapacity 3 1 9 2) (9 / defaultCapacity) <=
  Z.of_nat (length (filter (seniorsOnlyFull defaultCapacity) rooms)).
Proof.
  intros rooms. split; [repeat split; discriminate |].
  exact (distribute_groups_seniors defaultCapacity eq_refl 20 3 1 9 2 rooms
           eq_refl ltac:(discriminate)).
Defined.

Lemma pickSeniorOnlyRoomCount_largest_witness :
  (0 <= 3 /\ 0 <= 1 /\ 0 <= 9 /\ 0 <= 2 /\
   3 <= exactLimit /\ 1 + 9 + 2 + defaultCapacity <= exactLimit) /\
  pickSeniorOnlyRoomCount defaultCapacity 3 1 9 2 = 2 /\
  (let initial :=
     Z.min (Z.max 0 (3 - ceilDiv (1 + 2) defaultCapacity))
           (ceilDiv 9 defaultCapacity) in
   let q := pickSeniorOnlyRoomCount defaultCapacity 3 1 9 2 in
   q <= initial /\
   (0 <= initial -> 0 <= q) /\
   (0 < q -> 3 - q <= 1 + (9 - Z.min 9 (q * defaultCapacity))) /\
   (forall q', q < q' <= initial ->
               1 + (9 - Z.min 9 (q' * defaultCapacity)) < 3 - q')).
Proof.
  split; [repeat split; vm_compute; discriminate |]. split; [reflexivity |].
  exact (pickSeniorOnlyRoomCount_largest defaultCapacity 3 1 9 2
           ltac:(discriminate) ltac:(discriminate) ltac:(discriminate)
           ltac:(discriminate)
           ltac:(vm_compute; discriminate) ltac:(vm_compute; discriminate)).
Defined.

Lemma ceilDiv_least_witness :
  (0 < 4 /\ 0 <= 9 /\ 9 + 4 <= exactLimit) /\ ceilDiv 9 4 = 3 /\
  9 <= ceilDiv 9 4 * 4 /\ (forall k, 9 <= k * 4 -> ceilDiv 9 4 <= k).
Proof.
  split; [repeat split; vm_compute; discriminate |]. split; [reflexivity |].
  exact (ceilDiv_least 9 4 eq_refl ltac:(discriminate)
           ltac:(vm_compute; discriminate)).
Defined.

Lemma sweep_fair_witness :
  let rooms := [RoomBox.mk 0 4 0; RoomBox.mk 1 0 0; RoomBox.mk 0 1 0] in
  let rooms' := [RoomBox.mk 0 4 0; RoomBox.mk 1 1 0; RoomBox.mk 0 2 0] in
  (adds defaultCapacity Senior (addSeniors defaultCapacity) /\
   (forall r, hasSpace defaultCapacity r = true ->
              hasSpace defaultCapacity r = true) /\
   0 <= 5 /\
   sweep (hasSpace defaultCapacity) (addSeniors defaultCapacity) rooms 5 false
   = (rooms', 3, true)) /\
  0 <= 3 <= 5 /\
  occupancy rooms' = occupancy rooms + (5 - 3) /\
  Forall2 (fun r r' => r' = r \/
                       (hasSpace defaultCapacity r = true /\
                        field Senior r' = field Senior r + 1 /\
                        total r' = total r + 1)) rooms rooms' /\
  (0 < 3 ->
   Forall2 (fun r r' => hasSpace defaultCapacity r = true ->
                        total r' = total r + 1) rooms rooms').
Proof.
  intros rooms rooms'.
  assert (Hadd : adds defaultCapacity Senior (addSeniors defaultCapacity))
    by exact (addSeniors_adds defaultCapacity).
  assert (Hel : forall r, hasSpace defaultCapacity r = true ->
                          hasSpace defaultCapacity r = true) by (intros r H; exact H).
  assert (Hn : 0 <= 5) by discriminate.
  split; [split; [exact Hadd | split; [exact Hel | split; [exact Hn | reflexivity]]] |].
  exact (sweep_fair defaultCapacity Senior (hasSpace defaultCapacity)
           (addSeniors defaultCapacity) rooms 5 false rooms' 3 true
           Hadd Hel Hn eq_refl).
Defined.

Lemma distribute_children_with_adults_first_witness :
  let rooms := [Room.mk 1 1 2; Room.mk 0 4 0; Room.mk 0 4 0] in
  (0 < defaultCapacity /\ distribute defaultCapacity 20 3 1 9 2 = Some rooms) /\
  (Forall (fun r => 0 < Room.adults r ->
                    Room.adults r + Room.seniors r + Room.children r
                    = defaultCapacity) rooms \/
   Forall (fun r => 0 < Room.children r -> 0 < Room.adults r) rooms).
Proof.
  intros rooms. split; [split; reflexivity |].
  exact (distribute_children_with_adults_first defaultCapacity eq_refl
           20 3 1 9 2 rooms eq_refl).
Defined.
